(** * Trease backend: isometric grid compositor and colour filters

    A shallow embedding of [src/core/grid.ts] and [src/core/filters.ts],
    and of the two batch drivers that generate the cached grids and videos.

    Numbers.  A JavaScript [number] is modelled by an exact rational ([Q])
    wherever the code only adds, subtracts, multiplies, divides, compares and
    rounds; integral quantities (grid addresses, rounded pixel centres, byte
    samples, row and column indices) are [Z] or [nat].  The wave generator
    calls [Math.sqrt] and [Math.sin], so it and the drawing commands live on
    the reals ([R]); rational and integral inputs are injected with [Q2R] and
    [IZR].  Rounding error of the double-precision arithmetic is not
    modelled; where a result hangs on how the doubles break a tie of the
    exact values (a channel halfway between two integers, two rows equally
    dark), the theorems leave the choice open. *)

From Stdlib Require Import ZArith QArith Qround Qminmax.
From Stdlib Require Import Reals Qreals Lra Lia Bool List String.
From Stdlib Require Import Permutation Sorted.
From Stdlib Require Lqa.
Import ListNotations.

Set Implicit Arguments.

(* ------------------------------------------------------------------ *)
(** ** The JavaScript built-ins the sources call *)
(* ------------------------------------------------------------------ *)

Module Js.

Open Scope Q_scope.

(** [Math.round]: the nearest integer, a tie going to the larger one. *)
Definition Math_round (x : Q) : Z := Qfloor (x + 1 / 2).

Definition Math_max (x y : Q) : Q := Qmax x y.
Definition Math_min (x y : Q) : Q := Qmin x y.

(** [x > y] on numbers. *)
Definition gt (x y : Q) : bool := negb (Qle_bool x y).

(** [x !== y] on numbers. *)
Definition neq (x y : Q) : bool := negb (Qeq_bool x y).

(** What a call does: it returns a value or throws. *)
Inductive outcome (A : Type) : Type :=
| Returned (value : A)
| Thrown (message : string).

Arguments Returned {A} value.
Arguments Thrown {A} message.

(** [Array.prototype.sort(cmp)].  ECMAScript requires the sort to be
    stable: [a] is moved behind [b] only when [cmp a b > 0].  The model is
    the stable insertion sort; [Array_sort_unique] below shows that every
    stable arrangement in comparator order is this one, so the engine's
    own algorithm yields the same array. *)
Section ArraySort.
Context {A : Type} (cmp : A -> A -> Z).

Fixpoint insertSorted (x : A) (l : list A) : list A :=
  match l with
  | [] => [x]
  | y :: l' => if (cmp x y <=? 0)%Z then x :: l else y :: insertSorted x l'
  end.

Definition Array_sort (l : list A) : list A := fold_right insertSorted [] l.
End ArraySort.

End Js.

(* ------------------------------------------------------------------ *)
(** ** grid.ts: configuration, geometry and paint order *)
(* ------------------------------------------------------------------ *)

Module Grid.

Import Js.
Open Scope Q_scope.

Definition SCALE : Z := 4.

(** The object [GRID_CONFIG]; the functions below read it, so it is passed
    to them. *)
Record GridConfig : Type := {
  tileWidth : Q;
  grassHeight : Q;
  soilHeight : Q;
  gridSize : Q;
  canvasWidth : Q;
  canvasHeight : Q
}.

Definition GRID_CONFIG : GridConfig := {|
  tileWidth := 100 * inject_Z SCALE;
  grassHeight := 15 * inject_Z SCALE;
  soilHeight := 40 * inject_Z SCALE;
  gridSize := 0;
  canvasWidth := 0;
  canvasHeight := 0
|}.

Record GridPosition : Type := {
  gridX : Z;
  gridY : Z;
  pixelX : Z;
  pixelY : Z
}.

Record Dimensions : Type := { width : Q; height : Q }.

Definition calculateCanvasDimensions (cfg : GridConfig) (gridSize : Z) : Dimensions :=
  let totalGridWidth := (inject_Z gridSize * 2) * (tileWidth cfg / 2) in
  let calculatedWidth := totalGridWidth + (100 * inject_Z SCALE) in
  let calculatedHeight :=
    inject_Z gridSize * (tileWidth cfg / 2)
    + (soilHeight cfg + grassHeight cfg) * 2 + (200 * inject_Z SCALE) in
  let canvasSize := Math_max calculatedWidth calculatedHeight in
  {| width := canvasSize; height := canvasSize |}.

(** The body of the inner loop of [generateGridPositions]. *)
Definition gridPositionAt (cfg : GridConfig) (canvasWidth : Q) (y x : nat) : GridPosition :=
  let startX := canvasWidth / 2 in
  let startY := 150 * inject_Z SCALE in
  let isoX := (inject_Z (Z.of_nat x) - inject_Z (Z.of_nat y)) * (tileWidth cfg / 2) in
  let isoY := (inject_Z (Z.of_nat x) + inject_Z (Z.of_nat y)) * (tileWidth cfg / 4) in
  let pixelX := startX + isoX in
  let pixelY := startY + isoY + (tileWidth cfg / 4) in
  {| gridX := Z.of_nat x;
     gridY := Z.of_nat y;
     pixelX := Math_round pixelX;
     pixelY := Math_round pixelY |}.

(** [for y in 0 .. gridSize-1, for x in 0 .. gridSize-1: push]; neither
    loop runs when [gridSize <= 0]. *)
Definition generateGridPositions (cfg : GridConfig) (gridSize : Z) (canvasWidth : Q)
  : list GridPosition :=
  flat_map
    (fun y => map (gridPositionAt cfg canvasWidth y) (seq 0 (Z.to_nat gridSize)))
    (seq 0 (Z.to_nat gridSize)).

(** Neither function has a [throw], and arithmetic on numbers cannot
    throw: a call always returns. *)
Definition call_calculateCanvasDimensions (cfg : GridConfig) (gridSize : Z)
  : outcome Dimensions :=
  Returned (calculateCanvasDimensions cfg gridSize).

Definition call_generateGridPositions (cfg : GridConfig) (gridSize : Z) (canvasWidth : Q)
  : outcome (list GridPosition) :=
  Returned (generateGridPositions cfg gridSize canvasWidth).

(** The comparator of [sortPositionsForRendering]. *)
Definition paintKey (p : GridPosition) : Z := (gridY p + gridX p)%Z.

Definition comparePositions (a b : GridPosition) : Z := (paintKey a - paintKey b)%Z.

Definition sortPositionsForRendering (positions : list GridPosition) : list GridPosition :=
  Array_sort comparePositions positions.

End Grid.

(* ------------------------------------------------------------------ *)
(** ** grid.ts: drawing one tile *)
(* ------------------------------------------------------------------ *)

Module GridDraw.

Import Grid.
Open Scope R_scope.

(** [{x, y}] *)
Record Point : Type := { pt_x : R; pt_y : R }.

(** The calls made on a 2D context, oldest first; setting a property is
    recorded as a call too. *)
Inductive Command : Type :=
| beginPath
| moveTo (x y : R)
| lineTo (x y : R)
| closePath
| fillStyle (color : string)
| fill
| strokeStyle (color : string)
| lineWidth (w : R)
| lineCap (cap : string)
| stroke
| ellipse (cx cy radiusX radiusY rotation startAngle endAngle : R).

Definition Context2D : Type := list Command.

Definition moveToPoint (p : Point) : Command := moveTo (pt_x p) (pt_y p).
Definition lineToPoint (p : Point) : Command := lineTo (pt_x p) (pt_y p).

Module COLORS.
Definition grass_top : string := "#E8F0F8".
Definition grass_sideLight : string := "#D4E2ED".
Definition grass_sideDark : string := "#C5D6E3".
Definition grass_tuft : string := "#B8CCDB".
Definition grass_gridStroke : string := "#CDE0EC".
Definition soil_sideLight : string := "#8B9298".
Definition soil_sideDark : string := "#6E757A".
End COLORS.

(** [strokeColor || color]: an absent or empty stroke colour is falsy. *)
Definition strokeOr (strokeColor : option string) (color : string) : string :=
  match strokeColor with
  | Some s => if String.eqb s EmptyString then color else s
  | None => color
  end.

(** The fill and stroke that end [drawPoly] and both wavy faces. *)
Definition paint (color : string) (strokeColor : option string) : list Command :=
  [fillStyle color; fill;
   strokeStyle (strokeOr strokeColor color); lineWidth (1 * IZR SCALE); stroke].

Definition drawPoly (ctx : Context2D) (points : list Point)
           (color : string) (strokeColor : option string) : Context2D :=
  match points with
  | [] => ctx
  | p0 :: rest =>
      ctx ++ [beginPath; moveToPoint p0] ++ map lineToPoint rest
          ++ [closePath] ++ paint color strokeColor
  end.

Definition drawShadow (cfg : GridConfig) (ctx : Context2D)
           (centerX centerY : R) (contentWidth : option R) : Context2D :=
  let radiusX :=
    match contentWidth with
    | Some c => if Req_dec_T c 0 then Q2R (tileWidth cfg) / 4.5 else c / 2
    | None => Q2R (tileWidth cfg) / 4.5
    end in
  let radiusY := radiusX / 2.5 in
  ctx ++ [beginPath; ellipse centerX centerY radiusX radiusY 0 0 (2 * PI);
          fillStyle "rgba(40, 60, 20, 0.066)"; fill].

Definition drawTuft (ctx : Context2D) (centerX centerY : R) : Context2D :=
  let size := 6 * IZR SCALE in
  ctx ++ [strokeStyle COLORS.grass_tuft; lineWidth (2 * IZR SCALE); lineCap "round";
          beginPath;
          moveTo (centerX - size) (centerY - size / 2);
          lineTo centerX (centerY + size / 2);
          lineTo (centerX + size) (centerY - size / 2);
          stroke].

(** [generateWavyEdge]: [segments + 1] points along the edge, each moved
    across it by a sine of its position. *)
Definition generateWavyEdge (startX startY endX endY : R)
           (waveAmplitude waveFrequency : R) (segments : nat) : list Point :=
  let dx := endX - startX in
  let dy := endY - startY in
  let length := sqrt (dx * dx + dy * dy) in
  let dirX := dx / length in
  let dirY := dy / length in
  let perpX := - dirY in
  let perpY := dirX in
  map (fun i : nat =>
         let t := INR i / INR segments in
         let baseX := startX + dx * t in
         let baseY := startY + dy * t in
         let phase := t * PI * 2 * waveFrequency in
         let waveOffset := sin phase * waveAmplitude in
         {| pt_x := baseX + perpX * waveOffset;
            pt_y := baseY + perpY * waveOffset |})
      (seq 0 (S segments)).

Definition WAVE_AMPLITUDE : R := 3 * IZR SCALE.
Definition WAVE_FREQUENCY : R := 2.
Definition WAVE_SEGMENTS : nat := 16.

(** The path of a grass face once its wavy bottom edge is known: top
    edge, then the wavy points from the last to the first, then back. *)
Definition wavyGrassPath (topLeft topRight : Point) (wavyBottom : list Point)
           (color : string) (strokeColor : option string) : list Command :=
  [beginPath; moveToPoint topLeft; lineToPoint topRight]
    ++ map lineToPoint (rev wavyBottom)
    ++ [lineToPoint topLeft; closePath] ++ paint color strokeColor.

Definition drawWavyGrassSide (ctx : Context2D)
           (topLeft topRight bottomRight bottomLeft : Point)
           (color : string) (strokeColor : option string) : Context2D :=
  let wavyBottom :=
    generateWavyEdge (pt_x bottomLeft) (pt_y bottomLeft)
                     (pt_x bottomRight) (pt_y bottomRight)
                     WAVE_AMPLITUDE WAVE_FREQUENCY WAVE_SEGMENTS in
  ctx ++ wavyGrassPath topLeft topRight wavyBottom color strokeColor.

(** The path of a soil face once its wavy top edge is known: the wavy
    points from the first to the last, then right side, bottom, left
    side. *)
Definition wavySoilPath (wavyTop : list Point) (bottomRight bottomLeft : Point)
           (color : string) (strokeColor : option string) : list Command :=
  match wavyTop with
  | [] => []
  | first :: others =>
      [beginPath; moveToPoint first] ++ map lineToPoint others
        ++ [lineToPoint bottomRight; lineToPoint bottomLeft; lineToPoint first; closePath]
        ++ paint color strokeColor
  end.

Definition drawWavySoilSide (ctx : Context2D)
           (topLeft topRight bottomRight bottomLeft : Point)
           (color : string) (strokeColor : option string) : Context2D :=
  let wavyTop :=
    generateWavyEdge (pt_x topLeft) (pt_y topLeft)
                     (pt_x topRight) (pt_y topRight)
                     WAVE_AMPLITUDE WAVE_FREQUENCY WAVE_SEGMENTS in
  ctx ++ wavySoilPath wavyTop bottomRight bottomLeft color strokeColor.

Record DrawIsoBlockOptions : Type := {
  hasShadow : option bool;
  shadowWidth : option R;
  drawTufts : option bool
}.

(** [a % b] on numbers: the remainder has the sign of [a]. *)
Definition remainder (a b : R) : R :=
  let q := a / b in
  a - b * IZR (if Rle_dec 0 q then Zfloor q else Zceil q).

(** The tuft of an empty tile, placed by a hash of the grid address. *)
Definition drawDecoration (ctx : Context2D) (pos : GridPosition) : Context2D :=
  let seed := sin (IZR (gridX pos) * 12.9898 + IZR (gridY pos) * 78.233) * 43758.5453 in
  if Rlt_dec 0.5 (seed - IZR (Zfloor seed)) then
    let randX := remainder (seed * 10) (20 * IZR SCALE) - (10 * IZR SCALE) in
    let randY := remainder (seed * 20) (10 * IZR SCALE) - (5 * IZR SCALE) in
    drawTuft ctx (IZR (pixelX pos) + randX) (IZR (pixelY pos) + randY)
  else ctx.

Definition drawIsoBlock (cfg : GridConfig) (ctx : Context2D) (pos : GridPosition)
           (options : DrawIsoBlockOptions) : Context2D :=
  let pixelX := IZR (pixelX pos) in
  let pixelY := IZR (pixelY pos) in
  let hasShadow := match hasShadow options with Some v => v | None => false end in
  let drawTufts := match drawTufts options with Some v => v | None => false end in
  let w := Q2R (tileWidth cfg) in
  let h := Q2R (tileWidth cfg) / 2 in
  let grassHeight := Q2R (grassHeight cfg) in
  let soilHeight := Q2R (soilHeight cfg) in
  let topPointY := pixelY - (h / 2) in
  let soilY := topPointY + grassHeight in
  (* right face, soil *)
  let ctx := drawWavySoilSide ctx
    {| pt_x := pixelX; pt_y := soilY + h |}
    {| pt_x := pixelX + w / 2; pt_y := soilY + h / 2 |}
    {| pt_x := pixelX + w / 2; pt_y := soilY + h / 2 + soilHeight |}
    {| pt_x := pixelX; pt_y := soilY + h + soilHeight |}
    COLORS.soil_sideDark None in
  (* left face, soil *)
  let ctx := drawWavySoilSide ctx
    {| pt_x := pixelX - w / 2; pt_y := soilY + h / 2 |}
    {| pt_x := pixelX; pt_y := soilY + h |}
    {| pt_x := pixelX; pt_y := soilY + h + soilHeight |}
    {| pt_x := pixelX - w / 2; pt_y := soilY + h / 2 + soilHeight |}
    COLORS.soil_sideLight None in
  (* right face, grass *)
  let ctx := drawWavyGrassSide ctx
    {| pt_x := pixelX; pt_y := topPointY + h |}
    {| pt_x := pixelX + w / 2; pt_y := topPointY + h / 2 |}
    {| pt_x := pixelX + w / 2; pt_y := topPointY + h / 2 + grassHeight |}
    {| pt_x := pixelX; pt_y := topPointY + h + grassHeight |}
    COLORS.grass_sideDark None in
  (* left face, grass *)
  let ctx := drawWavyGrassSide ctx
    {| pt_x := pixelX - w / 2; pt_y := topPointY + h / 2 |}
    {| pt_x := pixelX; pt_y := topPointY + h |}
    {| pt_x := pixelX; pt_y := topPointY + h + grassHeight |}
    {| pt_x := pixelX - w / 2; pt_y := topPointY + h / 2 + grassHeight |}
    COLORS.grass_sideLight None in
  (* top face *)
  let topVerts :=
    [ {| pt_x := pixelX; pt_y := topPointY |};
      {| pt_x := pixelX + w / 2; pt_y := topPointY + h / 2 |};
      {| pt_x := pixelX; pt_y := topPointY + h |};
      {| pt_x := pixelX - w / 2; pt_y := topPointY + h / 2 |} ] in
  let ctx := drawPoly ctx topVerts COLORS.grass_top (Some COLORS.grass_gridStroke) in
  let ctx := if hasShadow
             then drawShadow cfg ctx pixelX pixelY (shadowWidth options)
             else ctx in
  if drawTufts && negb hasShadow then drawDecoration ctx pos else ctx.

End GridDraw.

(* ------------------------------------------------------------------ *)
(** ** grid.ts: the anchor of a sprite *)
(* ------------------------------------------------------------------ *)

Module Anchor.

Import Js.
Open Scope Q_scope.

(** What [getImageData] returns: [data] holds four samples (red, green,
    blue, alpha) per pixel, row after row.  The same record is the raster
    that filters.ts reads and writes. *)
Record ImageData : Type := {
  width : nat;
  height : nat;
  data : list Z
}.

(** [data[i] ?? 0] *)
Definition sample (img : ImageData) (i : nat) : Z := nth i (data img) 0%Z.

Definition pixelIndex (img : ImageData) (y x : nat) : nat := ((y * width img + x) * 4)%nat.

Definition redAt (img : ImageData) (y x : nat) : Z := sample img (pixelIndex img y x).
Definition greenAt (img : ImageData) (y x : nat) : Z := sample img (pixelIndex img y x + 1).
Definition blueAt (img : ImageData) (y x : nat) : Z := sample img (pixelIndex img y x + 2).
Definition alphaAt (img : ImageData) (y x : nat) : Z := sample img (pixelIndex img y x + 3).

(** The three variables of the row loop. *)
Record RowScan : Type := {
  hasPixels : bool;
  totalDarkness : Q;
  pixelCount : nat
}.

Definition rowStart : RowScan :=
  {| hasPixels := false; totalDarkness := 0; pixelCount := 0 |}.

(** [(765 - (r + g + b)) * (alpha / 255)] *)
Definition pixelDarkness (img : ImageData) (y x : nat) : Q :=
  let brightness := (redAt img y x + greenAt img y x + blueAt img y x)%Z in
  (765 - inject_Z brightness) * (inject_Z (alphaAt img y x) / 255).

(** One turn of the inner loop over [x]. *)
Definition scanPixel (img : ImageData) (y : nat) (acc : RowScan) (x : nat) : RowScan :=
  if (245 <? alphaAt img y x)%Z then
    {| hasPixels := true;
       totalDarkness := totalDarkness acc + pixelDarkness img y x;
       pixelCount := S (pixelCount acc) |}
  else acc.

Definition scanRow (img : ImageData) (y : nat) : RowScan :=
  fold_left (scanPixel img y) (seq 0 (width img)) rowStart.

Record Candidate : Type := { row : nat; darkness : Q }.

(** The outer loop, [ys] being the rows still to visit, lowest first.  A row
    with a solid pixel is pushed; the loop breaks once more than
    [height * 0.3] rows have been pushed. *)
Fixpoint scanRows (img : ImageData) (ys : list nat) (candidateRows : list Candidate)
  : list Candidate :=
  match ys with
  | [] => candidateRows
  | y :: rest =>
      let acc := scanRow img y in
      if hasPixels acc && (0 <? pixelCount acc)%nat then
        let avgDarkness := totalDarkness acc / inject_Z (Z.of_nat (pixelCount acc)) in
        let candidateRows := candidateRows ++ [{| row := y; darkness := avgDarkness |}] in
        if gt (inject_Z (Z.of_nat (List.length candidateRows)))
              (inject_Z (Z.of_nat (height img)) * 0.3)
        then candidateRows
        else scanRows img rest candidateRows
      else scanRows img rest candidateRows
  end.

(** [for (y = height - 1; y >= 0; y--)] *)
Definition rowsFromBottom (img : ImageData) : list nat := rev (seq 0 (height img)).

Definition collectCandidates (img : ImageData) : list Candidate :=
  scanRows img (rowsFromBottom img) [].

(** The darkest candidate; a later one replaces the current one only when
    strictly darker.  Darkness is an exact rational here; the code compares
    doubles, so between two rows of different samples and the same exact
    darkness it may keep either. *)
Definition darkestOf (first : Candidate) (candidateRows : list Candidate) : Candidate :=
  fold_left
    (fun darkestRow candidate =>
       if gt (darkness candidate) (darkness darkestRow) then candidate else darkestRow)
    candidateRows first.

(** One turn of the loop that finds the solid extent of the chosen row. *)
Definition widen (img : ImageData) (bottomY : nat) (lr : Z * Z) (x : nat) : Z * Z :=
  let '(leftmost, rightmost) := lr in
  if (245 <? alphaAt img bottomY x)%Z then
    let leftmost := if (Z.of_nat x <? leftmost)%Z then Z.of_nat x else leftmost in
    let rightmost := if (rightmost <? Z.of_nat x)%Z then Z.of_nat x else rightmost in
    (leftmost, rightmost)
  else lr.

Definition extentOfRow (img : ImageData) (bottomY : nat) : Z * Z :=
  fold_left (widen img bottomY) (seq 0 (width img)) (Z.of_nat (width img), (-1)%Z).

Record ContentPosition : Type := {
  xOffset : Q;
  yPadding : Z;
  contentWidth : Z
}.

Definition detectTreeContentPosition (img : ImageData) : ContentPosition :=
  let candidateRows := collectCandidates img in
  match candidateRows with
  | [] => {| xOffset := 0; yPadding := 0; contentWidth := 0 |}
  | first :: _ =>
      let darkestRow := darkestOf first candidateRows in
      let bottomY := row darkestRow in
      let yPadding := (Z.of_nat (height img) - Z.of_nat bottomY - 1)%Z in
      let '(leftmost, rightmost) := extentOfRow img bottomY in
      let contentCenterX := (inject_Z leftmost + inject_Z rightmost) / 2 in
      let imageCenterX := inject_Z (Z.of_nat (width img)) / 2 in
      let xOffset := contentCenterX - imageCenterX in
      let contentWidth := (rightmost - leftmost + 1)%Z in
      {| xOffset := xOffset; yPadding := yPadding; contentWidth := contentWidth |}
  end.

(** A raster given by a function of row and column, for examples. *)
Definition rasterOf (w h : nat) (px : nat -> nat -> Z * Z * Z * Z) : ImageData :=
  {| width := w;
     height := h;
     data :=
       flat_map
         (fun y => flat_map (fun x => let '(r, g, b, a) := px y x in [r; g; b; a]) (seq 0 w))
         (seq 0 h) |}.

End Anchor.

(* ------------------------------------------------------------------ *)
(** ** filters.ts: the catalog and the raster transform *)
(* ------------------------------------------------------------------ *)

Module Filters.

Import Js.
Import Anchor.
Open Scope string_scope.
Open Scope Q_scope.

Record ColorOverlay : Type := {
  overlay_r : Q;
  overlay_g : Q;
  overlay_b : Q;
  opacity : Q
}.

Record CanvasAdjustments : Type := {
  brightness : Q;
  contrast : Q;
  saturation : Q;
  hue : Q;
  colorOverlay : option ColorOverlay;
  temperature : option Q
}.

Record FilterConfig : Type := {
  name : string;
  description : string;
  ffmpegFilter : string;
  canvasAdjustments : CanvasAdjustments
}.

Definition none : FilterConfig := {|
  name := "none";
  description := "No filter applied";
  ffmpegFilter := EmptyString;
  canvasAdjustments := {|
    brightness := 0; contrast := 0; saturation := 1; hue := 0;
    colorOverlay := None; temperature := None |}
|}.

Definition winter : FilterConfig := {|
  name := "winter";
  description := "Cool blue tones with slight desaturation";
  ffmpegFilter :=
    "colorbalance=bs=0.15:bm=0.1:bh=0.05:rs=-0.1:gs=-0.05,eq=brightness=0.05:saturation=0.85";
  canvasAdjustments := {|
    brightness := 5; contrast := 5; saturation := 0.85; hue := -10;
    temperature := Some (-30);
    colorOverlay :=
      Some {| overlay_r := 200; overlay_g := 220; overlay_b := 255; opacity := 0.08 |} |}
|}.

Definition autumn : FilterConfig := {|
  name := "autumn";
  description := "Warm orange and golden tones";
  ffmpegFilter :=
    "colorbalance=rs=0.15:rm=0.1:rh=0.05:gs=0.05:bs=-0.1:bm=-0.1,eq=saturation=1.2:contrast=1.05";
  canvasAdjustments := {|
    brightness := 0; contrast := 8; saturation := 1.2; hue := 15;
    temperature := Some 40;
    colorOverlay :=
      Some {| overlay_r := 255; overlay_g := 180; overlay_b := 100; opacity := 0.06 |} |}
|}.

Definition spring : FilterConfig := {|
  name := "spring";
  description := "Fresh, vibrant greens and soft tones";
  ffmpegFilter := "colorbalance=gs=0.1:gm=0.08:rs=0.05,eq=brightness=0.08:saturation=1.15";
  canvasAdjustments := {|
    brightness := 8; contrast := 3; saturation := 1.15; hue := 5;
    temperature := Some 10;
    colorOverlay :=
      Some {| overlay_r := 220; overlay_g := 255; overlay_b := 220; opacity := 0.05 |} |}
|}.

Definition summer : FilterConfig := {|
  name := "summer";
  description := "Bright, warm golden hour feel";
  ffmpegFilter :=
    "colorbalance=rs=0.1:rm=0.08:gs=0.05:bs=-0.05,eq=brightness=0.1:saturation=1.1:contrast=1.05";
  canvasAdjustments := {|
    brightness := 10; contrast := 5; saturation := 1.1; hue := 10;
    temperature := Some 25;
    colorOverlay :=
      Some {| overlay_r := 255; overlay_g := 240; overlay_b := 200; opacity := 0.07 |} |}
|}.

Definition night : FilterConfig := {|
  name := "night";
  description := "Dark blue moonlit atmosphere";
  ffmpegFilter :=
    "colorbalance=bs=0.25:bm=0.2:bh=0.15:rs=-0.15:gs=-0.1,eq=brightness=-0.15:saturation=0.7:contrast=1.1";
  canvasAdjustments := {|
    brightness := -15; contrast := 10; saturation := 0.7; hue := -20;
    temperature := Some (-50);
    colorOverlay :=
      Some {| overlay_r := 50; overlay_g := 80; overlay_b := 150; opacity := 0.15 |} |}
|}.

Definition sepia : FilterConfig := {|
  name := "sepia";
  description := "Classic sepia/vintage brown tones";
  ffmpegFilter := "colorchannelmixer=.393:.769:.189:0:.349:.686:.168:0:.272:.534:.131";
  canvasAdjustments := {|
    brightness := 0; contrast := 5; saturation := 0.3; hue := 30;
    temperature := Some 30;
    colorOverlay :=
      Some {| overlay_r := 210; overlay_g := 180; overlay_b := 140; opacity := 0.2 |} |}
|}.

Definition vintage : FilterConfig := {|
  name := "vintage";
  description := "Faded retro film look";
  ffmpegFilter := "curves=vintage,eq=saturation=0.9:contrast=0.95";
  canvasAdjustments := {|
    brightness := 5; contrast := -5; saturation := 0.9; hue := 5;
    temperature := Some 15;
    colorOverlay :=
      Some {| overlay_r := 250; overlay_g := 240; overlay_b := 230; opacity := 0.1 |} |}
|}.

(** The object [FILTERS], as its own keys and their values in the order
    they are written. *)
Definition FILTERS : list (string * FilterConfig) :=
  [ ("none", none); ("winter", winter); ("autumn", autumn); ("spring", spring);
    ("summer", summer); ("night", night); ("sepia", sepia); ("vintage", vintage) ].

(** The own keys of [FILTERS]: [None] when [key] is not one of them. *)
Fixpoint lookup (key : string) (entries : list (string * FilterConfig)) : option FilterConfig :=
  match entries with
  | [] => None
  | (k, v) :: rest => if String.eqb key k then Some v else lookup key rest
  end.

(** [FILTERS] is an object literal, so besides its own keys it answers
    to the names every object inherits from [Object.prototype]. *)
Definition Object_prototype : list string :=
  [ "constructor"; "__defineGetter__"; "__defineSetter__"; "hasOwnProperty";
    "__lookupGetter__"; "__lookupSetter__"; "isPrototypeOf"; "propertyIsEnumerable";
    "toString"; "valueOf"; "__proto__"; "toLocaleString" ].

(** What [FILTERS[name]] can be when it is not [undefined]: one of the
    presets, or the member inherited under [key] (a function, or for
    [__proto__] the prototype itself).  Both are truthy; an inherited member
    has no [ffmpegFilter] and no [canvasAdjustments]. *)
Inductive Member : Type :=
| preset (filter : FilterConfig)
| inherited (key : string).

(** [FILTERS[name]]: [None] stands for [undefined]. *)
Definition member (key : string) : option Member :=
  match lookup key FILTERS with
  | Some filter => Some (preset filter)
  | None =>
      if existsb (String.eqb key) Object_prototype then Some (inherited key) else None
  end.

(** [FILTERS[name] || FILTERS.none] *)
Definition getFilter (filterName : string) : Member :=
  match member filterName with
  | Some found => found
  | None => preset none
  end.

(** [filter.ffmpegFilter] and [filter.canvasAdjustments]: [None] stands
    for [undefined]. *)
Definition ffmpegFilterOf (filter : Member) : option string :=
  match filter with
  | preset config => Some (ffmpegFilter config)
  | inherited _ => None
  end.

Definition canvasAdjustmentsOf (filter : Member) : option CanvasAdjustments :=
  match filter with
  | preset config => Some (canvasAdjustments config)
  | inherited _ => None
  end.

Definition getFFmpegFilterString (filterName inputLabel outputLabel : string) : string :=
  let filter := getFilter filterName in
  match ffmpegFilterOf filter with
  | Some fragment =>
      if String.eqb fragment EmptyString then EmptyString
      else inputLabel ++ fragment ++ outputLabel
  | None => EmptyString
  end.

Definition getAvailableFilters : list string := map fst FILTERS.

(** The body of the pixel loop of [applyCanvasFilter] below its
    [if (a === 0) continue]: the three samples written back for a pixel
    whose samples were [r0], [g0], [b0].  The numbers of the loop are exact
    rationals here; the code computes them in doubles, so where the exact
    value of a channel lies halfway between two integers the code may write
    either of the two. *)
Definition filterPixel (adj : CanvasAdjustments) (r0 g0 b0 : Z) : Z * Z * Z :=
  let r := inject_Z r0 in
  let g := inject_Z g0 in
  let b := inject_Z b0 in
  (* temperature shift *)
  let '(r, g, b) :=
    match temperature adj with
    | Some temperature =>
        if neq temperature 0 then
          let tempFactor := temperature / 100 in
          if gt tempFactor 0 then
            (Math_min 255 (r + tempFactor * 30),
             Math_min 255 (g + tempFactor * 10),
             Math_max 0 (b - tempFactor * 20))
          else
            (Math_max 0 (r + tempFactor * 20),
             g,
             Math_min 255 (b - tempFactor * 30))
        else (r, g, b)
    | None => (r, g, b)
    end in
  (* saturation *)
  let '(r, g, b) :=
    if neq (saturation adj) 1 then
      let gray := 0.299 * r + 0.587 * g + 0.114 * b in
      (gray + saturation adj * (r - gray),
       gray + saturation adj * (g - gray),
       gray + saturation adj * (b - gray))
    else (r, g, b) in
  (* brightness *)
  let '(r, g, b) :=
    if neq (brightness adj) 0 then
      let brightFactor := brightness adj * 2.55 in
      (r + brightFactor, g + brightFactor, b + brightFactor)
    else (r, g, b) in
  (* contrast *)
  let '(r, g, b) :=
    if neq (contrast adj) 0 then
      let contrastFactor := (259 * (contrast adj + 255)) / (255 * (259 - contrast adj)) in
      (contrastFactor * (r - 128) + 128,
       contrastFactor * (g - 128) + 128,
       contrastFactor * (b - 128) + 128)
    else (r, g, b) in
  (* colour overlay *)
  let '(r, g, b) :=
    match colorOverlay adj with
    | Some overlay =>
        if gt (opacity overlay) 0 then
          (r * (1 - opacity overlay) + overlay_r overlay * opacity overlay,
           g * (1 - opacity overlay) + overlay_g overlay * opacity overlay,
           b * (1 - opacity overlay) + overlay_b overlay * opacity overlay)
        else (r, g, b)
    | None => (r, g, b)
    end in
  (* clamp *)
  (Z.max 0 (Z.min 255 (Math_round r)),
   Z.max 0 (Z.min 255 (Math_round g)),
   Z.max 0 (Z.min 255 (Math_round b))).

(** [for (i = 0; i < data.length; i += 4)]: four samples at a time; a
    pixel with alpha 0 is skipped, and [data[i + 3]] is never written.  A
    raster holds whole pixels, so the last case is met only at the end of
    the data. *)
Fixpoint filterSamples (adj : CanvasAdjustments) (data : list Z) : list Z :=
  match data with
  | r :: g :: b :: a :: rest =>
      if (a =? 0)%Z then r :: g :: b :: a :: filterSamples adj rest
      else
        let '(r', g', b') := filterPixel adj r g b in
        r' :: g' :: b' :: a :: filterSamples adj rest
  | _ => data
  end.

(** What reading a property of [undefined] throws. *)
Definition TypeError : string :=
  "TypeError: Cannot read properties of undefined (reading 'temperature')".

(** The same loop when [adj] is [undefined]: a pixel with alpha 0 is
    skipped as before, and at the first other pixel reading
    [adj.temperature] throws. *)
Fixpoint filterSamplesUndefined (data : list Z) : outcome (list Z) :=
  match data with
  | r :: g :: b :: a :: rest =>
      if (a =? 0)%Z then
        match filterSamplesUndefined rest with
        | Returned rest' => Returned (r :: g :: b :: a :: rest')
        | Thrown e => Thrown e
        end
      else Thrown TypeError
  | _ => Returned data
  end.

(** [applyCanvasFilter(ctx, width, height, filterName)]: the context is
    taken as the raster it holds over [0, 0, width, height], which
    [getImageData] copies and [putImageData] writes back.  The result is what
    the call returns or throws and the raster the context holds afterwards:
    when the loop throws, [putImageData] is not reached and the context keeps
    its raster. *)
Definition applyCanvasFilter (ctx : ImageData) (filterName : string)
  : outcome unit * ImageData :=
  let filter := getFilter filterName in
  let adj := canvasAdjustmentsOf filter in
  if String.eqb filterName "none" then (Returned tt, ctx)
  else
    let loop :=
      match adj with
      | Some adj => Returned (filterSamples adj (data ctx))
      | None => filterSamplesUndefined (data ctx)
      end in
    match loop with
    | Returned data' =>
        (Returned tt, {| width := width ctx; height := height ctx; data := data' |})
    | Thrown e => (Thrown e, ctx)
    end.

End Filters.

(* ------------------------------------------------------------------ *)
(** * The batch drivers

    [cache-gen/generate_image_cache.ts] ([SingleGridGenerator]) and the
    video driver ([VideoGenerator]) walk over the entities, call each
    entity's generator and the grid renderer, and move files.  The
    generators, [generateGrid], [generateGridVideo], the file system and
    [path.join] are not part of these files: they are the fields of an
    environment [Env], each a function of the state of the world that may
    return or throw.  An [await] is the call itself, [console.log] and
    [console.error] append a line to the console. *)
(* ------------------------------------------------------------------ *)

From Stdlib Require DecimalString.

Module Batch.

Import Js.
Open Scope string_scope.

Definition Buffer : Type := string.

Record GeneratorResult : Type := {
  videoPath : option string;
  imagePath : option string;
  imageBuffer : option Buffer;
  trunkStartPosition : option (Q * Q)
}.

Record Config : Type := {
  photoOnly : bool;
  width : Z;
  height : Z;
  fps : Z;
  durationSeconds : Z;
  seed : string;
  filename : string;
  imageFilename : string;
  padding : Z;
  save_as_file : bool
}.

Record TreeConfig : Type := {
  tree_imagePath : string;
  tree_gridX : Z;
  tree_gridY : Z;
  tree_scale : Q
}.

Record GridRequest : Type := {
  trees : list TreeConfig;
  outputFilename : string
}.

(** A line of the console: [console.log(text)], [console.error(text)] or
    [console.error(text, error)]. *)
Inductive Line : Type :=
| logged (text : string)
| errored (text : string)
| erroredWith (text : string) (error : string).

(** The collaborators.  A thrown value is its message. *)
Record Env (World : Type) : Type := {
  dirname : string;
  join : list string -> string;
  existsSync : string -> World -> bool;
  mkdir : string -> World -> outcome unit * World;
  unlink : string -> World -> outcome unit * World;
  writeFile : string -> Buffer -> World -> outcome unit * World;
  copyFile : string -> string -> World -> outcome unit * World;
  generate : string -> Config -> World -> outcome GeneratorResult * World;
  generateGrid : GridRequest -> World -> outcome unit * World;
  generateGridVideo : string -> string -> string -> Q -> World -> outcome unit * World
}.

Arguments dirname {World} e.
Arguments join {World} e parts.
Arguments existsSync {World} e path w.
Arguments mkdir {World} e path w.
Arguments unlink {World} e path w.
Arguments writeFile {World} e path content w.
Arguments copyFile {World} e source target w.
Arguments generate {World} e entityName config w.
Arguments generateGrid {World} e request w.
Arguments generateGridVideo {World} e treePng video output scale w.

(** The keys of the map [entities], in the order they were put in. *)
Definition entityNames : list string :=
  [ "tree"; "sunflower"; "sakura"; "cedar"; "lavender"; "pink_balls_tree"; "maple";
    "weeping_willow" ].

(** [entities.has(name)] *)
Definition isEntity (entityName : string) : bool :=
  existsb (String.eqb entityName) entityNames.

(** The characters a string literal here cannot hold. *)
Definition newline : string := String (Ascii.ascii_of_nat 10) EmptyString.
Definition quote : string := String (Ascii.ascii_of_nat 34) EmptyString.

(** [`${n}`] for a count. *)
Definition decimal (n : nat) : string := DecimalString.NilEmpty.string_of_uint (Nat.to_uint n).

(** A string that is present and not empty: what [if (s)] tests. *)
Definition truthy (s : option string) : option string :=
  match s with
  | Some EmptyString => None
  | Some text => Some text
  | None => None
  end.

Definition SEED : string := "6969696969696969".
Definition TREE_SCALE : Q := 0.8.

Section Run.

Variable World : Type.
Variable env : Env World.

Record State : Type := { world : World; console : list Line }.

(** A computation: from a state to what it returns or throws, and the
    state it leaves. *)
Definition M (A : Type) : Type := State -> outcome A * State.

Definition ret {A : Type} (a : A) : M A := fun s => (Returned a, s).

Definition bind {A B : Type} (c : M A) (k : A -> M B) : M B :=
  fun s =>
    match c s with
    | (Returned a, s') => k a s'
    | (Thrown e, s') => (Thrown e, s')
    end.

(** [try { c } catch (error) { handler(error) }] *)
Definition tryCatch {A : Type} (c : M A) (handler : string -> M A) : M A :=
  fun s =>
    match c s with
    | (Returned a, s') => (Returned a, s')
    | (Thrown e, s') => handler e s'
    end.

Definition say (line : Line) : M unit :=
  fun s => (Returned tt, {| world := world s; console := console s ++ [line] |}).

(** A call of a collaborator that may change the world. *)
Definition call {A : Type} (f : World -> outcome A * World) : M A :=
  fun s =>
    let '(result, w) := f (world s) in
    (result, {| world := w; console := console s |}).

(** A call of a collaborator that only looks at the world. *)
Definition ask {A : Type} (f : World -> A) : M A :=
  fun s => (Returned (f (world s)), s).

(** [for (const a of l) { body }] *)
Fixpoint forEach {A : Type} (l : list A) (body : A -> M unit) : M unit :=
  match l with
  | [] => ret tt
  | a :: rest => bind (body a) (fun _ => forEach rest body)
  end.

End Run.

Arguments ret {World A} a s.
Arguments bind {World A B} c k s.
Arguments tryCatch {World A} c handler s.
Arguments say {World} line s.
Arguments call {World A} f s.
Arguments ask {World A} f s.
Arguments forEach {World A} l body s.
Arguments world {World} s.
Arguments console {World} s.

Declare Scope batch_scope.
Delimit Scope batch_scope with batch.
Notation "x <- c ;; k" := (bind c (fun x => k))
  (at level 61, c at next level, right associativity) : batch_scope.
Notation "c ;; k" := (bind c (fun _ => k))
  (at level 61, right associativity) : batch_scope.

End Batch.

(** ** VideoGenerator *)

Module VideoGenerator.

Import Js Batch.
Open Scope string_scope.
Open Scope batch_scope.

(** [this] *)
Record VideoGenerator : Type := { this_seed : string; this_outputDir : string }.

Section Methods.

Variable World : Type.
Variable env : Env World.

Definition OUTPUT_DIR : string := join env [dirname env; ".."; "cache"; "video"].
Definition IMAGES_DIR : string := join env [dirname env; ".."; "cache"; "images"].

Definition ensureOutputDir (this : VideoGenerator) : M World unit :=
  present <- ask (existsSync env (this_outputDir this)) ;;
  if negb present then
    call (mkdir env (this_outputDir this)) ;;
    say (logged ("✅ Created output directory: " ++ this_outputDir this))
  else ret tt.

Definition entityConfig (this : VideoGenerator) : Config :=
  {| photoOnly := false; width := 480; height := 480; fps := 25; durationSeconds := 30;
     seed := this_seed this; filename := "video.webm"; imageFilename := "image.png";
     padding := 80; save_as_file := true |}.

(** The body of the [try] block, the same in both methods. *)
Definition generateEntityVideo (this : VideoGenerator) (entityName : string) : M World unit :=
  result <- call (generate env entityName (entityConfig this)) ;;
  match truthy (videoPath result) with
  | Some video =>
      let treePngPath := join env [IMAGES_DIR; entityName ++ ".png"] in
      let gridOutputPath := join env [this_outputDir this; entityName ++ ".webm"] in
      say (logged "  🎬 Generating grid video...") ;;
      call (generateGridVideo env treePngPath video gridOutputPath TREE_SCALE) ;;
      say (logged ("  ✓ Saved grid video: " ++ gridOutputPath)) ;;
      present <- ask (existsSync env video) ;;
      if present then
        call (unlink env video) ;;
        say (logged ("  🗑️ Deleted temp video: " ++ video))
      else ret tt
  | None => say (errored ("  ✗ No video generated for " ++ entityName))
  end.

Definition reportError (entityName : string) (error : string) : M World unit :=
  say (erroredWith ("  ✗ Error generating " ++ entityName ++ ":") error).

Definition generateAll (this : VideoGenerator) : M World unit :=
  say (logged (newline ++ "🎬 Video Generator")) ;;
  say (logged ("   Seed: " ++ this_seed this)) ;;
  say (logged ("   Output: " ++ this_outputDir this ++ newline)) ;;
  ensureOutputDir this ;;
  say (logged ("📦 Generating videos for " ++ decimal (List.length entityNames)
               ++ " entities..." ++ newline)) ;;
  forEach entityNames
    (fun entityName =>
       say (logged ("🔄 Processing: " ++ entityName)) ;;
       tryCatch (generateEntityVideo this entityName) (reportError entityName)) ;;
  say (logged (newline ++ "✅ Video generation complete!")) ;;
  say (logged ("   Output directory: " ++ this_outputDir this ++ newline)).

Definition generateForEntity (this : VideoGenerator) (entityName : string) : M World unit :=
  say (logged (newline ++ "🎬 Video Generator - " ++ entityName)) ;;
  say (logged ("   Seed: " ++ this_seed this ++ newline)) ;;
  ensureOutputDir this ;;
  if negb (isEntity entityName) then
    say (errored ("Entity " ++ quote ++ entityName ++ quote
                  ++ " not found. Available entities:")) ;;
    forEach entityNames (fun name => say (logged ("  - " ++ name)))
  else
    say (logged ("🔄 Processing: " ++ entityName)) ;;
    tryCatch (generateEntityVideo this entityName) (reportError entityName) ;;
    say (logged (newline ++ "✅ Done!")).

(** [main().catch(console.error)], [entityArg] being [process.argv[2]]. *)
Definition main (entityArg : option string) : M World unit :=
  tryCatch
    (let generator := {| this_seed := SEED; this_outputDir := OUTPUT_DIR |} in
     match truthy entityArg with
     | Some entityName => generateForEntity generator entityName
     | None => generateAll generator
     end)
    (fun error => say (errored error)).

End Methods.

End VideoGenerator.

(** ** SingleGridGenerator *)

Module SingleGridGenerator.

Import Js Batch.
Open Scope string_scope.
Open Scope batch_scope.

(** [this] *)
Record SingleGridGenerator : Type := { this_seed : string; this_outputDir : string }.

Section Methods.

Variable World : Type.
Variable env : Env World.

Definition OUTPUT_DIR : string := join env [dirname env; ".."; "cache"; "images"].

Definition ensureOutputDir (this : SingleGridGenerator) : M World unit :=
  present <- ask (existsSync env (this_outputDir this)) ;;
  if negb present then
    call (mkdir env (this_outputDir this)) ;;
    say (logged ("✅ Created output directory: " ++ this_outputDir this))
  else ret tt.

Definition generateSingleGrid (this : SingleGridGenerator) (entityName imagePath : string)
  : M World unit :=
  let outputPath := join env [this_outputDir this; entityName ++ "_grid.png"] in
  let treeConfig :=
    {| tree_imagePath := imagePath; tree_gridX := 0; tree_gridY := 0; tree_scale := 0.8 |} in
  call (generateGrid env {| trees := [treeConfig]; outputFilename := outputPath |}) ;;
  say (logged ("  ✓ Saved: " ++ outputPath)).

Definition entityConfig (this : SingleGridGenerator) : Config :=
  {| photoOnly := true; width := 480; height := 480; fps := 25; durationSeconds := 30;
     seed := this_seed this; filename := "video.webm"; imageFilename := "image.png";
     padding := 80; save_as_file := true |}.

Definition samplePathOf (entityName : string) : string :=
  join env [dirname env; ".."; "samples"; entityName ++ ".png"].

(** The last branch of both [try] blocks: no image path and no buffer. *)
Definition useSample (this : SingleGridGenerator) (entityName : string) : M World unit :=
  let samplePath := samplePathOf entityName in
  present <- ask (existsSync env samplePath) ;;
  if present then
    say (logged ("  ℹ Using existing sample: " ++ samplePath)) ;;
    generateSingleGrid this entityName samplePath
  else say (errored ("  ✗ No image available for " ++ entityName)).

(** The [try] block of [generateAll]. *)
Definition gridForEntityOfBatch (this : SingleGridGenerator) (entityName : string)
  : M World unit :=
  result <- call (generate env entityName (entityConfig this)) ;;
  match truthy (imagePath result) with
  | Some image =>
      call (copyFile env image (join env [this_outputDir this; entityName ++ ".png"])) ;;
      generateSingleGrid this entityName image
  | None =>
      match imageBuffer result with
      | Some buffer =>
          let tempPath := join env [this_outputDir this; entityName ++ ".png"] in
          call (writeFile env tempPath buffer) ;;
          generateSingleGrid this entityName tempPath
      | None => useSample this entityName
      end
  end.

(** The [catch] block of [generateAll]. *)
Definition fallBackToSample (this : SingleGridGenerator) (entityName : string)
           (error : string) : M World unit :=
  say (erroredWith ("  ✗ Error generating " ++ entityName ++ ":") error) ;;
  let samplePath := samplePathOf entityName in
  present <- ask (existsSync env samplePath) ;;
  if present then
    say (logged ("  ℹ Falling back to existing sample: " ++ samplePath)) ;;
    generateSingleGrid this entityName samplePath
  else ret tt.

Definition generateAll (this : SingleGridGenerator) : M World unit :=
  say (logged (newline ++ "🌳 Single Grid Generator")) ;;
  say (logged ("   Seed: " ++ this_seed this)) ;;
  say (logged ("   Output: " ++ this_outputDir this ++ newline)) ;;
  ensureOutputDir this ;;
  say (logged ("📦 Generating grids for " ++ decimal (List.length entityNames)
               ++ " entities..." ++ newline)) ;;
  forEach entityNames
    (fun entityName =>
       say (logged ("🔄 Processing: " ++ entityName)) ;;
       tryCatch (gridForEntityOfBatch this entityName) (fallBackToSample this entityName)) ;;
  say (logged (newline ++ "✅ Single grid generation complete!")) ;;
  say (logged ("   Output directory: " ++ this_outputDir this ++ newline)).

(** The [try] block of [generateForEntity]: as in [generateAll], without
    the copy of the image. *)
Definition gridForEntity (this : SingleGridGenerator) (entityName : string)
  : M World unit :=
  result <- call (generate env entityName (entityConfig this)) ;;
  match truthy (imagePath result) with
  | Some image => generateSingleGrid this entityName image
  | None =>
      match imageBuffer result with
      | Some buffer =>
          let tempPath := join env [this_outputDir this; entityName ++ ".png"] in
          call (writeFile env tempPath buffer) ;;
          generateSingleGrid this entityName tempPath
      | None => useSample this entityName
      end
  end.

Definition reportError (entityName : string) (error : string) : M World unit :=
  say (erroredWith ("  ✗ Error generating " ++ entityName ++ ":") error).

Definition generateForEntity (this : SingleGridGenerator) (entityName : string)
  : M World unit :=
  say (logged (newline ++ "🌳 Single Grid Generator - " ++ entityName)) ;;
  say (logged ("   Seed: " ++ this_seed this ++ newline)) ;;
  ensureOutputDir this ;;
  if negb (isEntity entityName) then
    say (errored ("Entity " ++ quote ++ entityName ++ quote
                  ++ " not found. Available entities:")) ;;
    forEach entityNames (fun name => say (logged ("  - " ++ name)))
  else
    say (logged ("🔄 Processing: " ++ entityName)) ;;
    tryCatch (gridForEntity this entityName) (reportError entityName) ;;
    say (logged (newline ++ "✅ Done!")).

(** [main().catch(console.error)], [entityArg] being [process.argv[2]]. *)
Definition main (entityArg : option string) : M World unit :=
  tryCatch
    (let generator := {| this_seed := SEED; this_outputDir := OUTPUT_DIR |} in
     match truthy entityArg with
     | Some entityName => generateForEntity generator entityName
     | None => generateAll generator
     end)
    (fun error => say (errored error)).

End Methods.

End SingleGridGenerator.

(* ------------------------------------------------------------------ *)
(** * Properties *)
(* ------------------------------------------------------------------ *)

Unset Implicit Arguments.

(** ** Sorting by an integer key *)

Section SortByKey.

Variable A : Type.
Variable key : A -> Z.

Let byKey (a b : A) : Z := (key a - key b)%Z.

Definition keyLe (a b : A) : Prop := (key a <= key b)%Z.

Definition hasKey (k : Z) (a : A) : bool := (key a =? k)%Z.

Lemma insertSorted_perm (x : A) (l : list A) :
  Permutation (x :: l) (Js.insertSorted byKey x l).
Proof.
  induction l as [| y l IH]; simpl.
  - apply Permutation_refl.
  - destruct (byKey x y <=? 0)%Z.
    + apply Permutation_refl.
    + eapply perm_trans; [apply perm_swap |].
      apply perm_skip, IH.
Qed.

Lemma Array_sort_perm (l : list A) : Permutation l (Js.Array_sort byKey l).
Proof.
  induction l as [| x l IH]; simpl.
  - constructor.
  - eapply perm_trans; [apply perm_skip, IH |].
    apply insertSorted_perm.
Qed.

Lemma insertSorted_sorted (x : A) (l : list A) :
  StronglySorted keyLe l -> StronglySorted keyLe (Js.insertSorted byKey x l).
Proof.
  induction 1 as [| y l Hl IH Hy]; simpl.
  - repeat constructor.
  - destruct (Z.leb_spec (byKey x y) 0) as [Hle | Hgt]; unfold byKey in *.
    + constructor.
      * constructor; assumption.
      * constructor; [unfold keyLe; lia |].
        eapply Forall_impl; [| exact Hy].
        unfold keyLe; intros; lia.
    + constructor; [exact IH |].
      eapply Permutation_Forall; [apply insertSorted_perm |].
      constructor; [unfold keyLe; lia | exact Hy].
Qed.

Lemma Array_sort_sorted (l : list A) : StronglySorted keyLe (Js.Array_sort byKey l).
Proof.
  induction l as [| x l IH]; simpl.
  - constructor.
  - apply insertSorted_sorted, IH.
Qed.

Lemma insertSorted_filter (k : Z) (x : A) (l : list A) :
  filter (hasKey k) (Js.insertSorted byKey x l) = filter (hasKey k) (x :: l).
Proof.
  induction l as [| y l IH]; [reflexivity |].
  cbn [Js.insertSorted].
  destruct (Z.leb_spec (byKey x y) 0) as [Hle | Hgt]; [reflexivity |].
  unfold byKey in Hgt.
  cbn [filter] in *. rewrite IH.
  unfold hasKey.
  destruct (Z.eqb_spec (key y) k), (Z.eqb_spec (key x) k); try reflexivity; lia.
Qed.

Lemma Array_sort_filter (k : Z) (l : list A) :
  filter (hasKey k) (Js.Array_sort byKey l) = filter (hasKey k) l.
Proof.
  induction l as [| x l IH]; [reflexivity |].
  cbn [Js.Array_sort fold_right].
  rewrite insertSorted_filter.
  cbn [filter]. fold (Js.Array_sort byKey l). rewrite IH. reflexivity.
Qed.

Lemma filter_hasKey_head (k : Z) (a : A) (l : list A) :
  key a = k -> filter (hasKey k) (a :: l) = a :: filter (hasKey k) l.
Proof.
  intros E. cbn [filter]. unfold hasKey at 1.
  apply Z.eqb_eq in E. rewrite E. reflexivity.
Qed.

Lemma filter_hasKey_skip (k : Z) (a : A) (l : list A) :
  key a <> k -> filter (hasKey k) (a :: l) = filter (hasKey k) l.
Proof.
  intros E. cbn [filter]. unfold hasKey at 1.
  apply Z.eqb_neq in E. rewrite E. reflexivity.
Qed.

Lemma head_in_filter (a b : A) (l1 l2 : list A) :
  key a <> key b ->
  filter (hasKey (key a)) (a :: l1) = filter (hasKey (key a)) (b :: l2) ->
  In a l2.
Proof.
  intros Hne H.
  rewrite filter_hasKey_head in H by reflexivity.
  rewrite filter_hasKey_skip in H by congruence.
  assert (Hin : In a (filter (hasKey (key a)) l2)) by (rewrite <- H; left; reflexivity).
  apply filter_In in Hin. tauto.
Qed.

(** Two arrangements in key order that keep the same elements of every key
    in the same order are the same list. *)
Lemma sorted_stable_unique (l1 : list A) :
  forall l2 : list A,
    StronglySorted keyLe l1 ->
    StronglySorted keyLe l2 ->
    (forall k, filter (hasKey k) l1 = filter (hasKey k) l2) ->
    l1 = l2.
Proof.
  induction l1 as [| a l1 IH]; intros [| b l2] S1 S2 H.
  - reflexivity.
  - specialize (H (key b)). rewrite filter_hasKey_head in H by reflexivity. discriminate.
  - specialize (H (key a)). rewrite filter_hasKey_head in H by reflexivity. discriminate.
  - inversion S1 as [| ? ? S1' F1]; inversion S2 as [| ? ? S2' F2]; subst.
    assert (Hk : key a = key b).
    { destruct (Z.eq_dec (key a) (key b)) as [E | Hne]; [exact E |].
      pose proof (@head_in_filter a b l1 l2 Hne (H (key a))) as Ha.
      assert (Hne' : key b <> key a) by congruence.
      pose proof (@head_in_filter b a l2 l1 Hne' (eq_sym (H (key b)))) as Hb.
      rewrite Forall_forall in F1, F2.
      pose proof (F1 _ Hb) as L1. pose proof (F2 _ Ha) as L2.
      unfold keyLe in *. lia. }
    pose proof (H (key a)) as Hhead.
    rewrite filter_hasKey_head in Hhead by reflexivity.
    rewrite filter_hasKey_head in Hhead by (symmetry; exact Hk).
    injection Hhead as Hab _. subst b.
    f_equal. apply IH; try assumption.
    intros k. specialize (H k).
    destruct (Z.eq_dec (key a) k) as [E | Hne].
    + rewrite !filter_hasKey_head in H by exact E. injection H as H. exact H.
    + rewrite !filter_hasKey_skip in H by exact Hne. exact H.
Qed.

(** Whatever stable sort the engine runs, its result is [Array_sort]'s. *)
Lemma Array_sort_unique (l sorted : list A) :
  StronglySorted keyLe sorted ->
  (forall k, filter (hasKey k) sorted = filter (hasKey k) l) ->
  sorted = Js.Array_sort byKey l.
Proof.
  intros S H.
  apply sorted_stable_unique; [exact S | apply Array_sort_sorted |].
  intros k. rewrite Array_sort_filter. apply H.
Qed.

End SortByKey.

Lemma insertSorted_ext (A : Type) (cmp cmp' : A -> A -> Z) :
  (forall a b, cmp a b = cmp' a b) ->
  forall x l, Js.insertSorted cmp x l = Js.insertSorted cmp' x l.
Proof.
  intros E x l. induction l as [| y l IH]; simpl; [reflexivity |].
  rewrite E, IH. reflexivity.
Qed.

Lemma Array_sort_ext (A : Type) (cmp cmp' : A -> A -> Z) :
  (forall a b, cmp a b = cmp' a b) ->
  forall l, Js.Array_sort cmp l = Js.Array_sort cmp' l.
Proof.
  intros E l. induction l as [| x l IH]; simpl; [reflexivity |].
  rewrite IH. apply insertSorted_ext, E.
Qed.

(** ** Grid geometry and paint order *)

Section GridGeometry.

Import Js Grid.
Open Scope Q_scope.

(** The sum the paint order is stated in. *)
Definition gridSum (p : GridPosition) : Z := (gridX p + gridY p)%Z.

Lemma sortPositionsForRendering_by_gridSum (positions : list GridPosition) :
  sortPositionsForRendering positions
  = Array_sort (fun a b => (gridSum a - gridSum b)%Z) positions.
Proof.
  unfold sortPositionsForRendering. apply Array_sort_ext.
  intros a b. unfold comparePositions, paintKey, gridSum. lia.
Qed.

(** C2.  [sortPositionsForRendering] returns a permutation of its input in
    which [gridX + gridY] never decreases, and for every value of that sum
    the positions having it come out in the order they came in. *)
Theorem sortPositionsForRendering_stable (positions : list GridPosition) :
  Permutation positions (sortPositionsForRendering positions)
  /\ StronglySorted (fun a b => (gridX a + gridY a <= gridX b + gridY b)%Z)
                    (sortPositionsForRendering positions)
  /\ (forall k : Z,
        filter (fun p => (gridX p + gridY p =? k)%Z) (sortPositionsForRendering positions)
        = filter (fun p => (gridX p + gridY p =? k)%Z) positions).
Proof.
  rewrite sortPositionsForRendering_by_gridSum.
  split; [| split].
  - apply (Array_sort_perm _ gridSum).
  - apply (Array_sort_sorted _ gridSum).
  - intros k. apply (Array_sort_filter _ gridSum k).
Qed.

(** With [GRID_CONFIG] as written, the two extents that
    [calculateCanvasDimensions] compares for a grid of size 3. *)
Lemma configured_extents :
  (3 * 2) * (tileWidth GRID_CONFIG / 2) + 100 * inject_Z SCALE == 1600
  /\ 3 * (tileWidth GRID_CONFIG / 2)
     + (soilHeight GRID_CONFIG + grassHeight GRID_CONFIG) * 2 + 200 * inject_Z SCALE == 1840.
Proof. repeat split; reflexivity. Qed.

(** C8.  [GRID_CONFIG] has a tile 400 wide, grass 60 high and soil 160
    high.  With it a grid of size 3 gets a canvas of 1840 by 1840, and a grid
    of size 1 on a canvas 1840 wide has its one tile at grid (0, 0), pixel
    (920, 700). *)
Theorem concrete_scenario :
  tileWidth GRID_CONFIG == 400
  /\ grassHeight GRID_CONFIG == 60
  /\ soilHeight GRID_CONFIG == 160
  /\ Grid.width (calculateCanvasDimensions GRID_CONFIG 3) == 1840
  /\ Grid.height (calculateCanvasDimensions GRID_CONFIG 3) == 1840
  /\ generateGridPositions GRID_CONFIG 1 1840
     = [ {| gridX := 0; gridY := 0; pixelX := 920; pixelY := 700 |} ].
Proof.
  repeat split; vm_compute; reflexivity.
Qed.

(** A call rejects its input when it throws. *)
Definition rejects {A : Type} (o : outcome A) : Prop :=
  exists message : string, o = Thrown message.

Lemma Returned_not_rejects (A : Type) (a : A) : ~ rejects (Returned a).
Proof. intros [message H]. discriminate H. Qed.

(** A tile with no width. *)
Definition flatTile : GridConfig := {|
  tileWidth := 0;
  grassHeight := 15 * inject_Z SCALE;
  soilHeight := 40 * inject_Z SCALE;
  gridSize := 0;
  canvasWidth := 0;
  canvasHeight := 0
|}.

(** Grid size 0, grid size -2 and a tile of width 0 are all computed with:
    the canvas of an empty grid is 1240 by 1240 and it has no position, the
    canvas of a grid of size -2 is 840 by 840; with a flat tile every position of a 2 by 2 grid sits at the same pixel. *)
Lemma geometry_accepts_bad_configuration :
  (~ rejects (call_calculateCanvasDimensions GRID_CONFIG 0)
   /\ ~ rejects (call_generateGridPositions GRID_CONFIG 0 1240)
   /\ ~ rejects (call_calculateCanvasDimensions GRID_CONFIG (-2))
   /\ ~ rejects (call_calculateCanvasDimensions flatTile 2)
   /\ ~ rejects (call_generateGridPositions flatTile 2 1240))
  /\ Grid.width (calculateCanvasDimensions GRID_CONFIG 0) == 1240
  /\ generateGridPositions GRID_CONFIG 0 1240 = []
  /\ Grid.width (calculateCanvasDimensions GRID_CONFIG (-2)) == 840
  /\ Grid.width (calculateCanvasDimensions flatTile 2) == 1240
  /\ map (fun p => (pixelX p, pixelY p)) (generateGridPositions flatTile 2 1240)
     = [ (620, 600); (620, 600); (620, 600); (620, 600) ]%Z.
Proof.
  split.
  - repeat split; apply Returned_not_rejects.
  - repeat split; vm_compute; reflexivity.
Qed.

Lemma length_flat_map_const (A B : Type) (f : A -> list B) (n : nat) (l : list A) :
  (forall a, List.length (f a) = n) -> List.length (flat_map f l) = (List.length l * n)%nat.
Proof.
  intros H. induction l as [| a l IH]; simpl; [reflexivity |].
  rewrite length_app, H, IH. reflexivity.
Qed.

Lemma generateGridPositions_length (cfg : GridConfig) (gridSize : Z) (canvasWidth : Q) :
  List.length (generateGridPositions cfg gridSize canvasWidth)
  = (Z.to_nat gridSize * Z.to_nat gridSize)%nat.
Proof.
  unfold generateGridPositions.
  rewrite length_flat_map_const with (n := Z.to_nat gridSize).
  - rewrite length_seq. reflexivity.
  - intros y. rewrite length_map, length_seq. reflexivity.
Qed.

(** C5, as the code has it.  Neither operation validates anything: for
    every configuration and every grid size, positive or not, the canvas is
    the square whose side is the larger of the two extents, and the
    positions number [gridSize * gridSize], none at all for a grid size of
    zero or less. *)
Theorem geometry_never_rejects (cfg : GridConfig) (gridSize : Z) (canvasWidth : Q) :
  (exists d : Dimensions,
      call_calculateCanvasDimensions cfg gridSize = Returned d
      /\ Grid.height d = Grid.width d
      /\ Grid.width d
         == Qmax (inject_Z gridSize * tileWidth cfg + 400)
                 (inject_Z gridSize * tileWidth cfg / 2
                  + 2 * (soilHeight cfg + grassHeight cfg) + 800))
  /\ (exists positions : list GridPosition,
        call_generateGridPositions cfg gridSize canvasWidth = Returned positions
        /\ List.length positions = (Z.to_nat gridSize * Z.to_nat gridSize)%nat
        /\ ((gridSize <= 0)%Z -> positions = [])).
Proof.
  split.
  - eexists. split; [reflexivity |]. split; [reflexivity |].
    cbn [calculateCanvasDimensions Grid.width]. unfold Math_max.
    apply Q.max_compat; unfold SCALE; field.
  - eexists. split; [reflexivity |]. split.
    + apply generateGridPositions_length.
    + intros Hle. unfold generateGridPositions.
      replace (Z.to_nat gridSize) with 0%nat by lia. reflexivity.
Qed.

End GridGeometry.

(** ** The seam between grass and soil

    The corners of a face are sums of the pixel centre, halves and quarters
    of the tile width, and the grass and soil heights.  The soil face reaches
    a seam corner as [(topPointY + grassHeight) + h] and the grass face as
    [(topPointY + h) + grassHeight]: equal on the reals for every tile, and
    in double precision whenever the summands are integers well below 2^53,
    as they are for the rounded pixel centres and the configured tile. *)

Section Seam.

Import Grid GridDraw.
Open Scope R_scope.

Lemma generateWavyEdge_length (startX startY endX endY amplitude frequency : R) (segments : nat) :
  List.length (generateWavyEdge startX startY endX endY amplitude frequency segments)
  = S segments.
Proof.
  unfold generateWavyEdge. rewrite length_map, length_seq. reflexivity.
Qed.

Lemma drawPoly_appends (ctx : Context2D) (points : list Point)
      (color : string) (strokeColor : option string) :
  exists tail : list Command, drawPoly ctx points color strokeColor = ctx ++ tail.
Proof.
  destruct points as [| p0 rest]; simpl.
  - exists []. symmetry. apply app_nil_r.
  - eexists. reflexivity.
Qed.

Lemma drawShadow_appends (cfg : GridConfig) (ctx : Context2D)
      (centerX centerY : R) (contentWidth : option R) :
  exists tail : list Command, drawShadow cfg ctx centerX centerY contentWidth = ctx ++ tail.
Proof. unfold drawShadow. eexists. reflexivity. Qed.

Lemma drawDecoration_appends (ctx : Context2D) (pos : GridPosition) :
  exists tail : list Command, drawDecoration ctx pos = ctx ++ tail.
Proof.
  unfold drawDecoration, drawTuft.
  destruct (Rlt_dec _ _).
  - eexists. reflexivity.
  - exists []. symmetry. apply app_nil_r.
Qed.

(** The top face, the shadow and the tuft come after the four side
    faces. *)
Lemma finish_appends (cfg : GridConfig) (pos : GridPosition) (faces : Context2D)
      (topVerts : list Point) (color : string) (strokeColor : option string)
      (x y : R) (shadowWidth : option R) (hasShadow drawTufts : bool) :
  exists tail : list Command,
    (if drawTufts && negb hasShadow
     then drawDecoration
            (if hasShadow
             then drawShadow cfg (drawPoly faces topVerts color strokeColor) x y shadowWidth
             else drawPoly faces topVerts color strokeColor) pos
     else
       if hasShadow
       then drawShadow cfg (drawPoly faces topVerts color strokeColor) x y shadowWidth
       else drawPoly faces topVerts color strokeColor)
    = faces ++ tail.
Proof.
  destruct (drawPoly_appends faces topVerts color strokeColor) as [t1 ->].
  destruct (drawShadow_appends cfg (faces ++ t1) x y shadowWidth) as [t2 ->].
  destruct hasShadow, drawTufts; cbn [andb negb].
  - exists (t1 ++ t2). rewrite app_assoc. reflexivity.
  - exists (t1 ++ t2). rewrite app_assoc. reflexivity.
  - destruct (drawDecoration_appends (faces ++ t1) pos) as [t3 ->].
    exists (t1 ++ t3). rewrite app_assoc. reflexivity.
  - exists t1. reflexivity.
Qed.

Variable cfg : GridConfig.
Variable pos : GridPosition.

(** The three corners the two seams of a tile run between: the front
    corner and the right and left corners, all one grass height below the
    top face. *)
Definition seamFront : Point :=
  {| pt_x := IZR (pixelX pos);
     pt_y := IZR (pixelY pos) + Q2R (tileWidth cfg) / 4 + Q2R (grassHeight cfg) |}.

Definition seamRight : Point :=
  {| pt_x := IZR (pixelX pos) + Q2R (tileWidth cfg) / 2;
     pt_y := IZR (pixelY pos) + Q2R (grassHeight cfg) |}.

Definition seamLeft : Point :=
  {| pt_x := IZR (pixelX pos) - Q2R (tileWidth cfg) / 2;
     pt_y := IZR (pixelY pos) + Q2R (grassHeight cfg) |}.

(** A corner moved down by [d]. *)
Definition lowered (d : R) (p : Point) : Point :=
  {| pt_x := pt_x p; pt_y := pt_y p + d |}.

Definition rightSeam : list Point :=
  generateWavyEdge (pt_x seamFront) (pt_y seamFront) (pt_x seamRight) (pt_y seamRight)
                   (3 * IZR SCALE) 2 16.

Definition leftSeam : list Point :=
  generateWavyEdge (pt_x seamLeft) (pt_y seamLeft) (pt_x seamFront) (pt_y seamFront)
                   (3 * IZR SCALE) 2 16.

Lemma point_eq (x y x' y' : R) :
  x = x' -> y = y' -> {| pt_x := x; pt_y := y |} = {| pt_x := x'; pt_y := y' |}.
Proof. intros -> ->. reflexivity. Qed.

Lemma generateWavyEdge_eq (a b c d a' b' c' d' amplitude frequency : R) (segments : nat) :
  a = a' -> b = b' -> c = c' -> d = d' ->
  generateWavyEdge a b c d amplitude frequency segments
  = generateWavyEdge a' b' c' d' amplitude frequency segments.
Proof. intros -> -> -> ->. reflexivity. Qed.

(** C1.  What [drawIsoBlock] draws starts with the right soil face, the
    left soil face, the right grass face and the left grass face.  The top
    edge of each soil face and the bottom edge of the grass face above it
    are one and the same list of 17 points: [generateWavyEdge] between the
    same two corners, with amplitude [3 * SCALE], frequency 2 and 16
    segments.  The soil face runs through the list forwards and the grass
    face backwards. *)
Theorem seam_continuity (ctx : Context2D) (options : DrawIsoBlockOptions) :
  List.length rightSeam = 17%nat
  /\ List.length leftSeam = 17%nat
  /\ exists rest : list Command,
      drawIsoBlock cfg ctx pos options
      = ctx
          ++ wavySoilPath rightSeam
               (lowered (Q2R (soilHeight cfg)) seamRight)
               (lowered (Q2R (soilHeight cfg)) seamFront)
               COLORS.soil_sideDark None
          ++ wavySoilPath leftSeam
               (lowered (Q2R (soilHeight cfg)) seamFront)
               (lowered (Q2R (soilHeight cfg)) seamLeft)
               COLORS.soil_sideLight None
          ++ wavyGrassPath
               (lowered (- Q2R (grassHeight cfg)) seamFront)
               (lowered (- Q2R (grassHeight cfg)) seamRight)
               rightSeam COLORS.grass_sideDark None
          ++ wavyGrassPath
               (lowered (- Q2R (grassHeight cfg)) seamLeft)
               (lowered (- Q2R (grassHeight cfg)) seamFront)
               leftSeam COLORS.grass_sideLight None
          ++ rest.
Proof.
  split; [apply generateWavyEdge_length |].
  split; [apply generateWavyEdge_length |].
  unfold drawIsoBlock, drawWavySoilSide, drawWavyGrassSide.
  cbv zeta.
  match goal with
  | |- exists rest : list Command,
        (if ?dt && negb ?hs
         then drawDecoration (if ?hs then drawShadow _ (drawPoly ?faces ?tv ?c ?sc) ?x ?y ?sw
                              else _) _
         else _) = _ =>
      destruct (finish_appends cfg pos faces tv c sc x y sw hs dt) as [tail Htail]
  end.
  exists tail.
  etransitivity; [exact Htail |].
  rewrite <- !app_assoc.
  unfold rightSeam, leftSeam, WAVE_AMPLITUDE, WAVE_FREQUENCY, WAVE_SEGMENTS, lowered,
    seamFront, seamRight, seamLeft.
  cbn [pt_x pt_y].
  repeat (f_equal;
          try (apply generateWavyEdge_eq; lra);
          try (apply point_eq; lra)).
Qed.

End Seam.

(** ** The anchor detector *)

Section AnchorDetection.

Import Js Anchor.
Open Scope Q_scope.

Variable img : ImageData.

(** The mean darkness the code computes for a row with solid pixels. *)
Definition rowDarkness (y : nat) : Q :=
  totalDarkness (scanRow img y) / inject_Z (Z.of_nat (pixelCount (scanRow img y))).

(** The test under which the outer loop pushes a row. *)
Definition isCandidate (y : nat) : bool :=
  hasPixels (scanRow img y) && (0 <? pixelCount (scanRow img y))%nat.

Definition found (acc : RowScan) : Prop :=
  hasPixels acc = true /\ (0 < pixelCount acc)%nat.

Lemma scanPixel_clear (y : nat) (acc : RowScan) (x : nat) :
  (alphaAt img y x <= 245)%Z -> scanPixel img y acc x = acc.
Proof.
  intros H. unfold scanPixel.
  destruct (Z.ltb_spec 245 (alphaAt img y x)); [lia | reflexivity].
Qed.

Lemma fold_scanPixel_clear (y : nat) (xs : list nat) (acc : RowScan) :
  (forall x, In x xs -> (alphaAt img y x <= 245)%Z) ->
  fold_left (scanPixel img y) xs acc = acc.
Proof.
  revert acc. induction xs as [| x xs IH]; intros acc H; simpl; [reflexivity |].
  rewrite scanPixel_clear by (apply H; left; reflexivity).
  apply IH. intros x' Hx'. apply H. right. exact Hx'.
Qed.

Lemma scanRow_clear (y : nat) :
  (forall x, (x < width img)%nat -> (alphaAt img y x <= 245)%Z) ->
  scanRow img y = rowStart.
Proof.
  intros H. unfold scanRow. apply fold_scanPixel_clear.
  intros x Hx. apply in_seq in Hx. apply H. lia.
Qed.

Lemma scanPixel_found_keeps (y : nat) (acc : RowScan) (x : nat) :
  found acc -> found (scanPixel img y acc x).
Proof.
  intros [Hp Hc]. unfold scanPixel.
  destruct (245 <? alphaAt img y x)%Z; split; simpl; auto; lia.
Qed.

Lemma fold_scanPixel_found_keeps (y : nat) (xs : list nat) (acc : RowScan) :
  found acc -> found (fold_left (scanPixel img y) xs acc).
Proof.
  revert acc. induction xs as [| x xs IH]; intros acc H; simpl; [exact H |].
  apply IH, scanPixel_found_keeps, H.
Qed.

Lemma scanRow_solid (y x : nat) :
  (x < width img)%nat -> (245 < alphaAt img y x)%Z -> found (scanRow img y).
Proof.
  intros Hx Ha.
  assert (Hin : In x (seq 0 (width img))) by (apply in_seq; lia).
  apply in_split in Hin. destruct Hin as [l1 [l2 E]].
  unfold scanRow. rewrite E, fold_left_app. cbn [fold_left].
  apply fold_scanPixel_found_keeps.
  unfold scanPixel. apply Z.ltb_lt in Ha. rewrite Ha.
  split; simpl; [reflexivity | lia].
Qed.

Lemma isCandidate_clear (y : nat) :
  (forall x, (x < width img)%nat -> (alphaAt img y x <= 245)%Z) ->
  isCandidate y = false.
Proof.
  intros H. unfold isCandidate. rewrite scanRow_clear by exact H. reflexivity.
Qed.

Lemma isCandidate_solid (y x : nat) :
  (x < width img)%nat -> (245 < alphaAt img y x)%Z -> isCandidate y = true.
Proof.
  intros Hx Ha. destruct (scanRow_solid y x Hx Ha) as [Hp Hc].
  unfold isCandidate. rewrite Hp. apply Nat.ltb_lt in Hc. rewrite Hc. reflexivity.
Qed.

(** Rows that are not pushed leave the outer loop as it was. *)
Lemma scanRows_skip (ys1 ys2 : list nat) (cands : list Candidate) :
  (forall y, In y ys1 -> isCandidate y = false) ->
  scanRows img (ys1 ++ ys2) cands = scanRows img ys2 cands.
Proof.
  induction ys1 as [| y ys1 IH]; intros H; [reflexivity |].
  cbn [app scanRows].
  assert (Hy : isCandidate y = false) by (apply H; left; reflexivity).
  unfold isCandidate in Hy. rewrite Hy.
  apply IH. intros y' Hy'. apply H. right. exact Hy'.
Qed.

(** What the outer loop may add to the candidates: rows it visited and
    pushed, each with its mean darkness. *)
Definition pushedFrom (ys : list nat) (c : Candidate) : Prop :=
  In (row c) ys /\ isCandidate (row c) = true /\ darkness c = rowDarkness (row c).

Lemma scanRows_extends (ys : list nat) :
  forall cands : list Candidate,
  exists extra : list Candidate,
    scanRows img ys cands = cands ++ extra /\ Forall (pushedFrom ys) extra.
Proof.
  induction ys as [| y ys IH]; intros cands.
  - exists []. split; [symmetry; apply app_nil_r | constructor].
  - cbn [scanRows].
    destruct (hasPixels (scanRow img y) && (0 <? pixelCount (scanRow img y))%nat) eqn:Hc.
    + assert (Hy : pushedFrom (y :: ys) {| row := y; darkness := rowDarkness y |}).
      { split; [left; reflexivity | split; [exact Hc | reflexivity]]. }
      match goal with |- context [if ?t then _ else _] => destruct t end.
      * eexists. split; [reflexivity |]. constructor; [exact Hy | constructor].
      * destruct (IH (cands ++ [{| row := y; darkness := rowDarkness y |}]))
          as [extra [E F]].
        exists ({| row := y; darkness := rowDarkness y |} :: extra). split.
        -- unfold rowDarkness in E. rewrite E, <- app_assoc. reflexivity.
        -- constructor; [exact Hy |].
           eapply Forall_impl; [| exact F].
           intros c [Hin Hrest]. split; [right; exact Hin | exact Hrest].
    + destruct (IH cands) as [extra [E F]].
      exists extra. split; [exact E |].
      eapply Forall_impl; [| exact F].
      intros c [Hin Hrest]. split; [right; exact Hin | exact Hrest].
Qed.

(** With the first row pushed known, the candidates are that row and rows
    pushed from the rest. *)
Lemma scanRows_first (y : nat) (ys : list nat) :
  isCandidate y = true ->
  exists extra : list Candidate,
    scanRows img (y :: ys) [] = {| row := y; darkness := rowDarkness y |} :: extra
    /\ Forall (pushedFrom ys) extra.
Proof.
  intros Hc. cbn [scanRows]. unfold isCandidate in Hc. rewrite Hc. cbn [app].
  match goal with |- context [if ?t then _ else _] => destruct t end.
  - exists []. split; [reflexivity | constructor].
  - destruct (scanRows_extends ys [{| row := y; darkness := rowDarkness y |}])
      as [extra [E F]].
    exists extra. split; [| exact F].
    unfold rowDarkness in E. rewrite E. reflexivity.
Qed.

Lemma rowsFromBottom_split (r : nat) :
  (r < height img)%nat ->
  rowsFromBottom img
  = rev (seq (S r) (height img - S r)) ++ r :: rev (seq 0 r).
Proof.
  intros H. unfold rowsFromBottom.
  replace (height img) with (r + S (height img - S r))%nat at 1 by lia.
  rewrite seq_app. change (0 + r)%nat with r. cbn [seq].
  rewrite rev_app_distr. cbn [rev]. rewrite <- app_assoc. reflexivity.
Qed.

Lemma darkestOf_first (first : Candidate) (cands : list Candidate) :
  Forall (fun c => darkness c <= darkness first) cands ->
  darkestOf first cands = first.
Proof.
  unfold darkestOf. induction 1 as [| c cands Hc _ IH]; [reflexivity |].
  cbn [fold_left]. unfold gt.
  apply Qle_bool_iff in Hc. rewrite Hc. exact IH.
Qed.

Lemma widen_clear (y : nat) (lr : Z * Z) (x : nat) :
  (alphaAt img y x <= 245)%Z -> widen img y lr x = lr.
Proof.
  intros H. unfold widen. destruct lr as [l r].
  destruct (Z.ltb_spec 245 (alphaAt img y x)); [lia | reflexivity].
Qed.

Lemma fold_widen_clear (y : nat) (xs : list nat) (lr : Z * Z) :
  (forall x, In x xs -> (alphaAt img y x <= 245)%Z) ->
  fold_left (widen img y) xs lr = lr.
Proof.
  revert lr. induction xs as [| x xs IH]; intros lr H; simpl; [reflexivity |].
  rewrite widen_clear by (apply H; left; reflexivity).
  apply IH. intros x' Hx'. apply H. right. exact Hx'.
Qed.

(** Over a run of solid pixels from column [a] to column [a + n]. *)
Lemma fold_widen_solid (y : nat) (n : nat) :
  forall (a : nat) (l r : Z),
    (forall x, (a <= x <= a + n)%nat -> (245 < alphaAt img y x)%Z) ->
    (r < Z.of_nat a)%Z ->
    fold_left (widen img y) (seq a (S n)) (l, r)
    = (Z.min l (Z.of_nat a), Z.of_nat (a + n)).
Proof.
  induction n as [| n IH]; intros a l r Hs Hr.
  - cbn [seq fold_left]. unfold widen.
    assert (Ha : (245 <? alphaAt img y a)%Z = true) by (apply Z.ltb_lt, Hs; lia).
    rewrite Ha.
    destruct (Z.ltb_spec (Z.of_nat a) l), (Z.ltb_spec r (Z.of_nat a));
      f_equal; lia.
  - remember (S n) as m. cbn [seq fold_left]. subst m.
    assert (Ha : (245 <? alphaAt img y a)%Z = true) by (apply Z.ltb_lt, Hs; lia).
    unfold widen at 2. rewrite Ha.
    rewrite IH.
    + destruct (Z.ltb_spec (Z.of_nat a) l), (Z.ltb_spec r (Z.of_nat a));
        f_equal; lia.
    + intros x Hx. apply Hs. lia.
    + destruct (Z.ltb_spec r (Z.of_nat a)); lia.
Qed.

End AnchorDetection.

Section AnchorOfRectangle.

Import Js Anchor.
Open Scope Q_scope.

(** Row [y], column [x] lies in the rectangle of rows [R0..R1] and columns
    [C0..C1]. *)
Definition inside (R0 R1 C0 C1 y x : nat) : Prop :=
  (R0 <= y <= R1)%nat /\ (C0 <= x <= C1)%nat.

(** A raster that is solid (alpha above 245, as the detector tests it) on a
    rectangle within it and fully transparent elsewhere. *)
Definition solidRectangle (img : ImageData) (R0 R1 C0 C1 : nat) : Prop :=
  (R0 <= R1 < height img)%nat
  /\ (C0 <= C1 < width img)%nat
  /\ (forall y x, inside R0 R1 C0 C1 y x -> (245 < alphaAt img y x)%Z)
  /\ (forall y x, (y < height img)%nat -> (x < width img)%nat ->
                  ~ inside R0 R1 C0 C1 y x -> alphaAt img y x = 0%Z).

Lemma fold_left_ext_in (A B : Type) (f g : A -> B -> A) (l : list B) :
  (forall a b, In b l -> f a b = g a b) ->
  forall a, fold_left f l a = fold_left g l a.
Proof.
  induction l as [| b l IH]; intros H a; [reflexivity |].
  cbn [fold_left]. rewrite H by (left; reflexivity).
  apply IH. intros a' b' Hb'. apply H. right. exact Hb'.
Qed.

(** Two rows with the same samples column by column are equally dark, so
    the rows of a rectangle of one colour are. *)
Lemma rowDarkness_same_pixels (img : ImageData) (y y' : nat) :
  (forall x, (x < width img)%nat ->
             redAt img y x = redAt img y' x /\ greenAt img y x = greenAt img y' x
             /\ blueAt img y x = blueAt img y' x /\ alphaAt img y x = alphaAt img y' x) ->
  rowDarkness img y = rowDarkness img y'.
Proof.
  intros H.
  assert (E : scanRow img y = scanRow img y').
  { unfold scanRow. apply fold_left_ext_in.
    intros acc x Hx. apply in_seq in Hx.
    destruct (H x ltac:(lia)) as [Hr [Hg [Hb Ha]]].
    unfold scanPixel, pixelDarkness. rewrite Hr, Hg, Hb, Ha. reflexivity. }
  unfold rowDarkness. rewrite E. reflexivity.
Qed.

Lemma extentOfRow_rectangle (img : ImageData) (R0 R1 C0 C1 y : nat) :
  solidRectangle img R0 R1 C0 C1 ->
  (R0 <= y <= R1)%nat ->
  extentOfRow img y = (Z.of_nat C0, Z.of_nat C1).
Proof.
  intros [HR [HC [Hin Hout]]] Hy.
  unfold extentOfRow.
  replace (width img) with (C0 + (S (C1 - C0) + (width img - S C1)))%nat at 1 by lia.
  rewrite !seq_app, !fold_left_app. change (0 + C0)%nat with C0.
  assert (Hclear : forall x, (x < width img)%nat -> ~ (C0 <= x <= C1)%nat ->
                             (alphaAt img y x <= 245)%Z).
  { intros x Hx Hn. rewrite Hout; [lia | lia | exact Hx |]. unfold inside. lia. }
  rewrite (fold_widen_clear img y (seq 0 C0))
    by (intros x Hx; apply in_seq in Hx; apply Hclear; lia).
  rewrite fold_widen_solid
    by (first [ lia | intros x Hx; apply Hin; unfold inside; lia ]).
  rewrite fold_widen_clear
    by (intros x Hx; apply in_seq in Hx; apply Hclear; lia).
  f_equal; lia.
Qed.

Lemma collectCandidates_rectangle (img : ImageData) (R0 R1 C0 C1 : nat) :
  solidRectangle img R0 R1 C0 C1 ->
  exists extra : list Candidate,
    collectCandidates img = {| row := R1; darkness := rowDarkness img R1 |} :: extra
    /\ Forall (fun c => (R0 <= row c < R1)%nat /\ darkness c = rowDarkness img (row c)) extra.
Proof.
  intros [HR [HC [Hin Hout]]].
  assert (Hclear : forall y, (y < height img)%nat -> ~ (R0 <= y <= R1)%nat ->
                             isCandidate img y = false).
  { intros y Hy Hn. apply isCandidate_clear. intros x Hx.
    rewrite Hout; [lia | exact Hy | exact Hx |]. unfold inside. lia. }
  unfold collectCandidates.
  rewrite (rowsFromBottom_split img R1) by lia.
  rewrite scanRows_skip.
  - destruct (scanRows_first img R1 (rev (seq 0 R1))) as [extra [E F]].
    + apply (isCandidate_solid img R1 C0); [lia |]. apply Hin. unfold inside. lia.
    + exists extra. split; [exact E |].
      eapply Forall_impl; [| exact F].
      intros c [Hrow [Hc Hd]]. split; [| exact Hd].
      apply in_rev, in_seq in Hrow.
      destruct (le_lt_dec R0 (row c)) as [Hge | Hlt]; [lia |].
      rewrite Hclear in Hc by lia. discriminate Hc.
  - intros y Hy. apply in_rev, in_seq in Hy. apply Hclear; lia.
Qed.

(** A 1 by 10 raster, opaque on rows 8 and 9 only: row 9, the lowest, is
    white and row 8 is black. *)
Definition twoToneRectangle : ImageData :=
  rasterOf 1 10
    (fun y x =>
       if (y =? 9)%nat then (255, 255, 255, 255)%Z
       else if (y =? 8)%nat then (0, 0, 0, 255)%Z
       else (0, 0, 0, 0)%Z).

(** On it the detector takes row 8, the darker one, as the anchor row:
    [yPadding] is 1 where [H - R1 - 1] is 0. *)
Lemma anchor_prefers_darker_row :
  solidRectangle twoToneRectangle 8 9 0 0
  /\ alphaAt twoToneRectangle 8 0 = 255%Z
  /\ alphaAt twoToneRectangle 9 0 = 255%Z
  /\ yPadding (detectTreeContentPosition twoToneRectangle) = 1%Z
  /\ (Z.of_nat (height twoToneRectangle) - Z.of_nat 9 - 1 = 0)%Z.
Proof.
  split; [| repeat split; vm_compute; reflexivity].
  split; [cbn; lia |]. split; [cbn; lia |]. split.
  - intros y x [Hy Hx].
    assert (x = 0)%nat by lia. subst x.
    assert (y = 8 \/ y = 9)%nat as [-> | ->] by lia; vm_compute; reflexivity.
  - cbn [height width twoToneRectangle rasterOf]. intros y x Hy Hx Hn.
    unfold inside in Hn.
    assert (x = 0)%nat by lia. subst x.
    do 10 (destruct y as [| y]; [first [ vm_compute; reflexivity | exfalso; lia ] |]).
    lia.
Qed.

(** A 1 by 10 raster whose only opaque pixel is in row 0, the top row. *)
Definition topRowOnly : ImageData :=
  rasterOf 1 10
    (fun y x => if (y =? 0)%nat then (0, 0, 0, 255)%Z else (0, 0, 0, 0)%Z).

(** A 1 by 10 raster, opaque everywhere, white but for a black row 6. *)
Definition darkFourthRow : ImageData :=
  rasterOf 1 10
    (fun y x => if (y =? 6)%nat then (0, 0, 0, 255)%Z else (255, 255, 255, 255)%Z).

(** C7, on the code.  The bottom 30% of ten rows are rows 7, 8 and 9.  On
    [topRowOnly] the scan goes through all ten rows and takes row 0 as the
    anchor row; on [darkFourthRow] it pushes four rows, 9 down to 6, and
    takes row 6. *)
Example scan_leaves_bottom_band :
  map row (collectCandidates topRowOnly) = [0%nat]
  /\ yPadding (detectTreeContentPosition topRowOnly) = 9%Z
  /\ map row (collectCandidates darkFourthRow) = [9; 8; 7; 6]%nat
  /\ yPadding (detectTreeContentPosition darkFourthRow) = 3%Z.
Proof. repeat split; vm_compute; reflexivity. Qed.

End AnchorOfRectangle.

(** ** The raster transform *)

Section PixelSteps.

Import Js Filters.
Open Scope Q_scope.

Definition RGB : Type := (Q * Q * Q)%type.

(** The blocks of [filterPixel], one at a time. *)

Definition temperatureStep (adj : CanvasAdjustments) (c : RGB) : RGB :=
  let '(r, g, b) := c in
  match temperature adj with
  | Some temperature =>
      if neq temperature 0 then
        let tempFactor := temperature / 100 in
        if gt tempFactor 0 then
          (Math_min 255 (r + tempFactor * 30),
           Math_min 255 (g + tempFactor * 10),
           Math_max 0 (b - tempFactor * 20))
        else
          (Math_max 0 (r + tempFactor * 20), g, Math_min 255 (b - tempFactor * 30))
      else (r, g, b)
  | None => (r, g, b)
  end.

Definition saturationStep (adj : CanvasAdjustments) (c : RGB) : RGB :=
  let '(r, g, b) := c in
  if neq (saturation adj) 1 then
    let gray := 0.299 * r + 0.587 * g + 0.114 * b in
    (gray + saturation adj * (r - gray),
     gray + saturation adj * (g - gray),
     gray + saturation adj * (b - gray))
  else (r, g, b).

Definition brightnessStep (adj : CanvasAdjustments) (c : RGB) : RGB :=
  let '(r, g, b) := c in
  if neq (brightness adj) 0 then
    let brightFactor := brightness adj * 2.55 in
    (r + brightFactor, g + brightFactor, b + brightFactor)
  else (r, g, b).

Definition contrastStep (adj : CanvasAdjustments) (c : RGB) : RGB :=
  let '(r, g, b) := c in
  if neq (contrast adj) 0 then
    let contrastFactor := (259 * (contrast adj + 255)) / (255 * (259 - contrast adj)) in
    (contrastFactor * (r - 128) + 128,
     contrastFactor * (g - 128) + 128,
     contrastFactor * (b - 128) + 128)
  else (r, g, b).

Definition overlayStep (adj : CanvasAdjustments) (c : RGB) : RGB :=
  let '(r, g, b) := c in
  match colorOverlay adj with
  | Some overlay =>
      if gt (opacity overlay) 0 then
        (r * (1 - opacity overlay) + overlay_r overlay * opacity overlay,
         g * (1 - opacity overlay) + overlay_g overlay * opacity overlay,
         b * (1 - opacity overlay) + overlay_b overlay * opacity overlay)
      else (r, g, b)
  | None => (r, g, b)
  end.

(** [Math.max(0, Math.min(255, Math.round(x)))] *)
Definition roundThenClamp (x : Q) : Z := Z.max 0 (Z.min 255 (Math_round x)).

Definition clampStep (c : RGB) : Z * Z * Z :=
  let '(r, g, b) := c in (roundThenClamp r, roundThenClamp g, roundThenClamp b).

Lemma filterPixel_steps (adj : CanvasAdjustments) (r g b : Z) :
  filterPixel adj r g b
  = clampStep
      (overlayStep adj
         (contrastStep adj
            (brightnessStep adj
               (saturationStep adj
                  (temperatureStep adj (inject_Z r, inject_Z g, inject_Z b)))))).
Proof.
  unfold filterPixel, clampStep, overlayStep, contrastStep, brightnessStep,
    saturationStep, temperatureStep, roundThenClamp.
  destruct (temperature adj) as [t |];
    [destruct (neq t 0); [destruct (gt (t / 100) 0) |] |];
    destruct (neq (saturation adj) 1);
    destruct (neq (brightness adj) 0);
    destruct (neq (contrast adj) 0);
    (destruct (colorOverlay adj) as [o |]; [destruct (gt (opacity o) 0) |]);
    reflexivity.
Qed.

(** *** The order of operations in the specification's words *)

(** 1. "if temperature is not 0, let f = temperature / 100; if warm (f > 0):
    r += 30f, g += 10f, b -= 20f; if cool: r += 20f, b -= 30f". *)
Definition spec_temperature (adj : CanvasAdjustments) (c : RGB) : RGB :=
  let '(r, g, b) := c in
  match temperature adj with
  | Some temperature =>
      if neq temperature 0 then
        let f := temperature / 100 in
        if gt f 0 then (r + 30 * f, g + 10 * f, b - 20 * f)
        else (r + 20 * f, g, b - 30 * f)
      else c
  | None => c
  end.

(** The same step with the bounds the code puts on it: warm,
    r = min(255, r + 30f), g = min(255, g + 10f), b = max(0, b - 20f);
    cool, r = max(0, r + 20f), b = min(255, b - 30f). *)
Definition bounded_temperature (adj : CanvasAdjustments) (c : RGB) : RGB :=
  let '(r, g, b) := c in
  match temperature adj with
  | Some temperature =>
      if neq temperature 0 then
        let f := temperature / 100 in
        if gt f 0 then (Qmin 255 (r + 30 * f), Qmin 255 (g + 10 * f), Qmax 0 (b - 20 * f))
        else (Qmax 0 (r + 20 * f), g, Qmin 255 (b - 30 * f))
      else c
  | None => c
  end.

(** 2. "compute luma Y = 0.299r + 0.587g + 0.114b; each channel becomes
    Y + saturation (channel - Y)". *)
Definition spec_saturation (adj : CanvasAdjustments) (c : RGB) : RGB :=
  let '(r, g, b) := c in
  let Y := 0.299 * r + 0.587 * g + 0.114 * b in
  (Y + saturation adj * (r - Y), Y + saturation adj * (g - Y), Y + saturation adj * (b - Y)).

(** 3. "additive: channel += brightness * 2.55". *)
Definition spec_brightness (adj : CanvasAdjustments) (c : RGB) : RGB :=
  let '(r, g, b) := c in
  (r + brightness adj * 2.55, g + brightness adj * 2.55, b + brightness adj * 2.55).

(** 4. "gain = 259 (contrast + 255) / (255 (259 - contrast));
    channel = gain (channel - 128) + 128". *)
Definition spec_contrast (adj : CanvasAdjustments) (c : RGB) : RGB :=
  let '(r, g, b) := c in
  let gain := (259 * (contrast adj + 255)) / (255 * (259 - contrast adj)) in
  (gain * (r - 128) + 128, gain * (g - 128) + 128, gain * (b - 128) + 128).

(** 5. "if present with opacity > 0, alpha-blend the flat overlay colour
    onto the pixel using opacity as blend weight". *)
Definition spec_overlay (adj : CanvasAdjustments) (c : RGB) : RGB :=
  let '(r, g, b) := c in
  match colorOverlay adj with
  | Some o =>
      if gt (opacity o) 0 then
        ((1 - opacity o) * r + opacity o * overlay_r o,
         (1 - opacity o) * g + opacity o * overlay_g o,
         (1 - opacity o) * b + opacity o * overlay_b o)
      else c
  | None => c
  end.

(** 6. "clamp every channel to [0,255] and round to the nearest integer". *)
Definition clampThenRound (x : Q) : Z := Math_round (Qmax 0 (Qmin 255 x)).

Definition spec_clamp (c : RGB) : Z * Z * Z :=
  let '(r, g, b) := c in (clampThenRound r, clampThenRound g, clampThenRound b).

(** The six steps in order, nothing bounded or rounded before the last. *)
Definition specPixel (adj : CanvasAdjustments) (r g b : Z) : Z * Z * Z :=
  spec_clamp
    (spec_overlay adj
       (spec_contrast adj
          (spec_brightness adj
             (spec_saturation adj
                (spec_temperature adj (inject_Z r, inject_Z g, inject_Z b)))))).

(** The first five steps in order, the first one bounded as the code
    bounds it: the exact value of each channel before the last step. *)
Definition orderedValue (adj : CanvasAdjustments) (r g b : Z) : RGB :=
  spec_overlay adj
    (spec_contrast adj
       (spec_brightness adj
          (spec_saturation adj
             (bounded_temperature adj (inject_Z r, inject_Z g, inject_Z b))))).

(** The six steps in order, the first one bounded as the code bounds it. *)
Definition orderedPixel (adj : CanvasAdjustments) (r g b : Z) : Z * Z * Z :=
  spec_clamp (orderedValue adj r g b).

(** [x] clamped to [0, 255]. *)
Definition bounded (x : Q) : Q := Qmax 0 (Qmin 255 x).

(** [z] is an integer nearest to [x]; halfway between two integers both
    are. *)
Definition nearest (x : Q) (z : Z) : Prop :=
  x - 1 / 2 <= inject_Z z /\ inject_Z z <= x + 1 / 2.

(** Step 6 read on the three channels: each written sample is a byte and
    an integer nearest to the clamped value of its channel. *)
Definition clampedAndRounded (c : RGB) (written : Z * Z * Z) : Prop :=
  let '(r, g, b) := c in
  let '(r', g', b') := written in
  (nearest (bounded r) r' /\ (0 <= r' <= 255)%Z)
  /\ (nearest (bounded g) g' /\ (0 <= g' <= 255)%Z)
  /\ (nearest (bounded b) b' /\ (0 <= b' <= 255)%Z).

End PixelSteps.

Section StepsAgree.

Import Js Filters.
Open Scope Q_scope.

(** Channel by channel the same number. *)
Definition sameRGB (c c' : RGB) : Prop :=
  fst (fst c) == fst (fst c') /\ snd (fst c) == snd (fst c') /\ snd c == snd c'.

Lemma sameRGB_refl (c : RGB) : sameRGB c c.
Proof. repeat split; reflexivity. Qed.

Lemma neq_false (x y : Q) : neq x y = false -> x == y.
Proof.
  unfold neq. intros H. apply negb_false_iff in H. apply Qeq_bool_iff. exact H.
Qed.

Ltac channels :=
  repeat split; cbn [fst snd];
  repeat first [ apply Q.min_compat | apply Q.max_compat ];
  try reflexivity.

Lemma temperatureStep_bounded (adj : CanvasAdjustments) (c c' : RGB) :
  sameRGB c c' -> sameRGB (temperatureStep adj c) (bounded_temperature adj c').
Proof.
  destruct c as [[r g] b], c' as [[r' g'] b'].
  intros [Hr [Hg Hb]]. cbn [fst snd] in Hr, Hg, Hb.
  unfold temperatureStep, bounded_temperature, Math_min, Math_max.
  destruct (temperature adj) as [t |];
    [destruct (neq t 0); [destruct (gt (t / 100) 0) |] |];
    channels; try assumption;
    first [ rewrite Hr | rewrite Hg | rewrite Hb ]; ring.
Qed.

Lemma saturationStep_spec (adj : CanvasAdjustments) (c c' : RGB) :
  sameRGB c c' -> sameRGB (saturationStep adj c) (spec_saturation adj c').
Proof.
  destruct c as [[r g] b], c' as [[r' g'] b'].
  intros [Hr [Hg Hb]]. cbn [fst snd] in Hr, Hg, Hb.
  unfold saturationStep, spec_saturation.
  destruct (neq (saturation adj) 1) eqn:Hs; cbv zeta; channels.
  - rewrite Hr, Hg, Hb. reflexivity.
  - rewrite Hr, Hg, Hb. reflexivity.
  - rewrite Hr, Hg, Hb. reflexivity.
  - rewrite (neq_false _ _ Hs), Hr. ring.
  - rewrite (neq_false _ _ Hs), Hg. ring.
  - rewrite (neq_false _ _ Hs), Hb. ring.
Qed.

Lemma brightnessStep_spec (adj : CanvasAdjustments) (c c' : RGB) :
  sameRGB c c' -> sameRGB (brightnessStep adj c) (spec_brightness adj c').
Proof.
  destruct c as [[r g] b], c' as [[r' g'] b'].
  intros [Hr [Hg Hb]]. cbn [fst snd] in Hr, Hg, Hb.
  unfold brightnessStep, spec_brightness.
  destruct (neq (brightness adj) 0) eqn:Hs; cbv zeta; channels.
  - rewrite Hr. reflexivity.
  - rewrite Hg. reflexivity.
  - rewrite Hb. reflexivity.
  - rewrite (neq_false _ _ Hs), Hr. ring.
  - rewrite (neq_false _ _ Hs), Hg. ring.
  - rewrite (neq_false _ _ Hs), Hb. ring.
Qed.

Lemma unit_gain (k : Q) : k == 0 -> (259 * (k + 255)) / (255 * (259 - k)) == 1.
Proof. intros H. rewrite H. reflexivity. Qed.

Lemma contrastStep_spec (adj : CanvasAdjustments) (c c' : RGB) :
  sameRGB c c' -> sameRGB (contrastStep adj c) (spec_contrast adj c').
Proof.
  destruct c as [[r g] b], c' as [[r' g'] b'].
  intros [Hr [Hg Hb]]. cbn [fst snd] in Hr, Hg, Hb.
  unfold contrastStep, spec_contrast.
  destruct (neq (contrast adj) 0) eqn:Hs; cbv zeta; channels.
  - rewrite Hr. reflexivity.
  - rewrite Hg. reflexivity.
  - rewrite Hb. reflexivity.
  - rewrite (unit_gain _ (neq_false _ _ Hs)), Hr. ring.
  - rewrite (unit_gain _ (neq_false _ _ Hs)), Hg. ring.
  - rewrite (unit_gain _ (neq_false _ _ Hs)), Hb. ring.
Qed.

Lemma overlayStep_spec (adj : CanvasAdjustments) (c c' : RGB) :
  sameRGB c c' -> sameRGB (overlayStep adj c) (spec_overlay adj c').
Proof.
  destruct c as [[r g] b], c' as [[r' g'] b'].
  intros [Hr [Hg Hb]]. cbn [fst snd] in Hr, Hg, Hb.
  unfold overlayStep, spec_overlay.
  destruct (colorOverlay adj) as [o |]; [destruct (gt (opacity o) 0) |];
    channels; try assumption;
    first [ rewrite Hr | rewrite Hg | rewrite Hb ]; ring.
Qed.

Lemma Qfloor_lower (n : Z) (q : Q) : inject_Z n <= q -> (n <= Qfloor q)%Z.
Proof.
  intros H. rewrite <- (Qfloor_Z n). apply Qfloor_resp_le, H.
Qed.

Lemma Qfloor_upper (n : Z) (q : Q) : q < inject_Z (n + 1) -> (Qfloor q <= n)%Z.
Proof.
  intros H.
  assert (L : inject_Z (Qfloor q) < inject_Z (n + 1)).
  { eapply Qle_lt_trans; [apply Qfloor_le | exact H]. }
  rewrite <- Zlt_Qlt in L. lia.
Qed.

(** Rounding and then bounding to 0..255 gives what bounding and then
    rounding gives. *)
Lemma roundThenClamp_clampThenRound (x x' : Q) :
  x == x' -> roundThenClamp x = clampThenRound x'.
Proof.
  intros E. unfold roundThenClamp, clampThenRound, Math_round.
  rewrite <- (Qfloor_comp _ _ (Qplus_comp _ _
                (Q.max_compat _ _ (Qeq_refl 0) _ _
                   (Q.min_compat _ _ (Qeq_refl 255) _ _ E)) _ _ (Qeq_refl (1 / 2)))).
  destruct (Qlt_le_dec x 0) as [Hneg | Hpos].
  - assert (Hmin : Qmin 255 x == x).
    { apply Q.min_r. apply Qlt_le_weak. eapply Qlt_trans; [exact Hneg | reflexivity]. }
    assert (Hmax : Qmax 0 (Qmin 255 x) == 0).
    { rewrite Hmin. apply Q.max_l. apply Qlt_le_weak, Hneg. }
    assert (F : Qfloor (Qmax 0 (Qmin 255 x) + 1 / 2) = Qfloor (0 + 1 / 2))
      by (apply Qfloor_comp; rewrite Hmax; reflexivity).
    rewrite F.
    assert (U : (Qfloor (x + 1 / 2) <= 0)%Z).
    { apply Qfloor_upper. apply Qlt_trans with (0 + 1 / 2).
      - apply Qplus_lt_l. exact Hneg.
      - reflexivity. }
    change (Qfloor (0 + 1 / 2)) with 0%Z. lia.
  - destruct (Qlt_le_dec 255 x) as [Hbig | Hsmall].
    + assert (Hmin : Qmin 255 x == 255) by (apply Q.min_l, Qlt_le_weak, Hbig).
      assert (Hmax : Qmax 0 (Qmin 255 x) == 255).
      { rewrite Hmin. apply Q.max_r. discriminate. }
      assert (F : Qfloor (Qmax 0 (Qmin 255 x) + 1 / 2) = Qfloor (255 + 1 / 2))
      by (apply Qfloor_comp; rewrite Hmax; reflexivity).
    rewrite F.
      assert (L : (255 <= Qfloor (x + 1 / 2))%Z).
      { apply Qfloor_lower. apply Qle_trans with (255 + 0).
        - discriminate.
        - apply Qplus_le_compat; [apply Qlt_le_weak, Hbig | discriminate]. }
      change (Qfloor (255 + 1 / 2)) with 255%Z. lia.
    + assert (Hmin : Qmin 255 x == x) by (apply Q.min_r, Hsmall).
      assert (Hmax : Qmax 0 (Qmin 255 x) == x).
      { rewrite Hmin. apply Q.max_r, Hpos. }
      assert (F : Qfloor (Qmax 0 (Qmin 255 x) + 1 / 2) = Qfloor (x + 1 / 2))
      by (apply Qfloor_comp; rewrite Hmax; reflexivity).
    rewrite F.
      assert (L : (0 <= Qfloor (x + 1 / 2))%Z).
      { apply Qfloor_lower. apply Qle_trans with (0 + 0).
        - discriminate.
        - apply Qplus_le_compat; [exact Hpos | discriminate]. }
      assert (U : (Qfloor (x + 1 / 2) <= 255)%Z).
      { apply Qfloor_upper. apply Qle_lt_trans with (255 + 1 / 2).
        - apply Qplus_le_compat; [exact Hsmall | apply Qle_refl].
        - reflexivity. }
      lia.
Qed.

Lemma clampStep_spec (c c' : RGB) : sameRGB c c' -> clampStep c = spec_clamp c'.
Proof.
  destruct c as [[r g] b], c' as [[r' g'] b'].
  intros [Hr [Hg Hb]]. cbn [fst snd] in Hr, Hg, Hb.
  unfold clampStep, spec_clamp.
  rewrite (roundThenClamp_clampThenRound _ _ Hr),
    (roundThenClamp_clampThenRound _ _ Hg),
    (roundThenClamp_clampThenRound _ _ Hb).
  reflexivity.
Qed.

(** What the loop body writes for a pixel is the six steps in order. *)
Lemma filterPixel_ordered (adj : CanvasAdjustments) (r g b : Z) :
  filterPixel adj r g b = orderedPixel adj r g b.
Proof.
  rewrite filterPixel_steps. unfold orderedPixel, orderedValue.
  apply clampStep_spec, overlayStep_spec, contrastStep_spec, brightnessStep_spec,
    saturationStep_spec, temperatureStep_bounded, sameRGB_refl.
Qed.

Lemma roundThenClamp_range (x : Q) : (0 <= roundThenClamp x <= 255)%Z.
Proof. unfold roundThenClamp. lia. Qed.

(** Rounding is to a nearest integer, and leaves a clamped value a byte. *)
Lemma clampThenRound_nearest (x : Q) :
  nearest (bounded x) (clampThenRound x) /\ (0 <= clampThenRound x <= 255)%Z.
Proof.
  split.
  - unfold nearest, clampThenRound, Math_round. fold (bounded x).
    pose proof (Qfloor_le (bounded x + 1 / 2)) as L.
    pose proof (Qlt_floor (bounded x + 1 / 2)) as U.
    rewrite inject_Z_plus in U.
    unfold Qdiv in *. change (/ 2) with (1 # 2) in *. change (inject_Z 1) with 1 in U.
    split; Lqa.lra.
  - rewrite <- (roundThenClamp_clampThenRound x x (Qeq_refl x)).
    apply roundThenClamp_range.
Qed.

Lemma orderedPixel_nearest (adj : CanvasAdjustments) (r g b : Z) :
  clampedAndRounded (orderedValue adj r g b) (orderedPixel adj r g b).
Proof.
  unfold orderedPixel.
  destruct (orderedValue adj r g b) as [[x y] z].
  cbn [spec_clamp clampedAndRounded].
  split; [| split]; apply clampThenRound_nearest.
Qed.

Lemma filterPixel_range (adj : CanvasAdjustments) (r g b : Z) :
  (0 <= fst (fst (filterPixel adj r g b)) <= 255)%Z
  /\ (0 <= snd (fst (filterPixel adj r g b)) <= 255)%Z
  /\ (0 <= snd (filterPixel adj r g b) <= 255)%Z.
Proof.
  rewrite filterPixel_steps.
  destruct (overlayStep adj _) as [[x y] z]. cbn [clampStep fst snd].
  repeat split; apply roundThenClamp_range.
Qed.

End StepsAgree.

Section RasterTransform.

Import Js Anchor Filters.
Open Scope string_scope.
Open Scope Z_scope.

Definition byteSample (z : Z) : Prop := 0 <= z <= 255.

(** A raster holds four byte samples for each of its pixels. *)
Definition raster (img : ImageData) : Prop :=
  List.length (data img) = (4 * (width img * height img))%nat
  /\ Forall byteSample (data img).

(** Sample [j] (0 red, 1 green, 2 blue, 3 alpha) of pixel [k]. *)
Definition channelOf (samples : list Z) (k j : nat) : Z := nth (4 * k + j) samples 0.

Definition channel (img : ImageData) (k j : nat) : Z := channelOf (data img) k j.

Lemma channelOf_next (r g b a : Z) (rest : list Z) (k j : nat) :
  channelOf (r :: g :: b :: a :: rest) (S k) j = channelOf rest k j.
Proof.
  unfold channelOf.
  replace (4 * S k + j)%nat with (S (S (S (S (4 * k + j))))) by lia.
  reflexivity.
Qed.

(** Induction four samples at a time. *)
Lemma samples_ind (P : list Z -> Prop) :
  (forall l, (List.length l < 4)%nat -> P l) ->
  (forall r g b a rest, P rest -> P (r :: g :: b :: a :: rest)) ->
  forall l, P l.
Proof.
  intros Hshort Hstep l.
  assert (H : forall n l, (List.length l <= n)%nat -> P l).
  { induction n as [| n IH]; intros l' Hl.
    - apply Hshort. lia.
    - destruct l' as [| r [| g [| b [| a rest]]]]; try (apply Hshort; cbn; lia).
      apply Hstep, IH. cbn in Hl. lia. }
  apply (H (List.length l)). lia.
Qed.

Lemma filterSamples_short (adj : CanvasAdjustments) (l : list Z) :
  (List.length l < 4)%nat -> filterSamples adj l = l.
Proof.
  destruct l as [| r [| g [| b [| a rest]]]]; cbn; try reflexivity; lia.
Qed.

Lemma filterSamples_length (adj : CanvasAdjustments) (l : list Z) :
  List.length (filterSamples adj l) = List.length l.
Proof.
  induction l as [l Hl | r g b a rest IH] using samples_ind.
  - rewrite filterSamples_short by exact Hl. reflexivity.
  - cbn [filterSamples]. destruct (a =? 0).
    + cbn [List.length]. rewrite IH. reflexivity.
    + destruct (filterPixel adj r g b) as [[r' g'] b'].
      cbn [List.length]. rewrite IH. reflexivity.
Qed.

Lemma filterSamples_bytes (adj : CanvasAdjustments) (l : list Z) :
  Forall byteSample l -> Forall byteSample (filterSamples adj l).
Proof.
  induction l as [l Hl | r g b a rest IH] using samples_ind; intros H.
  - rewrite filterSamples_short by exact Hl. exact H.
  - inversion H as [| ? ? Hr H1]; subst.
    inversion H1 as [| ? ? Hg H2]; subst.
    inversion H2 as [| ? ? Hb H3]; subst.
    inversion H3 as [| ? ? Ha H4]; subst.
    cbn [filterSamples]. destruct (a =? 0).
    + do 4 (constructor; [assumption |]). apply IH, H4.
    + pose proof (filterPixel_range adj r g b) as [Rr [Rg Rb]].
      destruct (filterPixel adj r g b) as [[r' g'] b']. cbn [fst snd] in Rr, Rg, Rb.
      do 4 (constructor; [assumption |]). apply IH, H4.
Qed.

(** What the loop leaves in pixel [k]: its alpha as it was; its colour as
    it was when the alpha is 0, and [filterPixel] of it otherwise. *)
Lemma filterSamples_pixel (adj : CanvasAdjustments) (l : list Z) :
  forall k : nat,
    (4 * k + 3 < List.length l)%nat ->
    channelOf (filterSamples adj l) k 3 = channelOf l k 3
    /\ (channelOf l k 3 = 0 ->
        forall j, (j < 4)%nat -> channelOf (filterSamples adj l) k j = channelOf l k j)
    /\ (channelOf l k 3 <> 0 ->
        (channelOf (filterSamples adj l) k 0,
         channelOf (filterSamples adj l) k 1,
         channelOf (filterSamples adj l) k 2)
        = filterPixel adj (channelOf l k 0) (channelOf l k 1) (channelOf l k 2)).
Proof.
  induction l as [l Hl | r g b a rest IH] using samples_ind; intros k Hk.
  - lia.
  - destruct k as [| k].
    + cbn [filterSamples]. unfold channelOf. cbn [Nat.mul Nat.add nth].
      destruct (Z.eqb_spec a 0) as [Ha | Ha].
      * split; [reflexivity |]. split; [| intros Hn; contradiction].
        intros _ j Hj. unfold channelOf. cbn [Nat.mul Nat.add].
        destruct j as [| [| [| [| j]]]]; try reflexivity. lia.
      * destruct (filterPixel adj r g b) as [[r' g'] b'].
        split; [reflexivity |]. split; [intros Hz; contradiction | reflexivity].
    + cbn [filterSamples].
      assert (Hk' : (4 * k + 3 < List.length rest)%nat) by (cbn [List.length] in Hk; lia).
      destruct (IH k Hk') as [Halpha [Hkeep Hpix]].
      destruct (a =? 0).
      * rewrite !channelOf_next. split; [exact Halpha |]. split.
        -- intros Hz j Hj. rewrite !channelOf_next. apply Hkeep; assumption.
        -- exact Hpix.
      * destruct (filterPixel adj r g b) as [[r' g'] b'].
        rewrite !channelOf_next. split; [exact Halpha |]. split.
        -- intros Hz j Hj. rewrite !channelOf_next. apply Hkeep; assumption.
        -- exact Hpix.
Qed.

End RasterTransform.

Section FilterEngine.

Import Js Anchor Filters.
Open Scope string_scope.
Open Scope Z_scope.

Lemma Math_round_integer (z : Z) : Math_round (inject_Z z) = z.
Proof.
  unfold Math_round. apply Z.le_antisymm.
  - apply Qfloor_upper. rewrite inject_Z_plus.
    apply Qplus_lt_r. reflexivity.
  - apply Qfloor_lower. rewrite <- (Qplus_0_r (inject_Z z)) at 1.
    apply Qplus_le_compat; [apply Qle_refl | discriminate].
Qed.

Lemma roundThenClamp_byte (z : Z) : byteSample z -> roundThenClamp (inject_Z z) = z.
Proof.
  intros H. unfold roundThenClamp, byteSample in *. rewrite Math_round_integer. lia.
Qed.

(** With the adjustments of [none] every block of the loop body is
    skipped, and a byte is its own rounding. *)
Lemma filterPixel_none (r g b : Z) :
  byteSample r -> byteSample g -> byteSample b ->
  filterPixel (canvasAdjustments none) r g b = (r, g, b).
Proof.
  intros Hr Hg Hb. rewrite filterPixel_steps.
  unfold temperatureStep, saturationStep, brightnessStep, contrastStep, overlayStep.
  cbn [canvasAdjustments none temperature saturation brightness contrast colorOverlay].
  change (neq 1 1) with false. change (neq 0 0) with false.
  cbn [clampStep].
  rewrite !roundThenClamp_byte by assumption. reflexivity.
Qed.

Lemma channelOf_byte (l : list Z) (k j : nat) :
  Forall byteSample l -> byteSample (channelOf l k j).
Proof.
  intros H. unfold channelOf.
  destruct (Nat.lt_ge_cases (4 * k + j) (List.length l)) as [Hlt | Hge].
  - rewrite Forall_forall in H. apply H, nth_In, Hlt.
  - rewrite nth_overflow by exact Hge. unfold byteSample. lia.
Qed.

Lemma lookup_unknown (filterName : string) :
  ~ In filterName getAvailableFilters -> lookup filterName FILTERS = None.
Proof.
  intros H. unfold FILTERS, lookup.
  repeat match goal with
         | |- context [String.eqb filterName ?s] =>
             destruct (String.eqb_spec filterName s) as [E | _];
             [exfalso; apply H; rewrite E; cbn; tauto |]
         end.
  reflexivity.
Qed.

(** *** What a name resolves to *)


Lemma getFilter_inherited (filterName : string) :
  In filterName Object_prototype -> getFilter filterName = inherited filterName.
Proof.
  intros H. cbn in H.
  repeat (destruct H as [<- | H]; [reflexivity |]). contradiction.
Qed.

Lemma existsb_eqb_false (key : string) (keys : list string) :
  ~ In key keys -> existsb (String.eqb key) keys = false.
Proof.
  intros H. destruct (existsb (String.eqb key) keys) eqn:E; [| reflexivity].
  apply existsb_exists in E. destruct E as [k [Hk Heq]].
  apply String.eqb_eq in Heq. subst k. contradiction.
Qed.

Lemma getFilter_other (filterName : string) :
  ~ In filterName getAvailableFilters ->
  ~ In filterName Object_prototype ->
  getFilter filterName = preset none.
Proof.
  intros Hcatalog Hproto. unfold getFilter, member.
  rewrite lookup_unknown by exact Hcatalog.
  rewrite existsb_eqb_false by exact Hproto. reflexivity.
Qed.

(** A name resolves to a preset of the catalog, to [none], or to the
    member inherited under it. *)
Lemma getFilter_cases (filterName : string) :
  (exists filter, getFilter filterName = preset filter
                  /\ In (name filter) getAvailableFilters
                  /\ getFilter (name filter) = preset filter)
  \/ (In filterName Object_prototype
      /\ ~ In filterName getAvailableFilters
      /\ getFilter filterName = inherited filterName).
Proof.
  destruct (in_dec string_dec filterName getAvailableFilters) as [H | H].
  - left. cbn in H.
    repeat (destruct H as [<- | H];
            [eexists; split; [reflexivity | split; [cbn; tauto | reflexivity]] |]).
    contradiction.
  - destruct (in_dec string_dec filterName Object_prototype) as [P | P].
    + right. split; [exact P |]. split; [exact H |]. apply getFilter_inherited, P.
    + left. exists none. split; [apply getFilter_other; assumption |].
      split; [cbn; tauto | reflexivity].
Qed.

(** *** The loop without adjustments *)

Lemma filterSamplesUndefined_returns (l l' : list Z) :
  filterSamplesUndefined l = Returned l' -> l' = l.
Proof.
  revert l'. induction l as [l Hshort | r g b a rest IH] using samples_ind; intros l' H.
  - destruct l as [| r [| g [| b [| a rest]]]]; cbn in Hshort; try lia;
      cbn in H; injection H as <-; reflexivity.
  - cbn [filterSamplesUndefined] in H.
    destruct (a =? 0); [| discriminate H].
    destruct (filterSamplesUndefined rest) as [rest' | e]; [| discriminate H].
    injection H as <-. rewrite (IH rest' eq_refl). reflexivity.
Qed.

Lemma filterSamplesUndefined_throws (l : list Z) :
  forall k : nat,
    (4 * k + 3 < List.length l)%nat ->
    channelOf l k 3 <> 0 ->
    filterSamplesUndefined l = Thrown TypeError.
Proof.
  induction l as [l Hshort | r g b a rest IH] using samples_ind; intros k Hk Ha.
  - lia.
  - cbn [filterSamplesUndefined].
    destruct (Z.eqb_spec a 0) as [Hz | Hnz]; [| reflexivity].
    destruct k as [| k].
    + exfalso. apply Ha. unfold channelOf. cbn. exact Hz.
    + rewrite channelOf_next in Ha. cbn [List.length] in Hk.
      rewrite (IH k) by (first [lia | exact Ha]). reflexivity.
Qed.

(** *** The call *)

Lemma applyCanvasFilter_preset (ctx : ImageData) (filterName : string) (filter : FilterConfig) :
  getFilter filterName = preset filter ->
  filterName <> "none" ->
  applyCanvasFilter ctx filterName
  = (Returned tt,
     {| width := width ctx; height := height ctx;
        data := filterSamples (canvasAdjustments filter) (data ctx) |}).
Proof.
  intros Hf Hname. unfold applyCanvasFilter. rewrite Hf.
  destruct (String.eqb_spec filterName "none") as [E | _]; [contradiction |].
  reflexivity.
Qed.

(** Under an inherited name the context keeps its samples, whether the
    call throws or not. *)
Lemma applyCanvasFilter_inherited (ctx : ImageData) (filterName key : string) :
  getFilter filterName = inherited key ->
  data (snd (applyCanvasFilter ctx filterName)) = data ctx.
Proof.
  intros Hf. unfold applyCanvasFilter. rewrite Hf.
  destruct (String.eqb filterName "none"); [reflexivity |].
  cbn [canvasAdjustmentsOf].
  destruct (filterSamplesUndefined (data ctx)) as [data' | e] eqn:E; [| reflexivity].
  cbn [snd data]. apply filterSamplesUndefined_returns, E.
Qed.

Lemma applyCanvasFilter_pixel (ctx : ImageData) (filterName : string) (k : nat) :
  raster ctx ->
  (k < width ctx * height ctx)%nat ->
  channel (snd (applyCanvasFilter ctx filterName)) k 3 = channel ctx k 3
  /\ (channel ctx k 3 = 0 ->
      forall j, (j < 4)%nat ->
                channel (snd (applyCanvasFilter ctx filterName)) k j = channel ctx k j)
  /\ (channel ctx k 3 <> 0 ->
      (channel (snd (applyCanvasFilter ctx filterName)) k 0,
       channel (snd (applyCanvasFilter ctx filterName)) k 1,
       channel (snd (applyCanvasFilter ctx filterName)) k 2)
      = match getFilter filterName with
        | preset filter =>
            filterPixel (canvasAdjustments filter)
                        (channel ctx k 0) (channel ctx k 1) (channel ctx k 2)
        | inherited _ => (channel ctx k 0, channel ctx k 1, channel ctx k 2)
        end).
Proof.
  intros [Hlen Hbytes] Hk.
  destruct (getFilter filterName) as [filter | key] eqn:Hf.
  - destruct (String.eqb_spec filterName "none") as [-> | Hname].
    + change (applyCanvasFilter ctx "none") with (Returned tt, ctx). cbn [snd].
      split; [reflexivity |]. split; [reflexivity |].
      intros _. injection Hf as <-.
      unfold channel.
      rewrite filterPixel_none by (apply channelOf_byte, Hbytes). reflexivity.
    + rewrite (applyCanvasFilter_preset ctx filterName filter Hf Hname).
      cbn [snd]. unfold channel. cbn [data]. apply filterSamples_pixel. lia.
  - pose proof (applyCanvasFilter_inherited ctx filterName key Hf) as E.
    unfold channel. rewrite E.
    split; [reflexivity |]. split; reflexivity.
Qed.

(** A raster of two pixels side by side: the first fully transparent, the
    second opaque. *)
Definition twoPixels : ImageData :=
  {| width := 2; height := 1; data := [10; 20; 30; 0; 100; 100; 0; 255] |}.

Lemma twoPixels_raster : raster twoPixels.
Proof.
  split; [reflexivity |].
  repeat (constructor; [unfold byteSample; lia |]). constructor.
Qed.



(** C3.  Whatever the name given, every sample of the raster that
    [applyCanvasFilter] leaves is in 0..255, and there are as many samples
    as before. *)
Theorem filter_bounds (ctx : ImageData) (filterName : string) :
  raster ctx ->
  Forall (fun z => 0 <= z <= 255) (data (snd (applyCanvasFilter ctx filterName)))
  /\ List.length (data (snd (applyCanvasFilter ctx filterName))) = List.length (data ctx).
Proof.
  intros [Hlen Hbytes].
  destruct (getFilter filterName) as [filter | key] eqn:Hf.
  - destruct (String.eqb_spec filterName "none") as [-> | Hname].
    + split; [exact Hbytes | reflexivity].
    + rewrite (applyCanvasFilter_preset ctx filterName filter Hf Hname). cbn [snd data].
      split.
      * apply (filterSamples_bytes _ _ Hbytes).
      * apply filterSamples_length.
  - rewrite (applyCanvasFilter_inherited ctx filterName key Hf).
    split; [exact Hbytes | reflexivity].
Qed.

Lemma filter_bounds_witness :
  Forall (fun z => 0 <= z <= 255) (data (snd (applyCanvasFilter twoPixels "night")))
  /\ List.length (data (snd (applyCanvasFilter twoPixels "night"))) = 8%nat.
Proof.
  apply (filter_bounds twoPixels "night"). apply twoPixels_raster.
Defined.

(** C10.  In the raster [applyCanvasFilter] leaves, the alpha of every
    pixel is what it was; a pixel whose alpha is 0 has all four samples as
    they were; and a sample that did change is the red, green or blue of a
    pixel whose alpha is not 0. *)
Theorem filter_frame (ctx : ImageData) (filterName : string) (k : nat) :
  raster ctx ->
  (k < width ctx * height ctx)%nat ->
  channel (snd (applyCanvasFilter ctx filterName)) k 3 = channel ctx k 3
  /\ (channel ctx k 3 = 0 ->
      forall j, (j < 4)%nat ->
                channel (snd (applyCanvasFilter ctx filterName)) k j = channel ctx k j)
  /\ (forall j, (j < 4)%nat ->
                channel (snd (applyCanvasFilter ctx filterName)) k j <> channel ctx k j ->
                (j < 3)%nat /\ channel ctx k 3 <> 0).
Proof.
  intros Hr Hk.
  destruct (applyCanvasFilter_pixel ctx filterName k Hr Hk) as [Halpha [Hkeep _]].
  split; [exact Halpha |]. split; [exact Hkeep |].
  intros j Hj Hchanged. split.
  - destruct (Nat.eq_dec j 3) as [-> | Hne]; [contradiction | lia].
  - intros Hz. apply Hchanged. apply Hkeep; assumption.
Qed.

Lemma filter_frame_witness :
  channel (snd (applyCanvasFilter twoPixels "sepia")) 1 3 = 255
  /\ data (snd (applyCanvasFilter twoPixels "sepia")) = [10; 20; 30; 0; 119; 112; 78; 255].
Proof.
  split.
  - destruct (filter_frame twoPixels "sepia" 1 twoPixels_raster) as [Halpha _].
    + cbn. lia.
    + rewrite Halpha. reflexivity.
  - vm_compute. reflexivity.
Defined.

(** C6, as the code has it.  For a pixel whose alpha is not 0 and a name
    that resolves to a preset, the samples written are the six steps applied
    in order: temperature shift, saturation about luma, additive brightness,
    contrast about 128, overlay blend, and bounding to 0..255 with rounding.
    The temperature shift is itself bounded (warm: red and green at most
    255, blue at least 0; cool: red at least 0, blue at most 255), and
    nothing is rounded before the last step: each written sample is a byte
    and an integer nearest to the bounded exact value of the first five
    steps.  Which of the two neighbours is written when that value lies
    halfway between them is not said: there the doubles of the code
    decide. *)
Theorem filter_order (ctx : ImageData) (filterName : string) (filter : FilterConfig)
        (k : nat) :
  raster ctx ->
  (k < width ctx * height ctx)%nat ->
  channel ctx k 3 <> 0 ->
  getFilter filterName = preset filter ->
  clampedAndRounded
    (orderedValue (canvasAdjustments filter)
                  (channel ctx k 0) (channel ctx k 1) (channel ctx k 2))
    (channel (snd (applyCanvasFilter ctx filterName)) k 0,
     channel (snd (applyCanvasFilter ctx filterName)) k 1,
     channel (snd (applyCanvasFilter ctx filterName)) k 2).
Proof.
  intros Hr Hk Ha Hf.
  destruct (applyCanvasFilter_pixel ctx filterName k Hr Hk) as [_ [_ Hpix]].
  rewrite (Hpix Ha), Hf, filterPixel_ordered. apply orderedPixel_nearest.
Qed.

Lemma filter_order_witness :
  clampedAndRounded
    (orderedValue (canvasAdjustments winter) 100 100 0)
    (channel (snd (applyCanvasFilter twoPixels "winter")) 1 0,
     channel (snd (applyCanvasFilter twoPixels "winter")) 1 1,
     channel (snd (applyCanvasFilter twoPixels "winter")) 1 2).
Proof.
  apply (filter_order twoPixels "winter" winter 1 twoPixels_raster).
  - cbn. lia.
  - vm_compute. discriminate.
  - reflexivity.
Defined.

(** With "sepia" (warm) the opaque pixel (100, 100, 0) comes out as
    (119, 112, 78), and with "night" (cool) the pixel (5, 100, 250) as
    (0, 57, 167); the six steps with nothing bounded before the last give
    (119, 111, 76) and (0, 56, 173). *)
Lemma temperature_is_bounded_early :
  data (snd (applyCanvasFilter twoPixels "sepia")) = [10; 20; 30; 0; 119; 112; 78; 255]
  /\ getFilter "sepia" = preset sepia
  /\ specPixel (canvasAdjustments sepia) 100 100 0 = (119, 111, 76)
  /\ data (snd (applyCanvasFilter
                  {| width := 1; height := 1; data := [5; 100; 250; 255] |} "night"))
     = [0; 57; 167; 255]
  /\ getFilter "night" = preset night
  /\ specPixel (canvasAdjustments night) 5 100 250 = (0, 56, 173).
Proof. repeat split; vm_compute; reflexivity. Qed.

(** A name outside the catalog changes no sample of a raster.  When it is
    not an inherited name the call runs with the adjustments of [none] and
    returns; when it is, the call throws as soon as it meets a pixel whose
    alpha is not 0, before anything is written back. *)
Lemma unknown_name_leaves_raster (ctx : ImageData) (filterName : string) (k j : nat) :
  raster ctx ->
  (k < width ctx * height ctx)%nat ->
  (j < 4)%nat ->
  ~ In filterName getAvailableFilters ->
  channel (snd (applyCanvasFilter ctx filterName)) k j = channel ctx k j
  /\ (~ In filterName Object_prototype ->
      fst (applyCanvasFilter ctx filterName) = Returned tt)
  /\ (In filterName Object_prototype ->
      channel ctx k 3 <> 0 ->
      fst (applyCanvasFilter ctx filterName) = Thrown TypeError).
Proof.
  intros Hr Hk Hj Hname.
  assert (Hnone : filterName <> "none").
  { intros ->. apply Hname. cbn. tauto. }
  split; [| split].
  - destruct (applyCanvasFilter_pixel ctx filterName k Hr Hk) as [Halpha [Hkeep Hpix]].
    destruct (Z.eq_dec (channel ctx k 3) 0) as [Hz | Hnz]; [apply Hkeep; assumption |].
    specialize (Hpix Hnz).
    destruct (in_dec string_dec filterName Object_prototype) as [P | P].
    + rewrite (getFilter_inherited filterName P) in Hpix.
      injection Hpix as H0 H1 H2.
      destruct j as [| [| [| [| j]]]]; try assumption; lia.
    + rewrite (getFilter_other filterName Hname P) in Hpix.
      destruct Hr as [_ Hbytes]. unfold channel in Hpix.
      rewrite filterPixel_none in Hpix by (apply channelOf_byte, Hbytes).
      injection Hpix as H0 H1 H2.
      destruct j as [| [| [| [| j]]]]; try assumption; lia.
  - intros P.
    rewrite (applyCanvasFilter_preset ctx filterName none
               (getFilter_other filterName Hname P) Hnone).
    reflexivity.
  - intros P Ha. unfold applyCanvasFilter.
    rewrite (getFilter_inherited filterName P).
    destruct (String.eqb_spec filterName "none") as [E | _]; [contradiction |].
    cbn [canvasAdjustmentsOf].
    rewrite (filterSamplesUndefined_throws (data ctx) k).
    + reflexivity.
    + destruct Hr as [Hlen _]. lia.
    + exact Ha.
Qed.

End FilterEngine.

(** ** Further properties of the geometry, the detector and the catalog *)

Section FurtherProperties.

Import Js Grid Anchor Filters.
Open Scope string_scope.
Open Scope Q_scope.

Lemma map_flat_map (A B C : Type) (f : B -> C) (g : A -> list B) (l : list A) :
  map f (flat_map g l) = flat_map (fun a => map f (g a)) l.
Proof.
  induction l as [| a l IH]; [reflexivity |].
  cbn [flat_map]. rewrite map_app, IH. reflexivity.
Qed.

(** [generateGridPositions] returns one position per grid address, row
    after row: [gridSize * gridSize] of them. *)
Theorem one_position_per_address (cfg : GridConfig) (gridSize : Z) (canvasWidth : Q) :
  List.length (generateGridPositions cfg gridSize canvasWidth)
  = (Z.to_nat gridSize * Z.to_nat gridSize)%nat
  /\ map (fun p => (gridY p, gridX p)) (generateGridPositions cfg gridSize canvasWidth)
     = flat_map
         (fun y => map (fun x => (Z.of_nat y, Z.of_nat x)) (seq 0 (Z.to_nat gridSize)))
         (seq 0 (Z.to_nat gridSize)).
Proof.
  split; [apply generateGridPositions_length |].
  unfold generateGridPositions. rewrite map_flat_map.
  apply flat_map_ext. intros y. rewrite map_map. reflexivity.
Qed.

Lemma Qfloor_shift (q : Q) (n : Z) : Qfloor (q + inject_Z n) = (Qfloor q + n)%Z.
Proof.
  apply Z.le_antisymm.
  - apply Qfloor_upper.
    replace (Qfloor q + n + 1)%Z with ((Qfloor q + 1) + n)%Z by lia.
    rewrite inject_Z_plus. apply Qplus_lt_l, Qlt_floor.
  - apply Qfloor_lower. rewrite inject_Z_plus.
    apply Qplus_le_compat; [apply Qfloor_le | apply Qle_refl].
Qed.

(** With the configured tile the centre of tile (x, y) is 200 (x - y) right
    of the rounded middle of the canvas and 700 + 100 (x + y) down. *)
Lemma configured_centre (canvasWidth : Q) (y x : nat) :
  pixelX (gridPositionAt GRID_CONFIG canvasWidth y x)
  = (Qfloor (canvasWidth / 2 + 1 / 2) + 200 * (Z.of_nat x - Z.of_nat y))%Z
  /\ pixelY (gridPositionAt GRID_CONFIG canvasWidth y x)
     = (700 + 100 * (Z.of_nat x + Z.of_nat y))%Z.
Proof.
  unfold gridPositionAt, Math_round. cbn [pixelX pixelY]. split.
  - rewrite <- Qfloor_shift. apply Qfloor_comp.
    unfold Z.sub. rewrite inject_Z_mult, inject_Z_plus, inject_Z_opp.
    cbn [tileWidth GRID_CONFIG]. change (inject_Z SCALE) with 4.
    change (inject_Z 200) with 200. field.
  - rewrite <- Math_round_integer. unfold Math_round. apply Qfloor_comp.
    rewrite inject_Z_plus, inject_Z_mult, inject_Z_plus.
    cbn [tileWidth GRID_CONFIG]. change (inject_Z SCALE) with 4.
    change (inject_Z 700) with 700. change (inject_Z 100) with 100. field.
Qed.

(** With the configured tile no two positions of a grid share a pixel
    centre. *)
Theorem pixel_centre_identifies_tile
        (gridSize : Z) (canvasWidth : Q) (p q : GridPosition) :
  In p (generateGridPositions GRID_CONFIG gridSize canvasWidth) ->
  In q (generateGridPositions GRID_CONFIG gridSize canvasWidth) ->
  pixelX p = pixelX q ->
  pixelY p = pixelY q ->
  p = q.
Proof.
  unfold generateGridPositions. intros Hp Hq HX HY.
  apply in_flat_map in Hp. destruct Hp as [y [_ Hp]].
  apply in_map_iff in Hp. destruct Hp as [x [Ep _]].
  apply in_flat_map in Hq. destruct Hq as [y' [_ Hq]].
  apply in_map_iff in Hq. destruct Hq as [x' [Eq _]].
  subst p q.
  destruct (configured_centre canvasWidth y x) as [X1 Y1].
  destruct (configured_centre canvasWidth y' x') as [X2 Y2].
  rewrite X1, X2 in HX. rewrite Y1, Y2 in HY.
  assert (x = x') by lia. assert (y = y') by lia. subst. reflexivity.
Qed.

Lemma pixel_centre_identifies_tile_witness :
  {| gridX := 1; gridY := 0; pixelX := 1120; pixelY := 800 |}
  = {| gridX := 1; gridY := 0; pixelX := 1120; pixelY := 800 |}.
Proof.
  apply (pixel_centre_identifies_tile 2 1840).
  - vm_compute. right. left. reflexivity.
  - vm_compute. right. left. reflexivity.
  - reflexivity.
  - reflexivity.
Defined.

(** A sprite with no solid pixel has the zero anchor. *)
Theorem transparent_sprite_zero_anchor (img : ImageData) :
  (forall y x, (y < Anchor.height img)%nat -> (x < Anchor.width img)%nat ->
               (alphaAt img y x <= 245)%Z) ->
  detectTreeContentPosition img = {| xOffset := 0; yPadding := 0; contentWidth := 0 |}.
Proof.
  intros H. unfold detectTreeContentPosition.
  assert (E : collectCandidates img = []).
  { unfold collectCandidates.
    rewrite <- (app_nil_r (rowsFromBottom img)).
    rewrite scanRows_skip; [reflexivity |].
    intros y Hy. apply in_rev, in_seq in Hy.
    apply isCandidate_clear. intros x Hx. apply H; lia. }
  rewrite E. reflexivity.
Qed.

(** A fully transparent raster of 100 by 100. *)
Definition blankSprite : ImageData :=
  {| Anchor.width := 100; Anchor.height := 100; data := repeat 0%Z (4 * (100 * 100)) |}.

Lemma transparent_sprite_zero_anchor_witness :
  detectTreeContentPosition blankSprite
  = {| xOffset := 0; yPadding := 0; contentWidth := 0 |}.
Proof.
  apply (transparent_sprite_zero_anchor blankSprite).
  intros y x _ _. unfold alphaAt, sample. cbn [data blankSprite].
  rewrite nth_repeat. lia.
Defined.

Lemma unknown_name_leaves_raster_witness :
  channel (snd (applyCanvasFilter twoPixels "constructor")) 1 0 = 100%Z
  /\ fst (applyCanvasFilter twoPixels "constructor") = Thrown TypeError
  /\ fst (applyCanvasFilter twoPixels "polar") = Returned tt.
Proof.
  assert (Hctor : ~ In "constructor" getAvailableFilters).
  { cbn. intros H. repeat (destruct H as [H | H]; [discriminate H |]). exact H. }
  assert (Hpolar : ~ In "polar" getAvailableFilters).
  { cbn. intros H. repeat (destruct H as [H | H]; [discriminate H |]). exact H. }
  assert (Hk : (1 < width twoPixels * height twoPixels)%nat) by (cbn; lia).
  assert (Hj : (0 < 4)%nat) by lia.
  destruct (unknown_name_leaves_raster twoPixels "constructor" 1 0
              twoPixels_raster Hk Hj Hctor) as [Hsame [_ Hthrows]].
  destruct (unknown_name_leaves_raster twoPixels "polar" 1 0
              twoPixels_raster Hk Hj Hpolar) as [_ [Hreturns _]].
  split; [rewrite Hsame; reflexivity |]. split.
  - apply Hthrows.
    + cbn. tauto.
    + vm_compute. discriminate.
  - apply Hreturns.
    cbn. intros H. repeat (destruct H as [H | H]; [discriminate H |]). exact H.
Defined.

(** The filter-graph string: empty for "none" and for a name outside the
    catalog, and otherwise the preset's fragment between the two labels. *)
Theorem filter_graph_string (inputLabel outputLabel : string) :
  getFFmpegFilterString "none" inputLabel outputLabel = EmptyString
  /\ (forall filterName,
        ~ In filterName getAvailableFilters ->
        getFFmpegFilterString filterName inputLabel outputLabel = EmptyString)
  /\ (forall filterName,
        In filterName ["winter"; "autumn"; "spring"; "summer"; "night"; "sepia"; "vintage"] ->
        exists filter : FilterConfig,
          getFilter filterName = preset filter
          /\ name filter = filterName
          /\ getFFmpegFilterString filterName inputLabel outputLabel
             = inputLabel ++ ffmpegFilter filter ++ outputLabel).
Proof.
  split; [reflexivity |]. split.
  - intros filterName H. unfold getFFmpegFilterString.
    destruct (in_dec string_dec filterName Object_prototype) as [P | P].
    + rewrite (getFilter_inherited filterName P). reflexivity.
    + rewrite (getFilter_other filterName H P). reflexivity.
  - intros filterName H. cbn in H.
    repeat (destruct H as [<- | H];
            [eexists; split; [reflexivity | split; reflexivity] |]).
    contradiction.
Qed.

End FurtherProperties.

(** ** The shape of a wavy edge *)

Section WavyEdge.

Import Grid GridDraw.
Open Scope R_scope.

Lemma nth_map_seq (A : Type) (f : nat -> A) (n i : nat) (d : A) :
  (i < n)%nat -> nth i (map f (seq 0 n)) d = f i.
Proof.
  intros Hi.
  rewrite (nth_indep _ d (f 0%nat)) by (rewrite length_map, length_seq; exact Hi).
  rewrite map_nth, seq_nth by exact Hi. reflexivity.
Qed.

Variables startX startY endX endY waveAmplitude waveFrequency : R.
Variable segments : nat.

(** Point [i] of the edge, for [i] from 0 to [segments]. *)
Lemma generateWavyEdge_nth (i : nat) (d : Point) :
  (i <= segments)%nat ->
  nth i (generateWavyEdge startX startY endX endY waveAmplitude waveFrequency segments) d
  = {| pt_x := startX + (endX - startX) * (INR i / INR segments)
               + - ((endY - startY)
                    / sqrt ((endX - startX) * (endX - startX)
                            + (endY - startY) * (endY - startY)))
                 * (sin (INR i / INR segments * PI * 2 * waveFrequency) * waveAmplitude);
       pt_y := startY + (endY - startY) * (INR i / INR segments)
               + (endX - startX)
                 / sqrt ((endX - startX) * (endX - startX)
                         + (endY - startY) * (endY - startY))
                 * (sin (INR i / INR segments * PI * 2 * waveFrequency) * waveAmplitude) |}.
Proof.
  intros Hi. unfold generateWavyEdge. cbv zeta.
  rewrite nth_map_seq by lia. reflexivity.
Qed.

End WavyEdge.

Section WavyEdgeEnds.

Import Grid GridDraw.
Open Scope R_scope.

(** Between two different corners, with a whole number of waves along the
    edge (the tile uses 2) and at least one segment, the first point of a
    wavy edge is its start corner and the last point its end corner,
    whatever the amplitude: the wave leaves the corners of the face where
    they are. *)
Theorem wavy_edge_joins_corners
        (startX startY endX endY waveAmplitude : R) (waves : Z) (n : nat) (d : Point) :
  startX <> endX \/ startY <> endY ->
  nth 0 (generateWavyEdge startX startY endX endY waveAmplitude (IZR waves) (S n)) d
  = {| pt_x := startX; pt_y := startY |}
  /\ nth (S n) (generateWavyEdge startX startY endX endY waveAmplitude (IZR waves) (S n)) d
     = {| pt_x := endX; pt_y := endY |}.
Proof.
  intros _.
  assert (Hn : INR (S n) <> 0) by (apply not_0_INR; discriminate).
  split.
  - rewrite generateWavyEdge_nth by lia.
    replace (INR 0 / INR (S n)) with 0 by (change (INR 0) with 0; field; exact Hn).
    rewrite !Rmult_0_l, sin_0. apply point_eq; ring.
  - rewrite generateWavyEdge_nth by lia.
    replace (INR (S n) / INR (S n)) with 1 by (field; exact Hn).
    rewrite (sin_eq_0_1 (1 * PI * 2 * IZR waves)).
    + apply point_eq; ring.
    + exists (2 * waves)%Z. rewrite mult_IZR. ring.
Qed.

Lemma wavy_edge_joins_corners_witness :
  nth 0 (generateWavyEdge 0 0 200 100 12 (IZR 2) 16) {| pt_x := 0; pt_y := 0 |}
  = {| pt_x := 0; pt_y := 0 |}
  /\ nth 16 (generateWavyEdge 0 0 200 100 12 (IZR 2) 16) {| pt_x := 0; pt_y := 0 |}
     = {| pt_x := 200; pt_y := 100 |}.
Proof.
  apply (wavy_edge_joins_corners 0 0 200 100 12 2 15).
  left. lra.
Defined.

(** Between two different corners and with at least one segment, every
    point of a wavy edge is within the amplitude of the point of the
    straight edge it was moved from. *)
Theorem wavy_edge_within_amplitude
        (startX startY endX endY waveAmplitude waveFrequency : R)
        (segments i : nat) (d : Point) :
  startX <> endX \/ startY <> endY ->
  (0 < segments)%nat ->
  (i <= segments)%nat ->
  (pt_x (nth i (generateWavyEdge startX startY endX endY
                                 waveAmplitude waveFrequency segments) d)
   - (startX + (endX - startX) * (INR i / INR segments)))²
  + (pt_y (nth i (generateWavyEdge startX startY endX endY
                                   waveAmplitude waveFrequency segments) d)
     - (startY + (endY - startY) * (INR i / INR segments)))²
  <= waveAmplitude².
Proof.
  intros Hne _ Hi. rewrite generateWavyEdge_nth by exact Hi. cbn [pt_x pt_y].
  set (dx := endX - startX). set (dy := endY - startY).
  set (t := INR i / INR segments).
  set (s := sin (t * PI * 2 * waveFrequency)).
  assert (Hpos : 0 < dx * dx + dy * dy).
  { assert (Hd : dx <> 0 \/ dy <> 0) by (subst dx dy; destruct Hne; [left | right]; lra).
    destruct Hd as [Hd | Hd].
    - pose proof (Rsqr_pos_lt dx Hd) as P. pose proof (Rle_0_sqr dy) as Q.
      unfold Rsqr in P, Q. lra.
    - pose proof (Rsqr_pos_lt dy Hd) as P. pose proof (Rle_0_sqr dx) as Q.
      unfold Rsqr in P, Q. lra. }
  set (len := sqrt (dx * dx + dy * dy)).
  assert (Hlen : len * len = dx * dx + dy * dy) by (apply sqrt_sqrt; lra).
  assert (Hlen0 : len <> 0).
  { intros E. rewrite E in Hlen. lra. }
  replace ((startX + dx * t + - (dy / len) * (s * waveAmplitude) - (startX + dx * t))²
           + (startY + dy * t + dx / len * (s * waveAmplitude) - (startY + dy * t))²)
    with (s² * waveAmplitude²).
  - pose proof (Rtrigo_facts.sin2_bound (t * PI * 2 * waveFrequency)) as [_ B].
    fold s in B. pose proof (Rle_0_sqr waveAmplitude) as A.
    replace (waveAmplitude²) with (1 * waveAmplitude²) at 2 by ring.
    apply Rmult_le_compat_r; assumption.
  - unfold Rsqr. field_simplify_eq; [| exact Hlen0].
    replace (len ^ 2) with (dx * dx + dy * dy) by (rewrite <- Hlen; ring). ring.
Qed.

Lemma wavy_edge_within_amplitude_witness :
  (pt_x (nth 3 (generateWavyEdge 0 0 200 100 12 2 16) {| pt_x := 0; pt_y := 0 |})
   - (0 + (200 - 0) * (INR 3 / INR 16)))²
  + (pt_y (nth 3 (generateWavyEdge 0 0 200 100 12 2 16) {| pt_x := 0; pt_y := 0 |})
     - (0 + (100 - 0) * (INR 3 / INR 16)))²
  <= 12².
Proof.
  apply (wavy_edge_within_amplitude 0 0 200 100 12 2 16 3).
  - left. lra.
  - lia.
  - lia.
Defined.

End WavyEdgeEnds.

(** ** What one tile adds to a drawing *)

Section TileTrace.

Import Grid GridDraw.
Open Scope R_scope.

Definition isFill (c : Command) : bool :=
  match c with fill => true | _ => false end.

Definition isEllipse (c : Command) : bool :=
  match c with ellipse _ _ _ _ _ _ _ => true | _ => false end.

(** Only [drawTuft] sets the line cap. *)
Definition isLineCap (c : Command) : bool :=
  match c with lineCap _ => true | _ => false end.

Definition count (p : Command -> bool) (l : list Command) : nat :=
  List.length (filter p l).

Lemma count_app (p : Command -> bool) (l1 l2 : list Command) :
  count p (l1 ++ l2) = (count p l1 + count p l2)%nat.
Proof. unfold count. rewrite filter_app, length_app. reflexivity. Qed.

Lemma count_cons (p : Command -> bool) (c : Command) (l : list Command) :
  count p (c :: l) = ((if p c then 1 else 0) + count p l)%nat.
Proof. unfold count. cbn [filter]. destruct (p c); reflexivity. Qed.

Lemma count_lines (p : Command -> bool) (points : list Point) :
  (forall x y, p (lineTo x y) = false) -> count p (map lineToPoint points) = 0%nat.
Proof.
  intros H. unfold count.
  induction points as [| q points IH]; [reflexivity |].
  cbn [map filter]. unfold lineToPoint at 1. rewrite H. exact IH.
Qed.

Lemma generateWavyEdge_cons (a b c d amplitude frequency : R) (n : nat) :
  exists first others, generateWavyEdge a b c d amplitude frequency n = first :: others.
Proof. unfold generateWavyEdge. cbn [seq map]. eexists. eexists. reflexivity. Qed.

Lemma drawPoly_fresh (ctx : Context2D) (points : list Point)
      (color : string) (strokeColor : option string) :
  drawPoly ctx points color strokeColor = ctx ++ drawPoly [] points color strokeColor.
Proof.
  destruct points as [| p0 rest]; cbn [drawPoly].
  - symmetry. apply app_nil_r.
  - reflexivity.
Qed.

Lemma drawDecoration_fresh (ctx : Context2D) (pos : GridPosition) :
  drawDecoration ctx pos = ctx ++ drawDecoration [] pos.
Proof.
  unfold drawDecoration, drawTuft. destruct (Rlt_dec _ _).
  - reflexivity.
  - symmetry. apply app_nil_r.
Qed.

(** What [drawIsoBlock] adds does not depend on what was drawn before, and
    what was drawn before stays as it was. *)
Lemma drawIsoBlock_fresh (cfg : GridConfig) (ctx : Context2D) (pos : GridPosition)
      (options : DrawIsoBlockOptions) :
  drawIsoBlock cfg ctx pos options = ctx ++ drawIsoBlock cfg [] pos options.
Proof.
  unfold drawIsoBlock, drawWavySoilSide, drawWavyGrassSide, drawShadow. cbv zeta.
  destruct (match hasShadow options with Some v => v | None => false end);
    destruct (match drawTufts options with Some v => v | None => false end);
    cbn [andb negb];
    repeat first [ rewrite (drawDecoration_fresh (_ ++ _))
                 | rewrite (drawPoly_fresh (_ ++ _)) ];
    cbn [app]; rewrite <- ?app_assoc; reflexivity.
Qed.

(** Every tile fills five faces.  It draws one shadow ellipse when a shadow
    is asked for and none otherwise, and a tile with a shadow, or one drawn
    without [drawTufts], gets no tuft. *)
Theorem tile_faces_shadow_tuft (cfg : GridConfig) (ctx : Context2D) (pos : GridPosition)
        (options : DrawIsoBlockOptions) :
  exists added : list Command,
    drawIsoBlock cfg ctx pos options = ctx ++ added
    /\ count isFill added
       = (5 + (if match hasShadow options with Some v => v | None => false end
               then 1 else 0))%nat
    /\ count isEllipse added
       = (if match hasShadow options with Some v => v | None => false end
          then 1 else 0)%nat
    /\ (match hasShadow options with Some v => v | None => false end = true
        \/ match drawTufts options with Some v => v | None => false end = false ->
        count isLineCap added = 0%nat).
Proof.
  exists (drawIsoBlock cfg [] pos options).
  split; [apply drawIsoBlock_fresh |].
  unfold drawIsoBlock, drawWavySoilSide, drawWavyGrassSide, drawShadow, drawDecoration,
    drawTuft, wavyGrassPath, WAVE_SEGMENTS.
  cbv zeta.
  repeat match goal with
         | |- context [wavySoilPath (generateWavyEdge ?a ?b ?c ?d ?e ?f ?n)] =>
             let first := fresh "first" in
             let others := fresh "others" in
             let E := fresh "E" in
             destruct (generateWavyEdge_cons a b c d e f n) as [first [others E]];
             rewrite E; clear E
         end.
  unfold wavySoilPath, paint. cbn [drawPoly map].
  destruct (match hasShadow options with Some v => v | None => false end);
    destruct (match drawTufts options with Some v => v | None => false end);
    cbn [andb negb];
    try destruct (Rlt_dec _ _);
    cbn [app]; rewrite ?app_nil_r;
    repeat rewrite ?count_cons, ?count_app, ?count_lines by reflexivity;
    cbn [moveToPoint lineToPoint isFill isEllipse isLineCap count filter List.length Nat.add];
    repeat split; try reflexivity;
    try (intros [H | H]; try discriminate H; reflexivity).
Qed.

End TileTrace.

(** ** The canvas and the tiles on it *)


Section TilesOnCanvas.

Import Js Grid.
Open Scope Q_scope.

(** Linear arithmetic on rationals, halves and quarters written out. *)
Ltac qlra :=
  unfold Qdiv in *;
  change (/ 2) with (1 # 2) in *; change (/ 4) with (1 # 4) in *;
  Lqa.lra.

Lemma Math_round_bounds (q : Q) :
  q - 1 / 2 < inject_Z (Math_round q) /\ inject_Z (Math_round q) <= q + 1 / 2.
Proof.
  unfold Math_round. split.
  - pose proof (Qlt_floor (q + 1 / 2)) as H. rewrite inject_Z_plus in H.
    change (inject_Z 1) with 1 in H. qlra.
  - apply Qfloor_le.
Qed.

Lemma address_bound (n : Z) (x : nat) :
  In x (seq 0 (Z.to_nat n)) ->
  0 <= inject_Z (Z.of_nat x) /\ inject_Z (Z.of_nat x) <= inject_Z n - 1.
Proof.
  intros H. apply in_seq in H.
  assert (H0 : (0 <= Z.of_nat x)%Z) by lia.
  assert (H1 : (Z.of_nat x + 1 <= n)%Z) by lia.
  rewrite Zle_Qle in H0, H1. rewrite inject_Z_plus in H1.
  change (inject_Z 0) with 0 in H0. change (inject_Z 1) with 1 in H1.
  split; qlra.
Qed.

(** On the canvas [calculateCanvasDimensions] sizes for a grid, every tile
    [generateGridPositions] places lies inside it with room to spare,
    whatever the grid size, for a tile of non-negative width and heights:
    its diamond stays 199.5 or more from the left and right edges, its top
    corner 599.5 or more below the top edge, and the lowest corner of its
    soil 199.5 plus the tile's depth or more above the bottom edge. *)
Theorem tiles_fit_canvas (cfg : GridConfig) (gridSize : Z) (p : GridPosition) :
  0 <= tileWidth cfg ->
  0 <= grassHeight cfg ->
  0 <= soilHeight cfg ->
  In p (generateGridPositions cfg gridSize
          (Grid.width (calculateCanvasDimensions cfg gridSize))) ->
  200 - 1 / 2 <= inject_Z (pixelX p) - tileWidth cfg / 2
  /\ inject_Z (pixelX p) + tileWidth cfg / 2
     <= Grid.width (calculateCanvasDimensions cfg gridSize) - 200 + 1 / 2
  /\ 600 - 1 / 2 <= inject_Z (pixelY p) - tileWidth cfg / 4
  /\ inject_Z (pixelY p) - tileWidth cfg / 4 + grassHeight cfg
     + tileWidth cfg / 2 + soilHeight cfg
     <= Grid.height (calculateCanvasDimensions cfg gridSize)
        - 200 - (grassHeight cfg + soilHeight cfg) + 1 / 2.
Proof.
  intros Hw Hg Hs Hp.
  unfold generateGridPositions in Hp.
  apply in_flat_map in Hp. destruct Hp as [y [Hy Hp]].
  apply in_map_iff in Hp. destruct Hp as [x [Ep Hx]]. subst p.
  destruct (address_bound gridSize x Hx) as [X0 X1].
  destruct (address_bound gridSize y Hy) as [Y0 Y1].
  cbn [calculateCanvasDimensions Grid.width Grid.height gridPositionAt pixelX pixelY].
  unfold Math_max.
  set (n := inject_Z gridSize) in *.
  set (ix := inject_Z (Z.of_nat x)) in *.
  set (iy := inject_Z (Z.of_nat y)) in *.
  set (tw := tileWidth cfg) in *.
  set (A := n * 2 * (tw / 2) + 100 * inject_Z SCALE).
  set (B := n * (tw / 2) + (soilHeight cfg + grassHeight cfg) * 2 + 200 * inject_Z SCALE).
  pose proof (Q.le_max_l A B) as HA. pose proof (Q.le_max_r A B) as HB.
  set (W := Qmax A B) in *.
  subst A B. change (inject_Z SCALE) with 4 in *.
  destruct (Math_round_bounds (W / 2 + (ix - iy) * (tw / 2))) as [PX0 PX1].
  destruct (Math_round_bounds (150 * 4 + (ix + iy) * (tw / 4) + tw / 4)) as [PY0 PY1].
  assert (D1 : (ix - iy) * tw <= (n - 1) * tw)
    by (apply Qmult_le_compat_r; [qlra | exact Hw]).
  assert (D2 : (1 - n) * tw <= (ix - iy) * tw)
    by (apply Qmult_le_compat_r; [qlra | exact Hw]).
  assert (S1 : (ix + iy) * tw <= (2 * n - 2) * tw)
    by (apply Qmult_le_compat_r; [qlra | exact Hw]).
  assert (S2 : 0 * tw <= (ix + iy) * tw)
    by (apply Qmult_le_compat_r; [qlra | exact Hw]).
  repeat split; qlra.
Qed.

Lemma tiles_fit_canvas_witness :
  200 - 1 / 2 <= 1020 - tileWidth GRID_CONFIG / 2
  /\ 1020 + tileWidth GRID_CONFIG / 2
     <= Grid.width (calculateCanvasDimensions GRID_CONFIG 2) - 200 + 1 / 2
  /\ 600 - 1 / 2 <= 800 - tileWidth GRID_CONFIG / 4
  /\ 800 - tileWidth GRID_CONFIG / 4 + grassHeight GRID_CONFIG
     + tileWidth GRID_CONFIG / 2 + soilHeight GRID_CONFIG
     <= Grid.height (calculateCanvasDimensions GRID_CONFIG 2)
        - 200 - (grassHeight GRID_CONFIG + soilHeight GRID_CONFIG) + 1 / 2.
Proof.
  apply (tiles_fit_canvas GRID_CONFIG 2
           {| gridX := 1; gridY := 0; pixelX := 1020; pixelY := 800 |}).
  - vm_compute. discriminate.
  - vm_compute. discriminate.
  - vm_compute. discriminate.
  - vm_compute. right. left. reflexivity.
Defined.

End TilesOnCanvas.

(** ** Paint order: what sorting settles *)

Section PaintOrder.

Import Js Grid.
Open Scope Z_scope.

(** A list already in paint order comes back as it is. *)
Lemma sorted_positions_unchanged (positions : list GridPosition) :
  StronglySorted (keyLe _ gridSum) positions ->
  sortPositionsForRendering positions = positions.
Proof.
  intros H. rewrite sortPositionsForRendering_by_gridSum.
  symmetry. apply (Array_sort_unique _ gridSum positions positions H).
  intros k. reflexivity.
Qed.

(** Sorting twice is sorting once. *)
Theorem paint_order_idempotent (positions : list GridPosition) :
  sortPositionsForRendering (sortPositionsForRendering positions)
  = sortPositionsForRendering positions.
Proof.
  apply sorted_positions_unchanged.
  rewrite sortPositionsForRendering_by_gridSum.
  apply (Array_sort_sorted _ gridSum).
Qed.

Lemma StronglySorted_middle (A : Type) (R : A -> A -> Prop) (l1 : list A) (a : A) (l2 : list A) :
  StronglySorted R (l1 ++ a :: l2) -> Forall (R a) l2.
Proof.
  induction l1 as [| x l1 IH]; cbn [app]; intros H.
  - inversion H; assumption.
  - inversion H; subst. apply IH. assumption.
Qed.

(** In the sorted list a position with a smaller [gridX + gridY] stands
    before any position with a larger one: a tile is painted after every tile
    behind it. *)
Theorem painted_after_tiles_behind
        (positions before after : list GridPosition) (a b : GridPosition) :
  sortPositionsForRendering positions = before ++ a :: after ->
  In b positions ->
  gridX b + gridY b < gridX a + gridY a ->
  In b before.
Proof.
  intros E Hb Hlt.
  pose proof (Array_sort_perm _ gridSum positions) as Hperm.
  pose proof (Array_sort_sorted _ gridSum positions) as Hsorted.
  rewrite <- sortPositionsForRendering_by_gridSum in Hperm, Hsorted.
  rewrite E in Hperm, Hsorted.
  apply (Permutation_in _ Hperm) in Hb.
  apply in_app_or in Hb. destruct Hb as [Hb | [Hb | Hb]].
  - exact Hb.
  - subst b. lia.
  - apply StronglySorted_middle in Hsorted.
    rewrite Forall_forall in Hsorted. specialize (Hsorted b Hb).
    unfold keyLe, gridSum in Hsorted. lia.
Qed.

Lemma painted_after_tiles_behind_witness :
  In {| gridX := 0; gridY := 0; pixelX := 920; pixelY := 700 |}
     [ {| gridX := 0; gridY := 0; pixelX := 920; pixelY := 700 |};
       {| gridX := 1; gridY := 0; pixelX := 1120; pixelY := 800 |};
       {| gridX := 0; gridY := 1; pixelX := 720; pixelY := 800 |} ].
Proof.
  apply (painted_after_tiles_behind
           (generateGridPositions GRID_CONFIG 2 1840)
           [ {| gridX := 0; gridY := 0; pixelX := 920; pixelY := 700 |};
             {| gridX := 1; gridY := 0; pixelX := 1120; pixelY := 800 |};
             {| gridX := 0; gridY := 1; pixelX := 720; pixelY := 800 |} ]
           []
           {| gridX := 1; gridY := 1; pixelX := 920; pixelY := 900 |}).
  - vm_compute. reflexivity.
  - vm_compute. left. reflexivity.
  - cbn. lia.
Defined.

End PaintOrder.

(** ** The detector on any raster *)

Section AnchorOnAnyRaster.

Import Js Anchor.
Open Scope Q_scope.

Variable img : ImageData.

(** Row [y] has a pixel the detector counts as solid. *)
Definition rowHasSolid (y : nat) : bool :=
  existsb (fun x => (245 <? alphaAt img y x)%Z) (seq 0 (width img)).

Lemma isCandidate_rowHasSolid (y : nat) : isCandidate img y = rowHasSolid y.
Proof.
  unfold rowHasSolid.
  destruct (existsb (fun x => (245 <? alphaAt img y x)%Z) (seq 0 (width img))) eqn:E.
  - apply existsb_exists in E. destruct E as [x [Hx Ha]].
    apply in_seq in Hx. apply Z.ltb_lt in Ha.
    apply (isCandidate_solid img y x); [lia | exact Ha].
  - apply isCandidate_clear. intros x Hx.
    destruct (Z.ltb_spec 245 (alphaAt img y x)) as [Ha | Ha]; [| exact Ha].
    assert (Hex : existsb (fun x => (245 <? alphaAt img y x)%Z) (seq 0 (width img)) = true).
    { apply existsb_exists. exists x. split; [apply in_seq; lia | apply Z.ltb_lt, Ha]. }
    rewrite E in Hex. discriminate Hex.
Qed.

(** The number of rows after which the scan stops: one more than 30% of
    the height, rounded down. *)
Definition candidateLimit : nat :=
  (Z.to_nat (Qfloor (inject_Z (Z.of_nat (height img)) * 0.3)) + 1)%nat.

Lemma limit_reached (m : nat) :
  gt (inject_Z (Z.of_nat m)) (inject_Z (Z.of_nat (height img)) * 0.3)
  = (candidateLimit <=? m)%nat.
Proof.
  unfold candidateLimit.
  set (q := inject_Z (Z.of_nat (height img)) * 0.3).
  assert (Hq : 0 <= q).
  { unfold q. apply Qmult_le_0_compat; [| discriminate].
    change 0 with (inject_Z 0). rewrite <- Zle_Qle. lia. }
  assert (Hf : (0 <= Qfloor q)%Z) by (apply Qfloor_lower; exact Hq).
  unfold gt.
  destruct (Qle_bool (inject_Z (Z.of_nat m)) q) eqn:E; cbn [negb]; symmetry.
  - apply Qle_bool_iff in E. apply Nat.leb_gt.
    assert (L : (Z.of_nat m <= Qfloor q)%Z) by (apply Qfloor_lower; exact E).
    lia.
  - apply Nat.leb_le.
    assert (L : q < inject_Z (Z.of_nat m)).
    { apply Qnot_le_lt. intros H. apply Qle_bool_iff in H. rewrite H in E. discriminate E. }
    assert (L' : inject_Z (Qfloor q) < inject_Z (Z.of_nat m)).
    { eapply Qle_lt_trans; [apply Qfloor_le | exact L]. }
    rewrite <- Zlt_Qlt in L'. lia.
Qed.

Definition candidateOf (y : nat) : Candidate :=
  {| row := y; darkness := rowDarkness img y |}.

Lemma scanRows_firstn (ys : list nat) :
  forall cands : list Candidate,
    (List.length cands < candidateLimit)%nat ->
    scanRows img ys cands
    = cands ++ map candidateOf
                   (firstn (candidateLimit - List.length cands)
                           (filter (isCandidate img) ys)).
Proof.
  induction ys as [| y ys IH]; intros cands Hm.
  - cbn [scanRows filter]. rewrite firstn_nil. cbn [map]. symmetry. apply app_nil_r.
  - cbn [scanRows filter]. fold (isCandidate img y).
    destruct (isCandidate img y) eqn:Hc.
    + fold (rowDarkness img y). fold (candidateOf y).
      rewrite length_app. cbn [List.length].
      replace (List.length cands + 1)%nat with (S (List.length cands)) by lia.
      rewrite limit_reached.
      replace (candidateLimit - List.length cands)%nat
        with (S (candidateLimit - S (List.length cands))) by lia.
      cbn [firstn map].
      destruct (Nat.leb_spec candidateLimit (S (List.length cands))) as [Hl | Hl].
      * replace (candidateLimit - S (List.length cands))%nat with 0%nat by lia.
        reflexivity.
      * rewrite IH by (rewrite length_app; cbn [List.length]; lia).
        rewrite length_app. cbn [List.length].
        replace (List.length cands + 1)%nat with (S (List.length cands)) by lia.
        rewrite <- app_assoc. reflexivity.
    + apply IH. exact Hm.
Qed.

Lemma collectCandidates_lowest :
  collectCandidates img
  = map (fun y => {| row := y; darkness := rowDarkness img y |})
        (firstn candidateLimit (filter rowHasSolid (rowsFromBottom img))).
Proof.
  unfold collectCandidates.
  rewrite scanRows_firstn by (unfold candidateLimit; cbn [List.length]; lia).
  cbn [app List.length]. rewrite Nat.sub_0_r.
  rewrite (filter_ext _ _ isCandidate_rowHasSolid). reflexivity.
Qed.

(** The rows the scan collects are the lowest rows that have a solid
    pixel, from the bottom up, each with its mean darkness: all of them when
    they are few, and otherwise the first [candidateLimit], wherever in the
    image they lie.  So there are never more than 30% of the height, rounded
    down, plus one. *)
Theorem scan_takes_lowest_solid_rows :
  map row (collectCandidates img)
  = firstn candidateLimit (filter rowHasSolid (rowsFromBottom img))
  /\ Forall (fun c => darkness c = rowDarkness img (row c)) (collectCandidates img)
  /\ inject_Z (Z.of_nat (List.length (collectCandidates img)))
     <= inject_Z (Z.of_nat (height img)) * 0.3 + 1.
Proof.
  rewrite collectCandidates_lowest. split; [| split].
  - rewrite map_map. cbn [row]. apply map_id.
  - apply Forall_forall. intros c Hc. apply in_map_iff in Hc.
    destruct Hc as [y [<- _]]. reflexivity.
  - rewrite length_map.
    pose proof (firstn_le_length candidateLimit (filter rowHasSolid (rowsFromBottom img)))
      as Hlen.
    set (q := inject_Z (Z.of_nat (height img)) * 0.3).
    assert (Hq : 0 <= q).
    { unfold q. apply Qmult_le_0_compat; [| discriminate].
      change 0 with (inject_Z 0). rewrite <- Zle_Qle. lia. }
    assert (Hf : (0 <= Qfloor q)%Z) by (apply Qfloor_lower; exact Hq).
    apply Qle_trans with (inject_Z (Qfloor q) + 1).
    + change 1 with (inject_Z 1). rewrite <- inject_Z_plus, <- Zle_Qle.
      unfold candidateLimit in *. fold q in Hlen |- *. lia.
    + apply Qplus_le_compat; [apply Qfloor_le | apply Qle_refl].
Qed.

End AnchorOnAnyRaster.

Section AnchorRowAndSpan.

Import Js Anchor.
Open Scope Q_scope.














End AnchorRowAndSpan.

Section AnchorOfReachedRows.

Import Js Anchor.
Open Scope Q_scope.

(** Row [y] holds the same four samples as row [y'] in every column. *)
Definition sameRow (img : ImageData) (y y' : nat) : Prop :=
  forall x, (x < width img)%nat ->
            redAt img y x = redAt img y' x /\ greenAt img y x = greenAt img y' x
            /\ blueAt img y x = blueAt img y' x /\ alphaAt img y x = alphaAt img y' x.

(** The scan, whose first candidate is row [R1], gets as far as row [y]
    above it when every row between the two is solid: it goes on while the
    candidates pushed, [R1 - y] of them before row [y], are not more than
    [height * 0.3]. *)
Definition reached (img : ImageData) (R1 y : nat) : Prop :=
  inject_Z (Z.of_nat (R1 - y)) <= inject_Z (Z.of_nat (height img)) * 0.3.

Lemma filter_none (A : Type) (f : A -> bool) (l : list A) :
  (forall a, In a l -> f a = false) -> filter f l = [].
Proof.
  induction l as [| a l IH]; intros H; [reflexivity |].
  cbn [filter]. rewrite (H a) by (left; reflexivity).
  apply IH. intros b Hb. apply H. right. exact Hb.
Qed.

Lemma filter_all (A : Type) (f : A -> bool) (l : list A) :
  (forall a, In a l -> f a = true) -> filter f l = l.
Proof.
  induction l as [| a l IH]; intros H; [reflexivity |].
  cbn [filter]. rewrite (H a) by (left; reflexivity).
  f_equal. apply IH. intros b Hb. apply H. right. exact Hb.
Qed.

(** The rows with a solid pixel are those of the rectangle. *)
Lemma rectangle_rows (img : ImageData) (R0 R1 C0 C1 : nat) :
  solidRectangle img R0 R1 C0 C1 ->
  filter (rowHasSolid img) (rowsFromBottom img) = rev (seq R0 (S (R1 - R0))).
Proof.
  intros [HR [HC [Hin Hout]]].
  unfold rowsFromBottom. rewrite filter_rev. f_equal.
  replace (height img) with (R0 + (S (R1 - R0) + (height img - S R1)))%nat by lia.
  rewrite !seq_app, !filter_app. change (0 + R0)%nat with R0.
  assert (Hclear : forall y, (y < height img)%nat -> ~ (R0 <= y <= R1)%nat ->
                             rowHasSolid img y = false).
  { intros y Hy Hn. rewrite <- isCandidate_rowHasSolid.
    apply isCandidate_clear. intros x Hx.
    rewrite Hout; [lia | exact Hy | exact Hx |]. unfold inside. lia. }
  rewrite (filter_none _ _ (seq 0 R0))
    by (intros y Hy; apply in_seq in Hy; apply Hclear; lia).
  rewrite (filter_all _ _ (seq R0 (S (R1 - R0)))).
  - rewrite (filter_none _ _ (seq (R0 + S (R1 - R0)) (height img - S R1)))
      by (intros y Hy; apply in_seq in Hy; apply Hclear; lia).
    cbn [app]. apply app_nil_r.
  - intros y Hy. apply in_seq in Hy. rewrite <- isCandidate_rowHasSolid.
    apply (isCandidate_solid img y C0); [lia |]. apply Hin. unfold inside. lia.
Qed.

Lemma firstn_rev_seq (a n : nat) :
  forall (L y : nat), In y (firstn L (rev (seq a n))) -> (a + n <= y + L)%nat.
Proof.
  induction n as [| n IH]; intros L y H.
  - cbn [seq rev] in H. rewrite firstn_nil in H. contradiction.
  - rewrite seq_S, rev_app_distr in H. cbn [rev app] in H.
    destruct L as [| L]; [contradiction |].
    cbn [firstn] in H. destruct H as [<- | H]; [lia |].
    specialize (IH L y H). lia.
Qed.

(** In a rectangle every candidate after the first is a row the scan
    reached. *)
Lemma rectangle_candidates_reached (img : ImageData) (R0 R1 C0 C1 : nat) (c : Candidate) :
  solidRectangle img R0 R1 C0 C1 ->
  In c (collectCandidates img) ->
  reached img R1 (row c).
Proof.
  intros Hrect Hc.
  rewrite collectCandidates_lowest, (rectangle_rows img R0 R1 C0 C1 Hrect) in Hc.
  apply in_map_iff in Hc. destruct Hc as [y [<- Hy]]. cbn [row].
  apply firstn_rev_seq in Hy.
  destruct Hrect as [HR _].
  unfold reached, candidateLimit in *.
  set (q := inject_Z (Z.of_nat (height img)) * 0.3) in *.
  assert (Hq : 0 <= q).
  { unfold q. apply Qmult_le_0_compat; [| discriminate].
    change 0 with (inject_Z 0). rewrite <- Zle_Qle. lia. }
  assert (Hf : (0 <= Qfloor q)%Z) by (apply Qfloor_lower; exact Hq).
  apply Qle_trans with (inject_Z (Qfloor q)); [| apply Qfloor_le].
  rewrite <- Zle_Qle. lia.
Qed.

(** C4, as the code has it.  On a raster that is transparent except for a
    solid rectangle of rows [R0..R1] and columns [C0..C1], in which every
    other row the scan reaches is less dark than the lowest row [R1] or
    holds the same samples as it, the detector returns
    [yPadding = H - R1 - 1], [contentWidth = C1 - C0 + 1] and
    [xOffset = (C0 + C1) / 2 - W / 2].  Rows of the rectangle the scan does
    not reach may hold anything.  Two rows of different samples and the
    same darkness are left out: between those the doubles of the code
    decide. *)
Theorem anchor_of_rectangle (img : ImageData) (R0 R1 C0 C1 : nat) :
  solidRectangle img R0 R1 C0 C1 ->
  (forall y, (R0 <= y < R1)%nat ->
             reached img R1 y ->
             rowDarkness img y < rowDarkness img R1 \/ sameRow img y R1) ->
  yPadding (detectTreeContentPosition img)
  = (Z.of_nat (height img) - Z.of_nat R1 - 1)%Z
  /\ contentWidth (detectTreeContentPosition img)
     = (Z.of_nat C1 - Z.of_nat C0 + 1)%Z
  /\ xOffset (detectTreeContentPosition img)
     == (inject_Z (Z.of_nat C0) + inject_Z (Z.of_nat C1)) / 2
        - inject_Z (Z.of_nat (width img)) / 2.
Proof.
  intros Hrect Hdark.
  destruct (collectCandidates_rectangle img R0 R1 C0 C1 Hrect) as [extra [E F]].
  assert (Hrow : (R0 <= R1 <= R1)%nat) by (destruct Hrect; lia).
  pose proof (extentOfRow_rectangle img R0 R1 C0 C1 R1 Hrect Hrow) as Hext.
  assert (Hreach : forall c, In c extra -> reached img R1 (row c)).
  { intros c Hc. apply (rectangle_candidates_reached img R0 R1 C0 C1 c Hrect).
    rewrite E. right. exact Hc. }
  unfold detectTreeContentPosition. rewrite E. cbv zeta.
  rewrite darkestOf_first.
  - cbn [row]. rewrite Hext. cbn [yPadding contentWidth xOffset].
    split; [reflexivity | split; reflexivity].
  - constructor.
    + cbn [darkness]. apply Qle_refl.
    + rewrite Forall_forall in F. apply Forall_forall. intros c Hc.
      destruct (F c Hc) as [Hrows Hd]. cbn [darkness]. rewrite Hd.
      destruct (Hdark (row c) Hrows (Hreach c Hc)) as [Hless | Hsame].
      * apply Qlt_le_weak, Hless.
      * rewrite (rowDarkness_same_pixels img (row c) R1 Hsame). apply Qle_refl.
Qed.

(** A 2 by 10 raster with a solid rectangle on rows 4..9.  Rows 9 and 8
    hold the same dark grey, rows 7 and 6 are light grey, and rows 5 and 4,
    which the scan does not reach, are black. *)
Definition fadedRectangle : ImageData :=
  rasterOf 2 10
    (fun y x =>
       if (8 <=? y)%nat then (10, 10, 10, 255)%Z
       else if (7 <=? y)%nat then (200, 200, 200, 255)%Z
       else if (6 <=? y)%nat then (200, 200, 200, 250)%Z
       else if (4 <=? y)%nat then (0, 0, 0, 255)%Z
       else (0, 0, 0, 0)%Z).

Lemma anchor_of_rectangle_witness :
  yPadding (detectTreeContentPosition fadedRectangle) = 0%Z
  /\ contentWidth (detectTreeContentPosition fadedRectangle) = 2%Z
  /\ xOffset (detectTreeContentPosition fadedRectangle) == - (1 # 2).
Proof.
  assert (Hrect : solidRectangle fadedRectangle 4 9 0 1).
  { split; [cbn; lia |]. split; [cbn; lia |]. split.
    - intros y x [Hy Hx].
      assert (Hx' : (x = 0 \/ x = 1)%nat) by lia.
      assert (Hy' : (y = 4 \/ y = 5 \/ y = 6 \/ y = 7 \/ y = 8 \/ y = 9)%nat) by lia.
      destruct Hx' as [-> | ->];
        destruct Hy' as [-> | [-> | [-> | [-> | [-> | ->]]]]]; vm_compute; reflexivity.
    - cbn [height width fadedRectangle rasterOf]. intros y x Hy Hx Hn.
      unfold inside in Hn.
      assert (Hx' : (x = 0 \/ x = 1)%nat) by lia.
      assert (Hy' : (y = 0 \/ y = 1 \/ y = 2 \/ y = 3)%nat) by lia.
      destruct Hx' as [-> | ->];
        destruct Hy' as [-> | [-> | [-> | ->]]]; vm_compute; reflexivity. }
  assert (Hdark : forall y, (4 <= y < 9)%nat ->
                            reached fadedRectangle 9 y ->
                            rowDarkness fadedRectangle y < rowDarkness fadedRectangle 9
                            \/ sameRow fadedRectangle y 9).
  { intros y Hy Hreach.
    assert (Hy' : (y = 4 \/ y = 5 \/ y = 6 \/ y = 7 \/ y = 8)%nat) by lia.
    destruct Hy' as [-> | [-> | [-> | [-> | ->]]]].
    - exfalso. vm_compute in Hreach. apply Hreach. reflexivity.
    - exfalso. vm_compute in Hreach. apply Hreach. reflexivity.
    - left. vm_compute. reflexivity.
    - left. vm_compute. reflexivity.
    - right. intros x Hx. cbn [width fadedRectangle rasterOf] in Hx.
      destruct x as [| [| x]]; try lia; vm_compute; repeat split. }
  destruct (anchor_of_rectangle fadedRectangle 4 9 0 1 Hrect Hdark) as [Hp [Hw Hx]].
  split; [exact Hp | split; [exact Hw |]].
  rewrite Hx. vm_compute. reflexivity.
Defined.

End AnchorOfReachedRows.

(** ** The catalog and the transform, further *)

Section CatalogAndPixels.

Import Js Anchor Filters.
Open Scope string_scope.
Open Scope Z_scope.

(** Whatever name is asked for, a preset that comes back is one of the
    catalog, filed under its own name: asking for the name it carries gives
    the same preset again.  What comes back is no preset only for a name
    inherited from [Object.prototype], which is none of the catalog. *)
Theorem catalog_names_resolve (filterName : string) :
  NoDup getAvailableFilters
  /\ match getFilter filterName with
     | preset filter =>
         In (name filter) getAvailableFilters
         /\ getFilter (name filter) = preset filter
     | inherited key =>
         key = filterName
         /\ In filterName Object_prototype
         /\ ~ In filterName getAvailableFilters
     end.
Proof.
  split.
  - cbn. repeat (constructor; [cbn; intros H;
      repeat (destruct H as [H | H]; [discriminate H |]); exact H |]).
    constructor.
  - destruct (getFilter_cases filterName) as [[filter [Hf [Hin Hback]]] | [P [H Hf]]].
    + rewrite Hf. split; assumption.
    + rewrite Hf. split; [reflexivity |]. split; assumption.
Qed.

(** The gain of the contrast block divides by [255 * (259 - contrast)]:
    for no preset a name resolves to is that 0 or less, so the gain is always
    a positive number. *)
Theorem contrast_gain_is_positive (filterName : string) (filter : FilterConfig) :
  getFilter filterName = preset filter ->
  (0 < 255 * (259 - contrast (canvasAdjustments filter)))%Q
  /\ (0 < (259 * (contrast (canvasAdjustments filter) + 255))
          / (255 * (259 - contrast (canvasAdjustments filter))))%Q.
Proof.
  intros Hf.
  destruct (getFilter_cases filterName) as [[filter' [Hf' [Hin Hback]]] | [_ [_ Hi]]].
  - rewrite Hf in Hf'. injection Hf' as <-. cbn in Hin.
    repeat (destruct Hin as [E | Hin];
            [rewrite <- E in Hback; injection Hback as <-; split; reflexivity |]).
    contradiction.
  - rewrite Hf in Hi. discriminate Hi.
Qed.

Lemma contrast_gain_is_positive_witness :
  (0 < 255 * (259 - contrast (canvasAdjustments vintage)))%Q
  /\ (0 < (259 * (contrast (canvasAdjustments vintage) + 255))
          / (255 * (259 - contrast (canvasAdjustments vintage))))%Q.
Proof.
  apply (contrast_gain_is_positive "vintage" vintage). reflexivity.
Defined.

(** The samples written for a pixel depend on that pixel alone: two
    rasters that agree on a pixel agree on it after the same filter, whatever
    the other pixels hold. *)
Theorem filter_acts_pixelwise
        (ctx ctx' : ImageData) (filterName : string) (k k' : nat) :
  raster ctx ->
  raster ctx' ->
  (k < width ctx * height ctx)%nat ->
  (k' < width ctx' * height ctx')%nat ->
  (forall j, (j < 4)%nat -> channel ctx k j = channel ctx' k' j) ->
  forall j, (j < 4)%nat ->
            channel (snd (applyCanvasFilter ctx filterName)) k j
            = channel (snd (applyCanvasFilter ctx' filterName)) k' j.
Proof.
  intros Hr Hr' Hk Hk' Hsame j Hj.
  destruct (applyCanvasFilter_pixel ctx filterName k Hr Hk) as [Ha [Hkeep Hpix]].
  destruct (applyCanvasFilter_pixel ctx' filterName k' Hr' Hk') as [Ha' [Hkeep' Hpix']].
  pose proof (Hsame 0%nat ltac:(lia)) as S0. pose proof (Hsame 1%nat ltac:(lia)) as S1.
  pose proof (Hsame 2%nat ltac:(lia)) as S2. pose proof (Hsame 3%nat ltac:(lia)) as S3.
  destruct (Z.eq_dec (channel ctx k 3) 0) as [Hz | Hnz].
  - rewrite Hkeep by assumption. rewrite Hkeep' by (try rewrite <- S3; assumption).
    apply Hsame, Hj.
  - specialize (Hpix Hnz). specialize (Hpix' ltac:(rewrite <- S3; exact Hnz)).
    rewrite <- S0, <- S1, <- S2, <- Hpix in Hpix'.
    injection Hpix' as P0 P1 P2.
    destruct j as [| [| [| [| j]]]]; try lia; symmetry; assumption.
Qed.

Lemma filter_acts_pixelwise_witness :
  channel (snd (applyCanvasFilter twoPixels "autumn")) 1 0
  = channel (snd (applyCanvasFilter
                    {| width := 1; height := 1; data := [100; 100; 0; 255] |} "autumn")) 0 0.
Proof.
  apply (filter_acts_pixelwise
           twoPixels {| width := 1; height := 1; data := [100; 100; 0; 255] |}
           "autumn" 1 0).
  - apply twoPixels_raster.
  - split; [reflexivity |].
    repeat (constructor; [unfold byteSample; lia |]). constructor.
  - cbn. lia.
  - cbn. lia.
  - intros j Hj. destruct j as [| [| [| [| j]]]]; try lia; reflexivity.
  - lia.
Defined.

End CatalogAndPixels.

(** ** The batch drivers: which entities get processed *)

Section BatchRuns.

Import Js Batch.
Open Scope string_scope.
Open Scope list_scope.

Variable World : Type.
Variable env : Env World.

(** The line that opens the work on an entity. *)
Definition processingLine (entityName : string) : Line :=
  logged ("🔄 Processing: " ++ entityName)%string.

Definition isProcessing (line : Line) : bool :=
  match line with
  | logged text => prefix "🔄 Processing: " text
  | _ => false
  end.

(** Whether it returns or throws, [c] only adds lines to the console, none
    of them a processing line. *)
Definition quiet {A : Type} (c : M World A) : Prop :=
  forall s, exists added,
    console (snd (c s)) = console s ++ added /\ filter isProcessing added = [].

(** [c] returns, and the processing lines it adds to the console are
    [lines]. *)
Definition completes (c : M World unit) (lines : list Line) : Prop :=
  forall s, exists added,
    fst (c s) = Returned tt
    /\ console (snd (c s)) = console s ++ added
    /\ filter isProcessing added = lines.

Lemma quiet_ret (A : Type) (a : A) : quiet (ret a).
Proof. intros s. exists []. split; [symmetry; apply app_nil_r | reflexivity]. Qed.

Lemma quiet_say (line : Line) : isProcessing line = false -> quiet (say line).
Proof.
  intros H s. exists [line]. split; [reflexivity |]. cbn [filter]. rewrite H. reflexivity.
Qed.

Lemma quiet_call (A : Type) (f : World -> outcome A * World) : quiet (call f).
Proof.
  intros s. exists []. unfold call. destruct (f (world s)) as [result w].
  split; [symmetry; apply app_nil_r | reflexivity].
Qed.

Lemma quiet_ask (A : Type) (f : World -> A) : quiet (ask f).
Proof. intros s. exists []. split; [symmetry; apply app_nil_r | reflexivity]. Qed.

Lemma quiet_bind (A B : Type) (c : M World A) (k : A -> M World B) :
  quiet c -> (forall a, quiet (k a)) -> quiet (bind c k).
Proof.
  intros Hc Hk s. unfold bind.
  destruct (Hc s) as [added1 [E1 F1]].
  destruct (c s) as [[a | e] s1]; cbn [snd] in E1.
  - destruct (Hk a s1) as [added2 [E2 F2]].
    exists (added1 ++ added2). split.
    + rewrite E2, E1, app_assoc. reflexivity.
    + rewrite filter_app, F1, F2. reflexivity.
  - exists added1. split; [exact E1 | exact F1].
Qed.

Lemma quiet_tryCatch (A : Type) (c : M World A) (handler : string -> M World A) :
  quiet c -> (forall e, quiet (handler e)) -> quiet (tryCatch c handler).
Proof.
  intros Hc Hh s. unfold tryCatch.
  destruct (Hc s) as [added1 [E1 F1]].
  destruct (c s) as [[a | e] s1]; cbn [snd] in E1.
  - exists added1. split; [exact E1 | exact F1].
  - destruct (Hh e s1) as [added2 [E2 F2]].
    exists (added1 ++ added2). split.
    + rewrite E2, E1, app_assoc. reflexivity.
    + rewrite filter_app, F1, F2. reflexivity.
Qed.

Lemma completes_ret : completes (ret tt) [].
Proof.
  intros s. exists []. split; [reflexivity |].
  split; [symmetry; apply app_nil_r | reflexivity].
Qed.

Lemma completes_say (line : Line) :
  completes (say line) (if isProcessing line then [line] else []).
Proof.
  intros s. exists [line]. split; [reflexivity |]. split; [reflexivity |].
  cbn [filter]. reflexivity.
Qed.

Lemma completes_bind (c : M World unit) (k : unit -> M World unit) (l1 l2 : list Line) :
  completes c l1 -> completes (k tt) l2 -> completes (bind c k) (l1 ++ l2).
Proof.
  intros Hc Hk s. unfold bind.
  destruct (Hc s) as [added1 [R1 [E1 F1]]].
  destruct (c s) as [[[] | e] s1]; cbn [fst snd] in R1, E1; [| discriminate R1].
  destruct (Hk s1) as [added2 [R2 [E2 F2]]].
  exists (added1 ++ added2). split; [exact R2 |]. split.
  - rewrite E2, E1, app_assoc. reflexivity.
  - rewrite filter_app, F1, F2. reflexivity.
Qed.

(** A [try] whose handler returns has returned, whatever was tried. *)
Lemma completes_tryCatch (c : M World unit) (handler : string -> M World unit) :
  quiet c -> (forall e, completes (handler e) []) -> completes (tryCatch c handler) [].
Proof.
  intros Hc Hh s. unfold tryCatch.
  destruct (Hc s) as [added1 [E1 F1]].
  destruct (c s) as [[[] | e] s1]; cbn [snd] in E1.
  - exists added1. split; [reflexivity |]. split; [exact E1 | exact F1].
  - destruct (Hh e s1) as [added2 [R2 [E2 F2]]].
    exists (added1 ++ added2). split; [exact R2 |]. split.
    + rewrite E2, E1, app_assoc. reflexivity.
    + rewrite filter_app, F1, F2. reflexivity.
Qed.

Lemma completes_forEach (A : Type) (l : list A) (body : A -> M World unit)
      (lines : A -> list Line) :
  (forall a, In a l -> completes (body a) (lines a)) ->
  completes (forEach l body) (flat_map lines l).
Proof.
  induction l as [| a l IH]; intros H; cbn [forEach flat_map].
  - apply completes_ret.
  - apply completes_bind.
    + apply H. left. reflexivity.
    + apply IH. intros a' Ha'. apply H. right. exact Ha'.
Qed.

End BatchRuns.

Section BatchTheorems.

Import Js Batch.
Open Scope string_scope.
Open Scope list_scope.

Variable World : Type.
Variable env : Env World.

(** From the state [s], [c] returns, and the processing lines it adds to
    the console are [lines]. *)
Definition completesAt (c : M World unit) (s : State World) (lines : list Line) : Prop :=
  exists added,
    fst (c s) = Returned tt
    /\ console (snd (c s)) = console s ++ added
    /\ filter isProcessing added = lines.

Lemma completesAt_bind (c : M World unit) (k : unit -> M World unit)
      (s : State World) (l1 l2 : list Line) :
  completesAt c s l1 ->
  completesAt (k tt) (snd (c s)) l2 ->
  completesAt (bind c k) s (l1 ++ l2).
Proof.
  intros [added1 [R1 [E1 F1]]] [added2 [R2 [E2 F2]]]. unfold completesAt, bind.
  destruct (c s) as [[[] | e] s1]; cbn [fst snd] in *; [| discriminate R1].
  exists (added1 ++ added2). split; [exact R2 |]. split.
  - rewrite E2, E1, app_assoc. reflexivity.
  - rewrite filter_app, F1, F2. reflexivity.
Qed.

Lemma completes_at (c : M World unit) (s : State World) (lines : list Line) :
  completes World c lines -> completesAt c s lines.
Proof. intros H. exact (H s). Qed.

Lemma completes_say_other (line : Line) :
  isProcessing line = false -> completes World (say line) [].
Proof.
  intros H. pose proof (completes_say World line) as C. rewrite H in C. exact C.
Qed.

(** The output directory is there or can be made. *)
Definition directoryReady (outputDir : string) (w : World) : Prop :=
  existsSync env outputDir w = true
  \/ fst (mkdir env outputDir w) = Returned tt.

Lemma isProcessing_processingLine (entityName : string) :
  isProcessing (processingLine entityName) = true.
Proof. unfold isProcessing, processingLine. cbn. destruct entityName; reflexivity. Qed.

Lemma completes_processingLine (entityName : string) :
  completes World (say (processingLine entityName)) [processingLine entityName].
Proof.
  pose proof (completes_say World (processingLine entityName)) as H.
  rewrite isProcessing_processingLine in H. exact H.
Qed.

Ltac quietly :=
  repeat first
    [ apply quiet_ret
    | apply quiet_call
    | apply quiet_ask
    | apply quiet_say; reflexivity
    | apply quiet_bind; [| intros ?]
    | match goal with
      | |- quiet _ (if ?b then _ else _) => destruct b
      | |- quiet _ (match ?x with Some _ => _ | None => _ end) => destruct x
      end ].

(** *** VideoGenerator *)

Lemma video_ensureOutputDir (this : VideoGenerator.VideoGenerator) (s : State World) :
  directoryReady (VideoGenerator.this_outputDir this) (world s) ->
  completesAt (VideoGenerator.ensureOutputDir env this) s [].
Proof.
  intros H. unfold completesAt, VideoGenerator.ensureOutputDir, bind, ask, call, say, ret.
  cbn [fst snd world console].
  destruct (existsSync env (VideoGenerator.this_outputDir this) (world s)) eqn:E; cbn [negb].
  - exists []. split; [reflexivity |]. split; [symmetry; apply app_nil_r | reflexivity].
  - destruct H as [H | H]; [congruence |].
    destruct (mkdir env (VideoGenerator.this_outputDir this) (world s)) as [[[] | e] w];
      cbn [fst] in H; [| discriminate H].
    cbn [fst snd world console]. eexists. split; [reflexivity |].
    split; reflexivity.
Qed.

Lemma video_entity_quiet (this : VideoGenerator.VideoGenerator) (entityName : string) :
  quiet World (VideoGenerator.generateEntityVideo env this entityName).
Proof. unfold VideoGenerator.generateEntityVideo. quietly. Qed.

Lemma video_entity_completes (this : VideoGenerator.VideoGenerator) (entityName : string) :
  completes World
    (bind (say (processingLine entityName))
          (fun _ => tryCatch (VideoGenerator.generateEntityVideo env this entityName)
                             (@VideoGenerator.reportError World entityName)))
    [processingLine entityName].
Proof.
  apply (completes_bind World _ _ [processingLine entityName] []).
  - apply completes_processingLine.
  - apply completes_tryCatch; [apply video_entity_quiet |].
    intros e. apply completes_say_other. reflexivity.
Qed.

(** Once the output directory is there, [VideoGenerator.generateAll]
    returns, whatever the generators, the grid renderer and the file system
    do, throwing included: every one of the eight entities is taken up, in
    the order of the map, after a failure of the ones before it as well. *)
Theorem video_batch_visits_every_entity
        (this : VideoGenerator.VideoGenerator) (s : State World) :
  directoryReady (VideoGenerator.this_outputDir this) (world s) ->
  exists added : list Line,
    fst (VideoGenerator.generateAll env this s) = Returned tt
    /\ console (snd (VideoGenerator.generateAll env this s)) = console s ++ added
    /\ filter isProcessing added = map processingLine entityNames.
Proof.
  intros Hdir.
  change (completesAt (VideoGenerator.generateAll env this) s
            ([] ++ [] ++ [] ++ [] ++ []
             ++ flat_map (fun n => [processingLine n]) entityNames ++ [] ++ [])).
  unfold VideoGenerator.generateAll.
  do 3 (apply completesAt_bind;
        [apply completes_at, completes_say_other; reflexivity |]).
  apply completesAt_bind; [apply video_ensureOutputDir; exact Hdir |].
  apply completesAt_bind; [apply completes_at, completes_say_other; reflexivity |].
  apply completesAt_bind.
  - apply completes_at, completes_forEach. intros n _. apply video_entity_completes.
  - apply completesAt_bind; apply completes_at, completes_say_other; reflexivity.
Qed.

(** *** SingleGridGenerator *)

Lemma single_ensureOutputDir (this : SingleGridGenerator.SingleGridGenerator)
      (s : State World) :
  directoryReady (SingleGridGenerator.this_outputDir this) (world s) ->
  completesAt (SingleGridGenerator.ensureOutputDir env this) s [].
Proof.
  intros H.
  unfold completesAt, SingleGridGenerator.ensureOutputDir, bind, ask, call, say, ret.
  cbn [fst snd world console].
  destruct (existsSync env (SingleGridGenerator.this_outputDir this) (world s)) eqn:E;
    cbn [negb].
  - exists []. split; [reflexivity |]. split; [symmetry; apply app_nil_r | reflexivity].
  - destruct H as [H | H]; [congruence |].
    destruct (mkdir env (SingleGridGenerator.this_outputDir this) (world s))
      as [[[] | e] w]; cbn [fst] in H; [| discriminate H].
    cbn [fst snd world console]. eexists. split; [reflexivity |].
    split; reflexivity.
Qed.

Lemma single_entity_quiet (this : SingleGridGenerator.SingleGridGenerator)
      (entityName : string) :
  quiet World (SingleGridGenerator.gridForEntityOfBatch env this entityName).
Proof.
  unfold SingleGridGenerator.gridForEntityOfBatch, SingleGridGenerator.useSample,
    SingleGridGenerator.generateSingleGrid.
  quietly.
Qed.

(** The request the fallback of [generateAll] sends to [generateGrid]. *)
Definition fallbackRequest (this : SingleGridGenerator.SingleGridGenerator)
           (entityName : string) : GridRequest :=
  {| trees := [ {| tree_imagePath := SingleGridGenerator.samplePathOf env entityName;
                   tree_gridX := 0; tree_gridY := 0; tree_scale := 0.8 |} ];
     outputFilename :=
       join env [SingleGridGenerator.this_outputDir this; (entityName ++ "_grid.png")%string]
  |}.

(** Rendering an entity's sample, where there is one, does not throw. *)
Definition fallbackRenders (this : SingleGridGenerator.SingleGridGenerator) : Prop :=
  forall (entityName : string) (w : World),
    existsSync env (SingleGridGenerator.samplePathOf env entityName) w = true ->
    fst (generateGrid env (fallbackRequest this entityName) w) = Returned tt.

Lemma single_fallback_completes (this : SingleGridGenerator.SingleGridGenerator)
      (entityName error : string) :
  fallbackRenders this ->
  completes World (SingleGridGenerator.fallBackToSample env this entityName error) [].
Proof.
  intros Hf s.
  unfold SingleGridGenerator.fallBackToSample, SingleGridGenerator.generateSingleGrid,
    bind, ask, call, say, ret.
  cbn [fst snd world console].
  destruct (existsSync env (SingleGridGenerator.samplePathOf env entityName) (world s))
    eqn:E.
  - specialize (Hf entityName (world s) E). unfold fallbackRequest in Hf.
    cbn [fst snd world console].
    destruct (generateGrid env _ (world s)) as [[[] | e] w]; cbn [fst] in Hf;
      [| discriminate Hf].
    cbn [fst snd world console]. eexists. split; [reflexivity |].
    split; [rewrite <- !app_assoc; reflexivity | reflexivity].
  - cbn [fst snd world console]. eexists. split; [reflexivity |].
    split; reflexivity.
Qed.

(** [SingleGridGenerator.generateAll] takes up every one of the eight
    entities and returns, whatever the generators and the file copies do,
    provided the output directory is there and rendering a sample does not
    throw: the sample is rendered inside the [catch] block, where nothing
    catches. *)
Theorem single_batch_visits_every_entity
        (this : SingleGridGenerator.SingleGridGenerator) (s : State World) :
  directoryReady (SingleGridGenerator.this_outputDir this) (world s) ->
  fallbackRenders this ->
  exists added : list Line,
    fst (SingleGridGenerator.generateAll env this s) = Returned tt
    /\ console (snd (SingleGridGenerator.generateAll env this s)) = console s ++ added
    /\ filter isProcessing added = map processingLine entityNames.
Proof.
  intros Hdir Hf.
  change (completesAt (SingleGridGenerator.generateAll env this) s
            ([] ++ [] ++ [] ++ [] ++ []
             ++ flat_map (fun n => [processingLine n] ++ []) entityNames ++ [] ++ [])).
  unfold SingleGridGenerator.generateAll.
  do 3 (apply completesAt_bind;
        [apply completes_at, completes_say_other; reflexivity |]).
  apply completesAt_bind; [apply single_ensureOutputDir; exact Hdir |].
  apply completesAt_bind; [apply completes_at, completes_say_other; reflexivity |].
  apply completesAt_bind.
  - apply completes_at, completes_forEach. intros n _.
    apply completes_bind.
    + apply completes_processingLine.
    + apply completes_tryCatch; [apply single_entity_quiet |].
      intros e. apply single_fallback_completes, Hf.
  - apply completesAt_bind; apply completes_at, completes_say_other; reflexivity.
Qed.

(** When the generator of the first entity throws, its sample exists and
    rendering the sample throws too, [SingleGridGenerator.generateAll]
    throws what the renderer threw and takes up no other entity. *)
Theorem single_batch_stops_at_failed_fallback
        (this : SingleGridGenerator.SingleGridGenerator) (s : State World)
        (failure renderFailure : string) :
  existsSync env (SingleGridGenerator.this_outputDir this) (world s) = true ->
  (forall config w, generate env "tree" config w = (Thrown failure, w)) ->
  (forall w, existsSync env (SingleGridGenerator.samplePathOf env "tree") w = true) ->
  (forall request w, generateGrid env request w = (Thrown renderFailure, w)) ->
  exists added : list Line,
    fst (SingleGridGenerator.generateAll env this s) = Thrown renderFailure
    /\ console (snd (SingleGridGenerator.generateAll env this s)) = console s ++ added
    /\ filter isProcessing added = [processingLine "tree"].
Proof.
  intros Hdir Hgen Hsample Hgrid.
  unfold SingleGridGenerator.generateAll, SingleGridGenerator.ensureOutputDir,
    SingleGridGenerator.gridForEntityOfBatch, SingleGridGenerator.fallBackToSample,
    SingleGridGenerator.generateSingleGrid, entityNames.
  cbn [forEach]. unfold bind, tryCatch, ask, call, say, ret.
  cbn [fst snd world console].
  rewrite Hdir. cbn [negb fst snd world console].
  rewrite Hgen. cbn [fst snd world console].
  rewrite Hsample. cbn [fst snd world console].
  rewrite Hgrid. cbn [fst snd world console].
  eexists. split; [reflexivity |]. split.
  - rewrite <- !app_assoc. reflexivity.
  - reflexivity.
Qed.

(** *** A name that is no entity *)

(** For a name that is not a key of [entities], [generateForEntity] of
    either driver calls no generator and no renderer: the world it leaves
    is the one [ensureOutputDir] leaves, it throws only what making the
    directory threw, and when it returns its last lines are the complaint
    and the eight names there are. *)
Theorem unknown_entity_generates_nothing
        (video : VideoGenerator.VideoGenerator)
        (single : SingleGridGenerator.SingleGridGenerator)
        (entityName : string) (s : State World) :
  ~ In entityName entityNames ->
  (world (snd (VideoGenerator.generateForEntity env video entityName s))
   = world (snd (VideoGenerator.ensureOutputDir env video s))
   /\ fst (VideoGenerator.generateForEntity env video entityName s)
      = fst (VideoGenerator.ensureOutputDir env video s)
   /\ (fst (VideoGenerator.generateForEntity env video entityName s) = Returned tt ->
       exists before,
         console (snd (VideoGenerator.generateForEntity env video entityName s))
         = before
             ++ errored ("Entity " ++ quote ++ entityName ++ quote
                         ++ " not found. Available entities:")%string
             :: map (fun name => logged ("  - " ++ name)%string) entityNames))
  /\ (world (snd (SingleGridGenerator.generateForEntity env single entityName s))
      = world (snd (SingleGridGenerator.ensureOutputDir env single s))
      /\ fst (SingleGridGenerator.generateForEntity env single entityName s)
         = fst (SingleGridGenerator.ensureOutputDir env single s)
      /\ (fst (SingleGridGenerator.generateForEntity env single entityName s)
          = Returned tt ->
          exists before,
            console (snd (SingleGridGenerator.generateForEntity env single entityName s))
            = before
                ++ errored ("Entity " ++ quote ++ entityName ++ quote
                            ++ " not found. Available entities:")%string
                :: map (fun name => logged ("  - " ++ name)%string) entityNames)).
Proof.
  intros Hname.
  assert (Hno : isEntity entityName = false).
  { unfold isEntity. destruct (existsb (String.eqb entityName) entityNames) eqn:E;
      [| reflexivity].
    apply existsb_exists in E. destruct E as [n [Hn Heq]].
    apply String.eqb_eq in Heq. subst n. contradiction. }
  split.
  - unfold VideoGenerator.generateForEntity, VideoGenerator.ensureOutputDir, entityNames.
    rewrite Hno. cbn [negb forEach]. unfold bind, ask, call, say, ret.
    cbn [fst snd world console].
    destruct (existsSync env (VideoGenerator.this_outputDir video) (world s));
      cbn [negb fst snd world console].
    + split; [reflexivity |]. split; [reflexivity |].
      intros _. eexists (console s ++ [_; _]). rewrite <- !app_assoc. reflexivity.
    + destruct (mkdir env (VideoGenerator.this_outputDir video) (world s))
        as [[[] | e] w]; cbn [fst snd world console].
      * split; [reflexivity |]. split; [reflexivity |].
        intros _.
        eexists (console s ++ [_; _; _]).
        rewrite <- !app_assoc. reflexivity.
      * split; [reflexivity |]. split; [reflexivity |]. intros H. discriminate H.
  - unfold SingleGridGenerator.generateForEntity, SingleGridGenerator.ensureOutputDir,
      entityNames.
    rewrite Hno. cbn [negb forEach]. unfold bind, ask, call, say, ret.
    cbn [fst snd world console].
    destruct (existsSync env (SingleGridGenerator.this_outputDir single) (world s));
      cbn [negb fst snd world console].
    + split; [reflexivity |]. split; [reflexivity |].
      intros _. eexists (console s ++ [_; _]). rewrite <- !app_assoc. reflexivity.
    + destruct (mkdir env (SingleGridGenerator.this_outputDir single) (world s))
        as [[[] | e] w]; cbn [fst snd world console].
      * split; [reflexivity |]. split; [reflexivity |].
        intros _.
        eexists (console s ++ [_; _; _]).
        rewrite <- !app_assoc. reflexivity.
      * split; [reflexivity |]. split; [reflexivity |]. intros H. discriminate H.
Qed.

(** *** One entity *)

Lemma single_named_entity_quiet (this : SingleGridGenerator.SingleGridGenerator)
      (entityName : string) :
  quiet World (SingleGridGenerator.gridForEntity env this entityName).
Proof.
  unfold SingleGridGenerator.gridForEntity, SingleGridGenerator.useSample,
    SingleGridGenerator.generateSingleGrid.
  quietly.
Qed.

Lemma names_listed_completes :
  completes World (forEach entityNames (fun name => say (logged ("  - " ++ name)%string)))
            [].
Proof.
  change (@nil Line) with (flat_map (fun _ : string => @nil Line) entityNames).
  apply completes_forEach. intros name _. apply completes_say_other. reflexivity.
Qed.

(** Once the output directory is there, [generateForEntity] of either
    driver returns for every name, whatever the generator, the renderers
    and the file system do: for a name of the map the entity is taken up and
    everything thrown after that is caught and reported, the failure of
    rendering the grid included; for any other name nothing is taken up. *)
Theorem entity_run_never_throws
        (video : VideoGenerator.VideoGenerator)
        (single : SingleGridGenerator.SingleGridGenerator)
        (entityName : string) (s : State World) :
  directoryReady (VideoGenerator.this_outputDir video) (world s) ->
  directoryReady (SingleGridGenerator.this_outputDir single) (world s) ->
  (exists added : list Line,
     fst (VideoGenerator.generateForEntity env video entityName s) = Returned tt
     /\ console (snd (VideoGenerator.generateForEntity env video entityName s))
        = console s ++ added
     /\ filter isProcessing added
        = if isEntity entityName then [processingLine entityName] else [])
  /\ (exists added : list Line,
        fst (SingleGridGenerator.generateForEntity env single entityName s) = Returned tt
        /\ console (snd (SingleGridGenerator.generateForEntity env single entityName s))
           = console s ++ added
        /\ filter isProcessing added
           = if isEntity entityName then [processingLine entityName] else []).
Proof.
  intros Hvideo Hsingle. split.
  - change (completesAt (VideoGenerator.generateForEntity env video entityName) s
              (if isEntity entityName then [processingLine entityName] else [])).
    unfold VideoGenerator.generateForEntity.
    destruct (isEntity entityName); cbn [negb].
    + change [processingLine entityName]
        with ([] ++ [] ++ [] ++ [processingLine entityName] ++ [] ++ []).
      do 2 (apply completesAt_bind;
            [apply completes_at, completes_say_other; reflexivity |]).
      apply completesAt_bind; [apply video_ensureOutputDir; exact Hvideo |].
      apply completesAt_bind; [apply completes_at, completes_processingLine |].
      apply completesAt_bind.
      * apply completes_at, completes_tryCatch; [apply video_entity_quiet |].
        intros e. apply completes_say_other. reflexivity.
      * apply completes_at, completes_say_other. reflexivity.
    + change (@nil Line) with (@nil Line ++ [] ++ [] ++ [] ++ []).
      do 2 (apply completesAt_bind;
            [apply completes_at, completes_say_other; reflexivity |]).
      apply completesAt_bind; [apply video_ensureOutputDir; exact Hvideo |].
      apply completesAt_bind; [apply completes_at, completes_say_other; reflexivity |].
      apply completes_at, names_listed_completes.
  - change (completesAt (SingleGridGenerator.generateForEntity env single entityName) s
              (if isEntity entityName then [processingLine entityName] else [])).
    unfold SingleGridGenerator.generateForEntity.
    destruct (isEntity entityName); cbn [negb].
    + change [processingLine entityName]
        with ([] ++ [] ++ [] ++ [processingLine entityName] ++ [] ++ []).
      do 2 (apply completesAt_bind;
            [apply completes_at, completes_say_other; reflexivity |]).
      apply completesAt_bind; [apply single_ensureOutputDir; exact Hsingle |].
      apply completesAt_bind; [apply completes_at, completes_processingLine |].
      apply completesAt_bind.
      * apply completes_at, completes_tryCatch; [apply single_named_entity_quiet |].
        intros e. apply completes_say_other. reflexivity.
      * apply completes_at, completes_say_other. reflexivity.
    + change (@nil Line) with (@nil Line ++ [] ++ [] ++ [] ++ []).
      do 2 (apply completesAt_bind;
            [apply completes_at, completes_say_other; reflexivity |]).
      apply completesAt_bind; [apply single_ensureOutputDir; exact Hsingle |].
      apply completesAt_bind; [apply completes_at, completes_say_other; reflexivity |].
      apply completes_at, names_listed_completes.
Qed.

End BatchTheorems.

Section BatchWitnesses.

Import Js Batch.
Open Scope string_scope.
Open Scope list_scope.

(** A world that is the list of the paths there are, with generators that
    all throw; [renders] says whether [generateGrid] succeeds. *)
Definition diskOfPaths (renders : bool) : Env (list string) :=
  {| dirname := "/app/cache-gen";
     join := String.concat "/";
     existsSync := fun path w => existsb (String.eqb path) w;
     mkdir := fun path w => (Returned tt, path :: w);
     unlink := fun path w => (Returned tt, filter (fun p => negb (String.eqb path p)) w);
     writeFile := fun path _ w => (Returned tt, path :: w);
     copyFile := fun _ target w => (Returned tt, target :: w);
     generate := fun _ _ w => (Thrown "no canvas", w);
     generateGrid := fun request w =>
       if renders then (Returned tt, outputFilename request :: w)
       else (Thrown "disk full", w);
     generateGridVideo := fun _ _ output _ w => (Returned tt, output :: w) |}.

(** The same with every path there. *)
Definition fullDisk (renders : bool) : Env (list string) :=
  {| dirname := dirname (diskOfPaths renders);
     join := join (diskOfPaths renders);
     existsSync := fun _ _ => true;
     mkdir := mkdir (diskOfPaths renders);
     unlink := unlink (diskOfPaths renders);
     writeFile := writeFile (diskOfPaths renders);
     copyFile := copyFile (diskOfPaths renders);
     generate := generate (diskOfPaths renders);
     generateGrid := generateGrid (diskOfPaths renders);
     generateGridVideo := generateGridVideo (diskOfPaths renders) |}.

Definition emptyDisk : State (list string) := {| world := []; console := [] |}.

Definition videoJob : VideoGenerator.VideoGenerator :=
  {| VideoGenerator.this_seed := SEED;
     VideoGenerator.this_outputDir := "/app/cache/videos" |}.

Definition gridJob : SingleGridGenerator.SingleGridGenerator :=
  {| SingleGridGenerator.this_seed := SEED;
     SingleGridGenerator.this_outputDir := "/app/cache/images" |}.

Lemma video_batch_visits_every_entity_witness :
  exists added : list Line,
    fst (VideoGenerator.generateAll (diskOfPaths false) videoJob emptyDisk) = Returned tt
    /\ console (snd (VideoGenerator.generateAll (diskOfPaths false) videoJob emptyDisk))
       = console emptyDisk ++ added
    /\ filter isProcessing added = map processingLine entityNames.
Proof.
  apply (video_batch_visits_every_entity (list string) (diskOfPaths false) videoJob emptyDisk).
  right. reflexivity.
Defined.

Lemma single_batch_visits_every_entity_witness :
  exists added : list Line,
    fst (SingleGridGenerator.generateAll (fullDisk true) gridJob emptyDisk) = Returned tt
    /\ console (snd (SingleGridGenerator.generateAll (fullDisk true) gridJob emptyDisk))
       = console emptyDisk ++ added
    /\ filter isProcessing added = map processingLine entityNames.
Proof.
  apply (single_batch_visits_every_entity (list string) (fullDisk true) gridJob emptyDisk).
  - left. reflexivity.
  - intros entityName w _. reflexivity.
Defined.

Lemma single_batch_stops_at_failed_fallback_witness :
  exists added : list Line,
    fst (SingleGridGenerator.generateAll (fullDisk false) gridJob emptyDisk)
    = Thrown "disk full"
    /\ console (snd (SingleGridGenerator.generateAll (fullDisk false) gridJob emptyDisk))
       = console emptyDisk ++ added
    /\ filter isProcessing added = [processingLine "tree"].
Proof.
  apply (single_batch_stops_at_failed_fallback
           (list string) (fullDisk false) gridJob emptyDisk "no canvas" "disk full").
  - reflexivity.
  - intros config w. reflexivity.
  - intros w. reflexivity.
  - intros request w. reflexivity.
Defined.

Lemma unknown_entity_generates_nothing_witness :
  world (snd (VideoGenerator.generateForEntity (diskOfPaths true) videoJob "oak" emptyDisk))
  = ["/app/cache/videos"]
  /\ world (snd (SingleGridGenerator.generateForEntity (diskOfPaths true) gridJob "oak"
                                                        emptyDisk))
     = ["/app/cache/images"].
Proof.
  assert (Hname : ~ In "oak" entityNames).
  { intros H. cbn in H. repeat (destruct H as [H | H]; [discriminate H |]). exact H. }
  destruct (unknown_entity_generates_nothing
              (list string) (diskOfPaths true) videoJob gridJob "oak" emptyDisk Hname)
    as [[V _] [G _]].
  split.
  - rewrite V. reflexivity.
  - rewrite G. reflexivity.
Defined.

Lemma entity_run_never_throws_witness :
  (exists added : list Line,
     fst (VideoGenerator.generateForEntity (diskOfPaths false) videoJob "maple" emptyDisk)
     = Returned tt
     /\ console (snd (VideoGenerator.generateForEntity (diskOfPaths false) videoJob "maple"
                                                       emptyDisk))
        = console emptyDisk ++ added
     /\ filter isProcessing added = [processingLine "maple"])
  /\ (exists added : list Line,
        fst (SingleGridGenerator.generateForEntity (diskOfPaths false) gridJob "maple"
                                                   emptyDisk)
        = Returned tt
        /\ console (snd (SingleGridGenerator.generateForEntity (diskOfPaths false) gridJob
                                                               "maple" emptyDisk))
           = console emptyDisk ++ added
        /\ filter isProcessing added = [processingLine "maple"]).
Proof.
  apply (entity_run_never_throws (list string) (diskOfPaths false) videoJob gridJob
                                 "maple" emptyDisk).
  - right. reflexivity.
  - right. reflexivity.
Defined.

End BatchWitnesses.
